(** * A shallow embedding of the shaha hash-database storage engine

    The development follows the Rust sources:
    - [src/storage/mod.rs]      : [HashRecord], [Stats], the [Storage] trait;
    - [src/storage/parquet.rs]  : the local Parquet store (write path, membership
                                  filter, query with pruning, stats);
    - [src/storage/r2.rs]       : the remote (DuckDB / S3) store, write path;
    - [src/cli/build.rs]        : the build pipeline (dedup, hashing, append-merge,
                                  sort, chunked write).

    Byte strings ([Vec<u8>], [&[u8]]) are lists of [Z] holding values in
    [0, 255]; Rust [String]s are Rocq [string]s.  Fallible code returns an
    [Outcome]: [Ok], [Err] (an [anyhow] error) or [Panic]. *)

From Stdlib Require Import String Ascii ZArith List Bool Lia.
From Stdlib Require Import Sorting.Permutation Sorting.Sorted.
Import ListNotations.
Open Scope Z_scope.

(** ** Outcomes of fallible code *)

Inductive Outcome (A : Type) : Type :=
| Ok (a : A)
| Err (msg : string)
| Panic.
Arguments Ok {A} a.
Arguments Err {A} msg.
Arguments Panic {A}.

Definition obind {A B : Type} (m : Outcome A) (f : A -> Outcome B) : Outcome B :=
  match m with
  | Ok a => f a
  | Err e => Err e
  | Panic => Panic
  end.

Notation "x <- m ;; k" := (obind m (fun x => k))
  (at level 61, m at next level, right associativity).

(** ** Byte strings *)

Definition bytes := list Z.

Definition is_byte (x : Z) : Prop := 0 <= x <= 255.

(** Rust's [Ord] on byte slices: lexicographic, a strict prefix is smaller. *)
Fixpoint bytes_cmp (a b : bytes) : comparison :=
  match a, b with
  | [], [] => Eq
  | [], _ :: _ => Lt
  | _ :: _, [] => Gt
  | x :: a', y :: b' =>
      match Z.compare x y with
      | Eq => bytes_cmp a' b'
      | c => c
      end
  end.

(** [a <= b] and [a >= b] on slices. *)
Definition bytes_le (a b : bytes) : bool :=
  match bytes_cmp a b with Gt => false | _ => true end.
Definition bytes_ge (a b : bytes) : bool :=
  match bytes_cmp a b with Lt => false | _ => true end.

(** [<[u8]>::starts_with]. *)
Fixpoint starts_with (h p : bytes) : bool :=
  match p, h with
  | [], _ => true
  | _ :: _, [] => false
  | y :: p', x :: h' => Z.eqb x y && starts_with h' p'
  end.

(** [Vec::resize(new_len, value)]: truncates, or pads with [value]. *)
Definition resize (v : bytes) (new_len : nat) (value : Z) : bytes :=
  if Nat.leb new_len (length v) then firstn new_len v
  else v ++ repeat value (new_len - length v).

(** ** [ParquetStorage::is_full_hash_length] (parquet.rs 258-260) *)
Definition is_full_hash_length (len : nat) : bool :=
  match len with
  | 16%nat | 20%nat | 32%nat | 64%nat => true
  | _ => false
  end.

(** ** [ParquetStorage::prefix_might_be_in_range] (parquet.rs 262-272) *)
Definition prefix_might_be_in_range (prefix min max : bytes) : bool :=
  match prefix with
  | [] => true
  | _ :: _ =>
      let prefix_low := prefix in
      let prefix_high := resize prefix (Nat.max (length max) (length prefix)) 255 in
      bytes_ge max prefix_low && bytes_le min prefix_high
  end.

(** ** Records (storage/mod.rs) *)

Record HashRecord := {
  hash : bytes;
  preimage : string;
  algorithm : string;
  sources : list string
}.

Record Stats := {
  total_records : Z;
  algorithms : list string;
  stat_sources : list string;
  file_size_bytes : Z
}.

(** [#[derive(Default)]] on [Stats]. *)
Definition Stats_default : Stats :=
  {| total_records := 0; algorithms := []; stat_sources := []; file_size_bytes := 0 |}.

(** ** 64-bit words and SipHash-1-3

    The membership filter is the [bloomfilter] crate (1.x API: [new_for_fp_rate]
    returns the filter itself, [from_existing] takes the number of hash
    functions).  It hashes items with [siphasher]'s [SipHasher13]. *)

Definition mask64 : Z := Z.ones 64.
Definition add64 (a b : Z) : Z := Z.land (a + b) mask64.
Definition mul64 (a b : Z) : Z := Z.land (a * b) mask64.
Definition rotl64 (x : Z) (b : Z) : Z :=
  Z.land (Z.lor (Z.shiftl x b) (Z.shiftr x (64 - b))) mask64.

Record SipState := { v0 : Z; v1 : Z; v2 : Z; v3 : Z }.

Definition sip_round (s : SipState) : SipState :=
  let a0 := add64 (v0 s) (v1 s) in
  let a1 := Z.lxor (rotl64 (v1 s) 13) a0 in
  let a0 := rotl64 a0 32 in
  let a2 := add64 (v2 s) (v3 s) in
  let a3 := Z.lxor (rotl64 (v3 s) 16) a2 in
  let a0 := add64 a0 a3 in
  let a3 := Z.lxor (rotl64 a3 21) a0 in
  let a2 := add64 a2 a1 in
  let a1 := Z.lxor (rotl64 a1 17) a2 in
  let a2 := rotl64 a2 32 in
  {| v0 := a0; v1 := a1; v2 := a2; v3 := a3 |}.

(** Little-endian word of up to eight bytes. *)
Fixpoint le_word (bs : bytes) : Z :=
  match bs with
  | [] => 0
  | b :: rest => Z.lor b (Z.shiftl (le_word rest) 8)
  end.

(** Compression of the full 8-byte words, one round per word (SipHash-1-3). *)
Fixpoint sip_compress (fuel : nat) (s : SipState) (msg : bytes) : SipState * bytes :=
  match fuel with
  | O => (s, msg)
  | S fuel' =>
      if Nat.leb 8 (length msg) then
        let m := le_word (firstn 8 msg) in
        let s1 := sip_round {| v0 := v0 s; v1 := v1 s; v2 := v2 s; v3 := Z.lxor (v3 s) m |} in
        sip_compress fuel' {| v0 := Z.lxor (v0 s1) m; v1 := v1 s1; v2 := v2 s1; v3 := v3 s1 |}
          (skipn 8 msg)
      else (s, msg)
  end.

Definition siphash13 (k0 k1 : Z) (msg : bytes) : Z :=
  let s := {| v0 := Z.lxor k0 8317987319222330741;   (* 0x736f6d6570736575 *)
              v1 := Z.lxor k1 7237128888997146477;   (* 0x646f72616e646f6d *)
              v2 := Z.lxor k0 7816392313619706465;   (* 0x6c7967656e657261 *)
              v3 := Z.lxor k1 8387220255154660723 |} (* 0x7465646279746573 *) in
  let '(s, tail) := sip_compress (length msg) s msg in
  let b := Z.lor (Z.shiftl (Z.land (Z.of_nat (length msg)) 255) 56) (le_word tail) in
  let s := sip_round {| v0 := v0 s; v1 := v1 s; v2 := v2 s; v3 := Z.lxor (v3 s) b |} in
  let s := {| v0 := Z.lxor (v0 s) b; v1 := v1 s; v2 := Z.lxor (v2 s) 255; v3 := v3 s |} in
  let s := sip_round (sip_round (sip_round s)) in
  Z.lxor (Z.lxor (v0 s) (v1 s)) (Z.lxor (v2 s) (v3 s)).

(** [<Vec<u8> as Hash>::hash]: the length as a little-endian [usize], then the bytes. *)
Fixpoint le_bytes (n : nat) (x : Z) : bytes :=
  match n with
  | O => []
  | S n' => Z.land x 255 :: le_bytes n' (Z.shiftr x 8)
  end.

Definition hash_vec_u8 (k : Z * Z) (item : bytes) : Z :=
  siphash13 (fst k) (snd k) (le_bytes 8 (Z.of_nat (length item)) ++ item).

(** ** The membership filter: [bloomfilter::Bloom<Vec<u8>>]

    [bit_vec] holds the bytes of the crate's [BitVec]: bit [i] is bit
    [7 - i mod 8] of byte [i / 8] (bit-vec's [from_bytes]/[to_bytes] order). *)

Record Bloom := {
  bit_vec : bytes;
  bitmap_bits : Z;
  k_num : Z;
  sip_keys : (Z * Z) * (Z * Z)
}.

(** [n] zero bytes ([BitVec::from_elem(8 n, false)]). *)
Fixpoint zero_bytes (n : nat) (acc : bytes) : bytes :=
  match n with O => acc | S n' => zero_bytes n' (0 :: acc) end.

(** [<[u8]>::len] (tail-recursive). *)
Fixpoint len_acc (l : bytes) (n : Z) : Z :=
  match l with [] => n | _ :: t => len_acc t (n + 1) end.
Definition byte_len (l : bytes) : Z := len_acc l 0.

(** Update of the [n]-th byte (tail-recursive). *)
Fixpoint upd_nth_acc (l : bytes) (n : nat) (f : Z -> Z) (acc : bytes) : bytes :=
  match l, n with
  | [], _ => rev_append acc []
  | x :: t, O => rev_append acc (f x :: t)
  | x :: t, S n' => upd_nth_acc t n' f (x :: acc)
  end.

Definition upd_nth (l : bytes) (n : nat) (f : Z -> Z) : bytes := upd_nth_acc l n f [].

(** [BitVec::get]: [None] out of range. *)
Definition bitvec_get (bv : bytes) (i : Z) : option bool :=
  if i <? 0 then None
  else match nth_error bv (Z.to_nat (i / 8)) with
       | Some byte => Some (Z.testbit byte (7 - i mod 8))
       | None => None
       end.

Definition bitvec_set (bv : bytes) (i : Z) : bytes :=
  upd_nth bv (Z.to_nat (i / 8)) (fun x => Z.lor x (Z.shiftl 1 (7 - i mod 8))).

(** [Bloom::bloom_hash]: the first two hash functions are the two keyed
    SipHash-1-3 hashes of the item; the others are
    [(h0 + k_i * h1) mod 2^64 mod 0xffffffffffffffc5]. *)
Definition bloom_hash (b : Bloom) (hashes : Z * Z) (item : bytes) (k_i : Z) : Z * (Z * Z) :=
  if k_i =? 0 then
    let h := hash_vec_u8 (fst (sip_keys b)) item in (h, (h, snd hashes))
  else if k_i =? 1 then
    let h := hash_vec_u8 (snd (sip_keys b)) item in (h, (fst hashes, h))
  else
    (add64 (fst hashes) (mul64 k_i (snd hashes)) mod 18446744073709551557, hashes).

(** [Bloom::set]: [for k_i in 0..k_num { bit_vec.set(hash % bitmap_bits, true) }].
    ([bitmap_bits] is never 0 here: [Bloom::new] asserts a positive size.) *)
Fixpoint bloom_set_loop (fuel : nat) (b : Bloom) (bv : bytes) (hashes : Z * Z)
    (item : bytes) (k_i : Z) : bytes :=
  match fuel with
  | O => bv
  | S fuel' =>
      let '(h, hashes') := bloom_hash b hashes item k_i in
      bloom_set_loop fuel' b (bitvec_set bv (h mod bitmap_bits b)) hashes' item (k_i + 1)
  end.

Definition bloom_set (b : Bloom) (item : bytes) : Bloom :=
  {| bit_vec := bloom_set_loop (Z.to_nat (k_num b)) b (bit_vec b) (0, 0) item 0;
     bitmap_bits := bitmap_bits b; k_num := k_num b; sip_keys := sip_keys b |}.

(** [Bloom::check]: false at the first clear bit.  [hash % bitmap_bits] panics
    when [bitmap_bits = 0], and so does [get(..).unwrap()] out of range. *)
Fixpoint bloom_check_loop (fuel : nat) (b : Bloom) (hashes : Z * Z)
    (item : bytes) (k_i : Z) : Outcome bool :=
  match fuel with
  | O => Ok true
  | S fuel' =>
      let '(h, hashes') := bloom_hash b hashes item k_i in
      if bitmap_bits b =? 0 then Panic
      else match bitvec_get (bit_vec b) (h mod bitmap_bits b) with
           | None => Panic
           | Some false => Ok false
           | Some true => bloom_check_loop fuel' b hashes' item (k_i + 1)
           end
  end.

Definition bloom_check (b : Bloom) (item : bytes) : Outcome bool :=
  bloom_check_loop (Z.to_nat (k_num b)) b (0, 0) item 0.

Definition ceil_div (a b : Z) : Z := (a + b - 1) / b.

(** [Bloom::compute_bitmap_size(items_count, 0.01)]:
    [ceil(items_count * ln(0.01) / (-8 ln(2)^2))] in [f64]; the constant
    [ln(0.01) / (-8 ln(2)^2)] is [1.1981322971709298] as an [f64]. *)
Definition compute_bitmap_size (items_count : Z) : Z :=
  ceil_div (items_count * 11981322971709298) (10 ^ 16).

(** [Bloom::optimal_k_num]: [max(ceil(m / n * ln 2), 1)], [ln 2 = 0.6931471805599453]. *)
Definition optimal_k_num (bitmap_bits items_count : Z) : Z :=
  Z.max (ceil_div (bitmap_bits * 6931471805599453) (items_count * 10 ^ 16)) 1.

(** [Bloom::new(bitmap_size, items_count)]; the two SipHash key pairs are drawn
    at random by the crate and are an input here. *)
Definition Bloom_new (bitmap_size items_count : Z) (keys : (Z * Z) * (Z * Z)) : Bloom :=
  {| bit_vec := zero_bytes (Z.to_nat bitmap_size) [];
     bitmap_bits := bitmap_size * 8;
     k_num := optimal_k_num (bitmap_size * 8) items_count;
     sip_keys := keys |}.

Definition new_for_fp_rate (items_count : Z) (keys : (Z * Z) * (Z * Z)) : Bloom :=
  Bloom_new (compute_bitmap_size items_count) items_count keys.

(** [Bloom::from_existing(bitmap, bitmap_bits, k_num, sip_keys)]. *)
Definition from_existing (bitmap : bytes) (bits : Z) (k : Z) (keys : (Z * Z) * (Z * Z)) : Bloom :=
  {| bit_vec := bitmap; bitmap_bits := bits; k_num := k; sip_keys := keys |}.

(** [Bloom::bitmap] ([bit_vec.to_bytes()]). *)
Definition bitmap (b : Bloom) : bytes := bit_vec b.

(** ** Strings of the metadata values *)

Definition digit_char (d : Z) : ascii := ascii_of_nat (48 + Z.to_nat d).

(** [usize]/[u64] [to_string]: decimal, at most twenty digits. *)
Fixpoint dec_digits (fuel : nat) (n : Z) (acc : string) : string :=
  match fuel with
  | O => acc
  | S fuel' =>
      let acc' := String (digit_char (n mod 10)) acc in
      if n <? 10 then acc' else dec_digits fuel' (n / 10) acc'
  end.

Definition to_dec_string (n : Z) : string := dec_digits 20 n EmptyString.

Definition char_digit (c : ascii) : option Z :=
  let n := Z.of_nat (nat_of_ascii c) in
  if (48 <=? n) && (n <=? 57) then Some (n - 48) else None.

Fixpoint parse_digits (s : string) (acc : Z) (bound : Z) : option Z :=
  match s with
  | EmptyString => Some acc
  | String c rest =>
      match char_digit c with
      | None => None
      | Some d =>
          let acc' := acc * 10 + d in
          if acc' <? bound then parse_digits rest acc' bound else None
      end
  end.

(** [<uN as FromStr>::from_str] for an unsigned type with values below [bound]:
    non-empty, an optional leading [+], decimal digits, no overflow. *)
Definition parse_unsigned (bound : Z) (s : string) : option Z :=
  match s with
  | EmptyString => None
  | String c rest =>
      if Ascii.eqb c "+"%char then
        match rest with
        | EmptyString => None
        | _ => parse_digits rest 0 bound
        end
      else parse_digits s 0 bound
  end.

Definition parse_u64 : string -> option Z := parse_unsigned (2 ^ 64).
Definition parse_u32 : string -> option Z := parse_unsigned (2 ^ 32).
Definition parse_usize : string -> option Z := parse_unsigned (2 ^ 64).

(** [str::split(',')]. *)
Fixpoint split_on (sep : ascii) (s : string) : list string :=
  match s with
  | EmptyString => [EmptyString]
  | String c rest =>
      if Ascii.eqb c sep then EmptyString :: split_on sep rest
      else match split_on sep rest with
           | [] => [String c EmptyString]
           | w :: ws => String c w :: ws
           end
  end.

(** [[&str]::join(",")]. *)
Definition join (sep : string) (l : list string) : string := String.concat sep l.

(** *** Base64, [base64::engine::general_purpose::STANDARD]
    (standard alphabet, padded output, canonical padding and zero trailing bits
    required when decoding). *)

Definition b64_table : list ascii :=
  ["A";"B";"C";"D";"E";"F";"G";"H";"I";"J";"K";"L";"M";"N";"O";"P";
   "Q";"R";"S";"T";"U";"V";"W";"X";"Y";"Z";"a";"b";"c";"d";"e";"f";
   "g";"h";"i";"j";"k";"l";"m";"n";"o";"p";"q";"r";"s";"t";"u";"v";
   "w";"x";"y";"z";"0";"1";"2";"3";"4";"5";"6";"7";"8";"9";"+";"/"]%char.

Definition b64_char (n : Z) : ascii := nth (Z.to_nat n) b64_table "A"%char.

(** Encoding, with the output characters accumulated in reverse. *)
Fixpoint b64_encode_rev (bs : bytes) (acc : list ascii) : list ascii :=
  match bs with
  | a :: b :: c :: rest =>
      let n := Z.lor (Z.shiftl a 16) (Z.lor (Z.shiftl b 8) c) in
      b64_encode_rev rest
        (b64_char (Z.land n 63) :: b64_char (Z.land (Z.shiftr n 6) 63) ::
         b64_char (Z.land (Z.shiftr n 12) 63) :: b64_char (Z.shiftr n 18) :: acc)
  | [a; b] =>
      let n := Z.lor (Z.shiftl a 16) (Z.shiftl b 8) in
      "="%char :: b64_char (Z.land (Z.shiftr n 6) 63) :: b64_char (Z.land (Z.shiftr n 12) 63) ::
      b64_char (Z.shiftr n 18) :: acc
  | [a] =>
      let n := Z.shiftl a 16 in
      "="%char :: "="%char :: b64_char (Z.land (Z.shiftr n 12) 63) :: b64_char (Z.shiftr n 18) :: acc
  | [] => acc
  end.

(** The string whose characters are [rev_chars] reversed. *)
Fixpoint string_of_rev (rev_chars : list ascii) (acc : string) : string :=
  match rev_chars with
  | [] => acc
  | c :: t => string_of_rev t (String c acc)
  end.

Definition BASE64_encode (bs : bytes) : string := string_of_rev (b64_encode_rev bs []) EmptyString.

(** The code of a character. *)
Definition ascii_code (c : ascii) : Z :=
  match c with
  | Ascii b0 b1 b2 b3 b4 b5 b6 b7 =>
      Z.b2z b0 + 2 * (Z.b2z b1 + 2 * (Z.b2z b2 + 2 * (Z.b2z b3 + 2 * (Z.b2z b4 +
      2 * (Z.b2z b5 + 2 * (Z.b2z b6 + 2 * Z.b2z b7))))))
  end.

Definition b64_val (c : ascii) : option Z :=
  let n := ascii_code c in
  if (65 <=? n) && (n <=? 90) then Some (n - 65)
  else if (97 <=? n) && (n <=? 122) then Some (n - 71)
  else if (48 <=? n) && (n <=? 57) then Some (n + 4)
  else if n =? 43 then Some 62
  else if n =? 47 then Some 63
  else None.

Definition is_pad (c : ascii) : bool := Ascii.eqb c "="%char.

Definition quad (x1 x2 x3 x4 : Z) : list Z :=
  [Z.lor (Z.shiftl x1 2) (Z.shiftr x2 4);
   Z.lor (Z.shiftl (Z.land x2 15) 4) (Z.shiftr x3 2);
   Z.lor (Z.shiftl (Z.land x3 3) 6) x4].

(** Decoding of the characters [s], with the decoded bytes accumulated in reverse. *)
Fixpoint b64_decode_rev (s : list ascii) (acc : bytes) : option bytes :=
  match s with
  | [] => Some acc
  | c1 :: c2 :: c3 :: c4 :: rest =>
      match b64_val c1, b64_val c2 with
      | Some x1, Some x2 =>
          match rest with
          | [] =>
              if is_pad c3 && is_pad c4 then
                if Z.land x2 15 =? 0 then Some (Z.lor (Z.shiftl x1 2) (Z.shiftr x2 4) :: acc) else None
              else if is_pad c4 then
                match b64_val c3 with
                | Some x3 =>
                    if Z.land x3 3 =? 0
                    then Some (Z.lor (Z.shiftl (Z.land x2 15) 4) (Z.shiftr x3 2) ::
                               Z.lor (Z.shiftl x1 2) (Z.shiftr x2 4) :: acc) else None
                | None => None
                end
              else
                match b64_val c3, b64_val c4 with
                | Some x3, Some x4 => Some (rev_append (quad x1 x2 x3 x4) acc)
                | _, _ => None
                end
          | _ :: _ =>
              match b64_val c3, b64_val c4 with
              | Some x3, Some x4 => b64_decode_rev rest (rev_append (quad x1 x2 x3 x4) acc)
              | _, _ => None
              end
          end
      | _, _ => None
      end
  | _ => None
  end.

Fixpoint chars_rev (s : string) (acc : list ascii) : list ascii :=
  match s with
  | EmptyString => acc
  | String c rest => chars_rev rest (c :: acc)
  end.

Definition BASE64_decode (s : string) : option bytes :=
  match b64_decode_rev (rev_append (chars_rev s []) []) [] with
  | Some r => Some (rev_append r [])
  | None => None
  end.

(** *** [serde_json::to_string] of a list of strings *)

Definition dquote : ascii := ascii_of_nat 34.
Definition bslash : ascii := ascii_of_nat 92.

Definition hex_digit (n : Z) : ascii :=
  if n <? 10 then ascii_of_nat (48 + Z.to_nat n) else ascii_of_nat (87 + Z.to_nat n).

Definition esc2 (c : ascii) : string := String bslash (String c EmptyString).

Fixpoint json_escape (s : string) : string :=
  match s with
  | EmptyString => EmptyString
  | String c rest =>
      let n := Z.of_nat (nat_of_ascii c) in
      let esc :=
        if n =? 34 then esc2 dquote
        else if n =? 92 then esc2 bslash
        else if n =? 10 then esc2 "n"%char
        else if n =? 13 then esc2 "r"%char
        else if n =? 9 then esc2 "t"%char
        else if n =? 8 then esc2 "b"%char
        else if n =? 12 then esc2 "f"%char
        else if n <? 32 then
          String bslash (String "u"%char (String "0"%char (String "0"%char
            (String (hex_digit (n / 16)) (String (hex_digit (n mod 16)) EmptyString)))))
        else String c EmptyString in
      esc ++ json_escape rest
  end.

Definition json_quote (s : string) : string :=
  String dquote (json_escape s ++ String dquote EmptyString).

Definition json_string_array (l : list string) : string :=
  "[" ++ join "," (map json_quote l) ++ "]".

(** ** The Parquet container

    A file holds its row groups (rows in file order, and the [hash] column's
    statistics) and its file-level key/value metadata.  Reading batches from
    the selected row groups yields their rows in file order. *)

Record KeyValue := { key : string; value : option string }.

(** [parquet::file::statistics::Statistics] of the [hash] column. *)
Inductive Statistics :=
| ByteArray (min_opt max_opt : option bytes)
| OtherStatistics.

Record RowGroup := {
  rg_rows : list HashRecord;
  rg_hash_statistics : option Statistics
}.

Record ParquetFile := {
  key_value_metadata : option (list KeyValue);
  row_groups : list RowGroup
}.

(** The disk maps a path to its file; a file that is not a readable Parquet
    file (created and not yet closed, truncated, foreign) is [None]. *)
Definition Disk := string -> option (option ParquetFile).

Definition disk_put (d : Disk) (p : string) (f : option ParquetFile) : Disk :=
  fun q => if String.eqb q p then Some f else d q.

(** [Path::exists]. *)
Definition path_exists (d : Disk) (p : string) : bool :=
  match d p with Some _ => true | None => false end.

(** [File::open] followed by [ParquetRecordBatchReaderBuilder::try_new]. *)
Definition open_parquet (d : Disk) (p : string) : Outcome ParquetFile :=
  match d p with
  | None => Err "Failed to open database"
  | Some None => Err "invalid Parquet file"
  | Some (Some pf) => Ok pf
  end.

(** Rows of the selected row groups, in file order. *)
Definition selected_rows (pf : ParquetFile) (sel : list nat) : list HashRecord :=
  flat_map (fun i => match nth_error (row_groups pf) i with
                     | Some rg => rg_rows rg
                     | None => []
                     end) sel.

Definition all_rows (pf : ParquetFile) : list HashRecord := flat_map rg_rows (row_groups pf).

(** *** [ArrowWriter]

    The writer buffers the rows and closes into row groups of
    [max_row_group_size] rows (parquet's default, [1024 * 1024]; the store sets
    no other), each with the minimum and maximum of its [hash] column under the
    unsigned lexicographic order; on [close] it emits the key/value metadata,
    preceded by the [ARROW:schema] entry the writer adds itself. *)

Fixpoint chunks_aux {A : Type} (fuel n : nat) (l : list A) : list (list A) :=
  match fuel with
  | O => []
  | S fuel' =>
      match l with
      | [] => []
      | _ :: _ => firstn n l :: chunks_aux fuel' n (skipn n l)
      end
  end.

(** [<[T]>::chunks(n)] ([n > 0]). *)
Definition chunks {A : Type} (n : nat) (l : list A) : list (list A) :=
  chunks_aux (length l) n l.

Definition bytes_min (a b : bytes) : bytes := if bytes_le a b then a else b.
Definition bytes_max (a b : bytes) : bytes := if bytes_ge a b then a else b.

Definition hash_statistics (rows : list HashRecord) : option Statistics :=
  match map hash rows with
  | [] => Some (ByteArray None None)
  | h :: hs => Some (ByteArray (Some (fold_left bytes_min hs h)) (Some (fold_left bytes_max hs h)))
  end.

Definition max_row_group_size : nat := 1024 * 1024.

Record ArrowWriter := {
  aw_rows : list HashRecord;
  aw_kv : list KeyValue
}.

(** The [ARROW:schema] entry (the IPC-encoded schema); its text plays no role here. *)
Definition arrow_schema_kv : KeyValue :=
  {| key := "ARROW:schema"; value := Some "/////arrow-ipc-schema"%string |}.

Definition ArrowWriter_try_new : ArrowWriter := {| aw_rows := []; aw_kv := [] |}.

Definition aw_write (w : ArrowWriter) (rows : list HashRecord) : ArrowWriter :=
  {| aw_rows := aw_rows w ++ rows; aw_kv := aw_kv w |}.

Definition append_key_value_metadata (w : ArrowWriter) (kv : KeyValue) : ArrowWriter :=
  {| aw_rows := aw_rows w; aw_kv := aw_kv w ++ [kv] |}.

Definition aw_close (d : Disk) (p : string) (w : ArrowWriter) : Disk :=
  disk_put d p (Some {|
    key_value_metadata := Some (arrow_schema_kv :: aw_kv w);
    row_groups := map (fun rows => {| rg_rows := rows; rg_hash_statistics := hash_statistics rows |})
                      (chunks max_row_group_size (aw_rows w)) |}).

(** ** [ParquetStorage] (storage/parquet.rs) *)

Definition META_TOTAL_RECORDS : string := "shaha:total_records".
Definition META_ALGORITHMS : string := "shaha:algorithms".
Definition META_SOURCES : string := "shaha:sources".
Definition META_SOURCE_HASHES : string := "shaha:source_hashes".
Definition META_BLOOM_BITMAP : string := "shaha:bloom_bitmap".
Definition META_BLOOM_KEYS : string := "shaha:bloom_keys".
Definition META_BLOOM_ITEMS : string := "shaha:bloom_items".

Definition DEFAULT_BLOOM_CAPACITY : Z := 1000000.

(** A [HashSet<String>] as a duplicate-free list (Rust iterates it in an
    unspecified order; insertion order here). *)
Definition set_insert (s : string) (l : list string) : list string :=
  if existsb (String.eqb s) l then l else l ++ [s].

Record WriteStats := {
  ws_total_records : Z;
  ws_algorithms : list string;
  ws_sources : list string;
  ws_source_hashes : list string;
  ws_bloom : Bloom
}.

(** [WriteStats::with_capacity]; [keys] are the filter's random SipHash keys. *)
Definition WriteStats_with_capacity (expected_records : Z) (keys : (Z * Z) * (Z * Z)) : WriteStats :=
  {| ws_total_records := 0; ws_algorithms := []; ws_sources := []; ws_source_hashes := [];
     ws_bloom := new_for_fp_rate (Z.max expected_records DEFAULT_BLOOM_CAPACITY) keys |}.

Record ParquetStorage := {
  ps_path : string;
  writer : option ArrowWriter;
  write_stats : WriteStats
}.

Definition with_expected_capacity (path : string) (expected_records : Z)
    (keys : (Z * Z) * (Z * Z)) : ParquetStorage :=
  {| ps_path := path; writer := None; write_stats := WriteStats_with_capacity expected_records keys |}.

Definition ParquetStorage_new (path : string) (keys : (Z * Z) * (Z * Z)) : ParquetStorage :=
  with_expected_capacity path DEFAULT_BLOOM_CAPACITY keys.

Definition set_write_stats (s : ParquetStorage) (ws : WriteStats) : ParquetStorage :=
  {| ps_path := ps_path s; writer := writer s; write_stats := ws |}.
Definition set_writer (s : ParquetStorage) (w : option ArrowWriter) : ParquetStorage :=
  {| ps_path := ps_path s; writer := w; write_stats := write_stats s |}.

(** [collect_stats]: count, filter insertions, algorithm and source sets. *)
Definition collect_one (ws : WriteStats) (r : HashRecord) : WriteStats :=
  {| ws_total_records := ws_total_records ws;
     ws_bloom := bloom_set (ws_bloom ws) (hash r);
     ws_algorithms := set_insert (algorithm r) (ws_algorithms ws);
     ws_sources := fold_left (fun acc s => set_insert s acc) (sources r) (ws_sources ws);
     ws_source_hashes := ws_source_hashes ws |}.

Definition collect_stats (s : ParquetStorage) (records : list HashRecord) : ParquetStorage :=
  let ws := write_stats s in
  let ws := {| ws_total_records := ws_total_records ws + Z.of_nat (length records);
               ws_algorithms := ws_algorithms ws; ws_sources := ws_sources ws;
               ws_source_hashes := ws_source_hashes ws; ws_bloom := ws_bloom ws |} in
  set_write_stats s (fold_left collect_one records ws).

Definition add_source_hash (s : ParquetStorage) (h : string) : ParquetStorage :=
  let ws := write_stats s in
  set_write_stats s
    {| ws_total_records := ws_total_records ws; ws_algorithms := ws_algorithms ws;
       ws_sources := ws_sources ws; ws_source_hashes := set_insert h (ws_source_hashes ws);
       ws_bloom := ws_bloom ws |}.

(** [ensure_writer]: [File::create] (an empty, not yet readable file) on first use. *)
Definition ensure_writer (d : Disk) (s : ParquetStorage) : Disk * ArrowWriter :=
  match writer s with
  | Some w => (d, w)
  | None => (disk_put d (ps_path s) None, ArrowWriter_try_new)
  end.

(** [Storage::write_batch] (parquet.rs 398-424). *)
Definition write_batch (d : Disk) (s : ParquetStorage) (records : list HashRecord)
    : Outcome (Disk * ParquetStorage) :=
  match records with
  | [] => Ok (d, s)
  | _ :: _ =>
      let s := collect_stats s records in
      let '(d, w) := ensure_writer d s in
      Ok (d, set_writer s (Some (aw_write w records)))
  end.

Definition kv (k v : string) : KeyValue := {| key := k; value := Some v |}.

(** The metadata entries [finish] appends (parquet.rs 428-469). *)
Definition finish_metadata (ws : WriteStats) : list KeyValue :=
  let keys := sip_keys (ws_bloom ws) in
  [kv META_TOTAL_RECORDS (to_dec_string (ws_total_records ws));
   kv META_ALGORITHMS (join "," (ws_algorithms ws));
   kv META_SOURCES (join "," (ws_sources ws));
   kv META_BLOOM_BITMAP (BASE64_encode (bitmap (ws_bloom ws)));
   kv META_BLOOM_KEYS
      (join "," [to_dec_string (fst (fst keys)); to_dec_string (snd (fst keys));
                 to_dec_string (fst (snd keys)); to_dec_string (snd (snd keys))]);
   kv META_BLOOM_ITEMS (to_dec_string (ws_total_records ws))]
  ++ (match ws_source_hashes ws with
      | [] => []
      | hs => [kv META_SOURCE_HASHES (json_string_array hs)]
      end).

(** [Storage::finish] (parquet.rs 426-474). *)
Definition finish (d : Disk) (s : ParquetStorage) : Outcome (Disk * ParquetStorage) :=
  match writer s with
  | None => Ok (d, s)
  | Some w =>
      let w := fold_left append_key_value_metadata (finish_metadata (write_stats s)) w in
      Ok (aw_close d (ps_path s) w, set_writer s None)
  end.

(** *** [load_bloom_filter] (parquet.rs 204-256) *)

Fixpoint filter_map {A B : Type} (f : A -> option B) (l : list A) : list B :=
  match l with
  | [] => []
  | x :: t => match f x with Some y => y :: filter_map f t | None => filter_map f t end
  end.

Record BloomMeta := {
  bm_bitmap : option bytes;
  bm_keys : option ((Z * Z) * (Z * Z));
  bm_items_count : option Z
}.

Definition bloom_meta_empty : BloomMeta :=
  {| bm_bitmap := None; bm_keys := None; bm_items_count := None |}.

(** The [for kv in metadata] loop; [BASE64.decode(..)?] returns early. *)
Fixpoint bloom_meta_loop (md : list KeyValue) (acc : BloomMeta) : Outcome BloomMeta :=
  match md with
  | [] => Ok acc
  | kv :: rest =>
      if String.eqb (key kv) META_BLOOM_BITMAP then
        match value kv with
        | Some encoded =>
            match BASE64_decode encoded with
            | Some b => bloom_meta_loop rest {| bm_bitmap := Some b; bm_keys := bm_keys acc;
                                               bm_items_count := bm_items_count acc |}
            | None => Err "Invalid base64"
            end
        | None => bloom_meta_loop rest acc
        end
      else if String.eqb (key kv) META_BLOOM_KEYS then
        match value kv with
        | Some keys_str =>
            match filter_map parse_u64 (split_on ","%char keys_str) with
            | [p0; p1; p2; p3] =>
                bloom_meta_loop rest {| bm_bitmap := bm_bitmap acc; bm_keys := Some ((p0, p1), (p2, p3));
                                        bm_items_count := bm_items_count acc |}
            | _ => bloom_meta_loop rest acc
            end
        | None => bloom_meta_loop rest acc
        end
      else if String.eqb (key kv) META_BLOOM_ITEMS then
        match value kv with
        | Some count_str =>
            bloom_meta_loop rest {| bm_bitmap := bm_bitmap acc; bm_keys := bm_keys acc;
                                    bm_items_count := parse_u32 count_str |}
        | None => bloom_meta_loop rest acc
        end
      else bloom_meta_loop rest acc
  end.

Definition load_bloom_filter (d : Disk) (s : ParquetStorage) : Outcome (option Bloom) :=
  pf <- open_parquet d (ps_path s) ;;
  match key_value_metadata pf with
  | None => Ok None
  | Some md =>
      m <- bloom_meta_loop md bloom_meta_empty ;;
      match bm_bitmap m, bm_keys m, bm_items_count m with
      | Some b, Some sip_keys, Some count =>
          Ok (Some (from_existing b (byte_len b * 8) count sip_keys))
      | _, _, _ => Ok None
      end
  end.

(** *** [Storage::query] (parquet.rs 476-570) *)

(** The [dominated_by_statistics] test of one row group, [unwrap_or(true)]. *)
Definition row_group_matches (hash_prefix : bytes) (rg : RowGroup) : bool :=
  match rg_hash_statistics rg with
  | Some (ByteArray (Some min) (Some max)) => prefix_might_be_in_range hash_prefix min max
  | _ => true
  end.

Fixpoint matching_from (hash_prefix : bytes) (i : nat) (rgs : list RowGroup) : list nat :=
  match rgs with
  | [] => []
  | rg :: rest =>
      if row_group_matches hash_prefix rg then i :: matching_from hash_prefix (S i) rest
      else matching_from hash_prefix (S i) rest
  end.

Definition matching_row_groups (hash_prefix : bytes) (pf : ParquetFile) : list nat :=
  matching_from hash_prefix 0 (row_groups pf).

Definition algo_rejects (algo : option string) (a : string) : bool :=
  match algo with Some filter => negb (String.eqb a filter) | None => false end.

Definition limit_reached (limit : option nat) (n : nat) : bool :=
  match limit with Some l => Nat.leb l n | None => false end.

(** The row loop: filter by prefix and algorithm, push, then test the limit. *)
Fixpoint scan_rows (rows : list HashRecord) (hash_prefix : bytes) (algo : option string)
    (limit : option nat) (results : list HashRecord) : list HashRecord :=
  match rows with
  | [] => results
  | r :: rest =>
      if negb (starts_with (hash r) hash_prefix) then scan_rows rest hash_prefix algo limit results
      else if algo_rejects algo (algorithm r) then scan_rows rest hash_prefix algo limit results
      else
        let results := results ++ [r] in
        if limit_reached limit (length results) then results
        else scan_rows rest hash_prefix algo limit results
  end.

(** The membership-filter gate: [Ok false] prunes the query. *)
Definition bloom_gate (d : Disk) (s : ParquetStorage) (hash_prefix : bytes) : Outcome bool :=
  if is_full_hash_length (length hash_prefix) then
    match load_bloom_filter d s with
    | Ok (Some bloom) => bloom_check bloom hash_prefix
    | _ => Ok true
    end
  else Ok true.

Definition query (d : Disk) (s : ParquetStorage) (hash_prefix : bytes) (algo : option string)
    (limit : option nat) : Outcome (list HashRecord) :=
  if negb (path_exists d (ps_path s)) then Ok [] else
  pass <- bloom_gate d s hash_prefix ;;
  if negb pass then Ok [] else
  pf <- open_parquet d (ps_path s) ;;
  match matching_row_groups hash_prefix pf with
  | [] => Ok []
  | sel => Ok (scan_rows (selected_rows pf sel) hash_prefix algo limit [])
  end.

(** *** [Storage::stats] (parquet.rs 572-582) with [read_stats_from_metadata]
    and [scan_stats].  [file_len] is the length the OS reports for the file
    ([file.metadata()?.len()]). *)

Definition split_nonempty (v : string) : list string :=
  filter (fun t => negb (String.eqb t EmptyString)) (split_on ","%char v).

Fixpoint stats_meta_loop (md : list KeyValue) (tr : option Z) (al : option (list string))
    (so : option (list string)) : option Z * option (list string) * option (list string) :=
  match md with
  | [] => (tr, al, so)
  | kv :: rest =>
      if String.eqb (key kv) META_TOTAL_RECORDS then
        stats_meta_loop rest (match value kv with Some v => parse_usize v | None => None end) al so
      else if String.eqb (key kv) META_ALGORITHMS then
        stats_meta_loop rest tr (option_map split_nonempty (value kv)) so
      else if String.eqb (key kv) META_SOURCES then
        stats_meta_loop rest tr al (option_map split_nonempty (value kv))
      else stats_meta_loop rest tr al so
  end.

Definition read_stats_from_metadata (d : Disk) (s : ParquetStorage) (file_len : Z)
    : Outcome (option Stats) :=
  pf <- open_parquet d (ps_path s) ;;
  match key_value_metadata pf with
  | None => Ok None
  | Some md =>
      match stats_meta_loop md None None None with
      | (Some tr, Some al, Some so) =>
          Ok (Some {| total_records := tr; algorithms := al; stat_sources := so;
                      file_size_bytes := file_len |})
      | _ => Ok None
      end
  end.

Definition scan_stats (d : Disk) (s : ParquetStorage) (file_len : Z) : Outcome Stats :=
  pf <- open_parquet d (ps_path s) ;;
  let rows := all_rows pf in
  Ok {| total_records := Z.of_nat (length rows);
        algorithms := fold_left (fun acc r => set_insert (algorithm r) acc) rows [];
        stat_sources := fold_left (fun acc r => fold_left (fun a x => set_insert x a) (sources r) acc) rows [];
        file_size_bytes := file_len |}.

Definition stats (d : Disk) (s : ParquetStorage) (file_len : Z) : Outcome Stats :=
  if negb (path_exists d (ps_path s)) then Ok Stats_default else
  o <- read_stats_from_metadata d s file_len ;;
  match o with
  | Some st => Ok st
  | None => scan_stats d s file_len
  end.

(** *** [for_each_record] (parquet.rs 278-327): the callback is a [FnMut]
    closure; its captured state is threaded explicitly. *)

Fixpoint for_each_rows {S : Type} (rows : list HashRecord) (callback : S -> HashRecord -> Outcome S)
    (st : S) : Outcome S :=
  match rows with
  | [] => Ok st
  | r :: rest => st' <- callback st r ;; for_each_rows rest callback st'
  end.

Definition for_each_record {S : Type} (d : Disk) (s : ParquetStorage)
    (callback : S -> HashRecord -> Outcome S) (st : S) : Outcome S :=
  if negb (path_exists d (ps_path s)) then Ok st else
  pf <- open_parquet d (ps_path s) ;;
  for_each_rows (all_rows pf) callback st.

(** ** [R2Storage] (storage/r2.rs): the write path.

    The remote object store is observed through the list of objects written to
    it ([COPY ... TO 's3://...']), in order. *)

Record R2Storage := {
  r2_url : string;                       (* [config.s3_url()] *)
  pending_records : list HashRecord;
  pending_table : list HashRecord;       (* the DuckDB table [pending_records] *)
  remote_writes : list (string * list HashRecord)
}.

Definition R2Storage_new (url : string) (remote : list (string * list HashRecord)) : R2Storage :=
  {| r2_url := url; pending_records := []; pending_table := []; remote_writes := remote |}.


(** [finish]: nothing when no record is pending; otherwise insert the pending
    records into the table, [COPY] the table to the remote object and empty it. *)
Definition r2_finish (s : R2Storage) : Outcome R2Storage :=
  match pending_records s with
  | [] => Ok s
  | _ :: _ =>
      let table := pending_table s ++ pending_records s in
      Ok {| r2_url := r2_url s; pending_records := []; pending_table := [];
            remote_writes := remote_writes s ++ [(r2_url s, table)] |}
  end.

(** ** The build pipeline (cli/build.rs) *)

Definition BATCH_SIZE : nat := 100 * 1000.

(** A hasher capability: its [name()] and its pure [hash]. *)
Record Hasher := { hasher_name : string; hasher_hash : bytes -> bytes }.

Fixpoint bytes_eqb (a b : bytes) : bool :=
  match a, b with
  | [], [] => true
  | x :: a', y :: b' => Z.eqb x y && bytes_eqb a' b'
  | _, _ => false
  end.

Definition RecordKey : Type := bytes * string.

Definition key_eqb (k1 k2 : RecordKey) : bool :=
  bytes_eqb (fst k1) (fst k2) && String.eqb (snd k1) (snd k2).

Definition record_key (r : HashRecord) : RecordKey := (hash r, algorithm r).

(** [HashMap<RecordKey, HashRecord>] as an association list with unique keys;
    its [into_values] order is unspecified in Rust (list order here). *)
Definition RecordMap : Type := list (RecordKey * HashRecord).

(** [entry(key).or_insert(record)]: the first record for a key wins. *)
Definition or_insert (k : RecordKey) (r : HashRecord) (m : RecordMap) : RecordMap :=
  if existsb (fun e => key_eqb (fst e) k) m then m else m ++ [(k, r)].

(** [HashMap::remove]. *)
Fixpoint map_remove (k : RecordKey) (m : RecordMap) : option HashRecord * RecordMap :=
  match m with
  | [] => (None, [])
  | e :: rest =>
      if key_eqb (fst e) k then (Some (snd e), rest)
      else let '(o, rest') := map_remove k rest in (o, e :: rest')
  end.

Definition word_bytes (w : string) : bytes :=
  map (fun c => Z.of_nat (nat_of_ascii c)) (list_ascii_of_string w).

(** [process_new_words] (build.rs 264-289); rayon's [collect] keeps the order. *)
Definition process_new_words (words : list string) (hashers : list Hasher) (source_name : string)
    (records_map : RecordMap) : RecordMap :=
  let new_records :=
    flat_map (fun word =>
      map (fun h => {| hash := hasher_hash h (word_bytes word); preimage := word;
                       algorithm := hasher_name h; sources := [source_name] |}) hashers) words in
  fold_left (fun m r => or_insert (record_key r) r m) new_records records_map.

(** The streaming dedup loop (build.rs 142-165). *)
Record ReadState := {
  total_words : nat;
  unique_words : nat;
  batch : list string;
  seen : list string;
  new_records_map : RecordMap
}.

Definition read_step (hashers : list Hasher) (source_name : string) (st : ReadState) (word : string)
    : ReadState :=
  let total := S (total_words st) in
  if existsb (String.eqb word) (seen st) then
    {| total_words := total; unique_words := unique_words st; batch := batch st;
       seen := seen st; new_records_map := new_records_map st |}
  else
    let b := batch st ++ [word] in
    if Nat.leb BATCH_SIZE (length b) then
      {| total_words := total; unique_words := unique_words st + length b; batch := [];
         seen := seen st ++ [word];
         new_records_map := process_new_words b hashers source_name (new_records_map st) |}
    else
      {| total_words := total; unique_words := unique_words st; batch := b;
         seen := seen st ++ [word]; new_records_map := new_records_map st |}.

Definition read_words (words : list string) (hashers : list Hasher) (source_name : string) : ReadState :=
  let st := fold_left (read_step hashers source_name) words
              {| total_words := 0; unique_words := 0; batch := []; seen := []; new_records_map := [] |} in
  match batch st with
  | [] => st
  | b => {| total_words := total_words st; unique_words := unique_words st + length b; batch := b;
            seen := seen st; new_records_map := process_new_words b hashers source_name (new_records_map st) |}
  end.

(** The append-merge closure given to [for_each_record] (build.rs 177-191). *)
Record MergeState := {
  existing_count : nat;
  merged_count : nat;
  final_records : list HashRecord;
  records_map : RecordMap
}.

Definition push_new_sources (acc : list string * nat) (source : string) : list string * nat :=
  let '(srcs, n) := acc in
  if existsb (String.eqb source) srcs then (srcs, n) else (srcs ++ [source], S n).

Definition append_merge_step (st : MergeState) (record : HashRecord) : Outcome MergeState :=
  let key := record_key record in
  let '(found, m) := map_remove key (records_map st) in
  let '(record, merged) :=
    match found with
    | Some new_record =>
        let '(srcs, n) := fold_left push_new_sources (sources new_record) (sources record, merged_count st) in
        ({| hash := hash record; preimage := preimage record; algorithm := algorithm record;
            sources := srcs |}, n)
    | None => (record, merged_count st)
    end in
  Ok {| existing_count := S (existing_count st); merged_count := merged;
        final_records := final_records st ++ [record]; records_map := m |}.

(** [slice::sort_by] is a stable sort, so its result is the stable-sorted
    permutation; insertion sort computes that permutation. *)
Fixpoint insert_by {A : Type} (cmp : A -> A -> comparison) (x : A) (l : list A) : list A :=
  match l with
  | [] => [x]
  | y :: t => match cmp x y with Lt => x :: y :: t | _ => y :: insert_by cmp x t end
  end.

Definition sort_by {A : Type} (cmp : A -> A -> comparison) (l : list A) : list A :=
  fold_left (fun acc x => insert_by cmp x acc) l [].

Definition hash_cmp (a b : HashRecord) : comparison := bytes_cmp (hash a) (hash b).

(** The records to be written: the merged prior artifact (when appending to an
    existing local file), then the remaining new records (build.rs 169-197). *)
Definition collect_final_records (d : Disk) (output : string) (keys : (Z * Z) * (Z * Z))
    (append : bool) (new_map : RecordMap) : Outcome (list HashRecord) :=
  ms <- (if append && path_exists d output then
           for_each_record d (ParquetStorage_new output keys) append_merge_step
             {| existing_count := 0; merged_count := 0; final_records := []; records_map := new_map |}
         else Ok {| existing_count := 0; merged_count := 0; final_records := []; records_map := new_map |}) ;;
  Ok (final_records ms ++ map snd (records_map ms)).

Fixpoint write_chunks (d : Disk) (s : ParquetStorage) (cs : list (list HashRecord))
    : Outcome (Disk * ParquetStorage) :=
  match cs with
  | [] => Ok (d, s)
  | c :: rest => ds <- write_batch d s c ;; write_chunks (fst ds) (snd ds) rest
  end.

(** Sort and write to the local store (build.rs 201, 216-224). *)
Definition sort_and_write_local (d : Disk) (output : string) (keys : (Z * Z) * (Z * Z))
    (source_hash : option string) (final : list HashRecord) : Outcome Disk :=
  let sorted := sort_by hash_cmp final in
  let s := with_expected_capacity output (Z.of_nat (length sorted)) keys in
  let s := match source_hash with Some h => add_source_hash s h | None => s end in
  ds <- write_chunks d s (chunks BATCH_SIZE sorted) ;;
  ds' <- finish (fst ds) (snd ds) ;;
  Ok (fst ds').

(** [run] for a local output, after the early-exit check (build.rs 122-225). *)
Definition run_local (d : Disk) (words : list string) (hashers : list Hasher) (source_name : string)
    (source_hash : option string) (append : bool) (output : string) (keys : (Z * Z) * (Z * Z))
    : Outcome Disk :=
  match hashers with
  | [] => Err "No valid algorithms specified"
  | _ :: _ =>
      let rs := read_words words hashers source_name in
      final <- collect_final_records d output keys append (new_records_map rs) ;;
      sort_and_write_local d output keys source_hash final
  end.

(** ** Statement helpers *)

(** The source tags of [incoming] a merge appends to [prior]: an
    occurrence is kept when the tag is neither in [prior] nor earlier in
    [incoming]. *)
Fixpoint fresh_tags (before incoming : list string) : list string :=
  match incoming with
  | [] => []
  | x :: t =>
      if existsb (String.eqb x) before then fresh_tags (before ++ [x]) t
      else x :: fresh_tags (before ++ [x]) t
  end.

Definition appended_tags (prior incoming : list string) : list string :=
  fresh_tags prior incoming.

(** The same file with the three membership-filter entries removed. *)
Definition is_bloom_key (k : string) : bool :=
  String.eqb k META_BLOOM_BITMAP || String.eqb k META_BLOOM_KEYS || String.eqb k META_BLOOM_ITEMS.

Definition strip_filter (pf : ParquetFile) : ParquetFile :=
  {| key_value_metadata :=
       option_map (filter (fun kv => negb (is_bloom_key (key kv)))) (key_value_metadata pf);
     row_groups := row_groups pf |}.

(** A [for_each_record] callback that collects the records. *)
Definition collect_record (acc : list HashRecord) (r : HashRecord) : Outcome (list HashRecord) :=
  Ok (acc ++ [r]).

(** ** Concrete inputs *)

Definition empty_disk : Disk := fun _ => None.

(** SipHash key pairs of a filter ([Bloom::new] draws them at random). *)
Definition keys0 : (Z * Z) * (Z * Z) := ((1, 2), (3, 4)).

Definition db_path : string := "hashes.parquet".

Definition rec_of (h : bytes) (w a : string) : HashRecord :=
  {| hash := h; preimage := w; algorithm := a; sources := ["test"%string] |}.

(** A 32-byte hash [00 ff ff ... ff] and a 16-byte hash [01 00 ... 00]:
    byte-sorted, they share a row group. *)
Definition rec_long : HashRecord := rec_of (0 :: repeat 255 31) "w1" "sha256".
Definition rec_short : HashRecord := rec_of (1 :: repeat 0 15) "w2" "md5".

(** The artifact written by [write_batch([rec_long, rec_short])] and [finish()]. *)
Definition mixed_disk : Disk :=
  match write_batch empty_disk (ParquetStorage_new db_path keys0) [rec_long; rec_short] with
  | Ok (d, s) => match finish d s with Ok (d', _) => d' | _ => empty_disk end
  | _ => empty_disk
  end.

(** SHA-512 of "hello" (64 bytes), and the artifact holding that record only. *)
Definition sha512_hello : bytes :=
  [155;113;210;36;189;98;243;120;93;150;212;106;211;234;61;115;49;155;251;194;137;12;170;218;226;223;247;37;25;103;60;167;35;35;195;217;155;165;193;29;124;122;204;110;20;184;197;218;12;70;99;71;92;46;92;58;222;244;111;115;188;222;192;67].

Definition rec_sha512 : HashRecord := rec_of sha512_hello "hello" "sha512".

Definition sha512_disk : Disk :=
  match write_batch empty_disk (ParquetStorage_new db_path keys0) [rec_sha512] with
  | Ok (d, s) => match finish d s with Ok (d', _) => d' | _ => empty_disk end
  | _ => empty_disk
  end.

(** A file written without the filter metadata, holding [rec_short]. *)
Definition short_disk : Disk :=
  disk_put empty_disk db_path
    (Some {| key_value_metadata := None;
             row_groups := [{| rg_rows := [rec_short]; rg_hash_statistics := hash_statistics [rec_short] |}] |}).

(** SHA-256 of "word0" ... "word7". *)
Definition sha256_words : list bytes :=
  [[29;64;33;115;26;214;190;221;100;166;235;182;159;31;54;223;135;206;91;104;152;14;184;203;236;215;12;2;44;12;233;136];
   [139;16;69;0;25;218;175;124;40;18;225;76;246;237;235;34;99;226;180;95;58;46;244;52;42;138;60;222;143;247;223;95];
   [175;179;156;173;205;120;150;105;238;51;91;88;7;36;223;154;219;238;114;0;192;52;0;71;213;171;110;156;105;72;122;43];
   [255;202;127;136;147;194;205;77;99;153;108;1;53;200;225;243;95;223;201;129;72;106;142;76;36;254;143;181;216;117;133;16];
   [218;70;109;78;176;63;205;91;253;82;117;40;47;159;89;94;202;110;136;180;95;150;163;255;14;16;166;173;126;132;116;59];
   [200;227;243;152;211;50;147;135;26;91;171;209;25;103;182;129;111;7;66;101;58;219;177;163;161;90;13;120;144;216;101;234];
   [233;194;187;217;246;224;156;230;34;225;189;43;68;3;219;203;1;38;109;152;38;228;83;42;169;228;21;96;83;11;17;57];
   [26;172;43;230;225;4;157;14;45;209;67;252;192;246;61;59;88;29;154;36;134;78;106;242;149;41;25;164;245;137;206;133]].

Definition word_records : list HashRecord :=
  map (fun h => rec_of h "word" "sha256") sha256_words.

(** The artifact written by [write_batch] of the eight records and [finish()]. *)
Definition words_store : ParquetStorage := ParquetStorage_new db_path keys0.

Definition words_written : Disk * ParquetStorage :=
  match write_batch empty_disk words_store word_records with
  | Ok ds => ds
  | _ => (empty_disk, words_store)
  end.

Definition words_disk : Disk :=
  match finish (fst words_written) (snd words_written) with
  | Ok (d, _) => d
  | _ => empty_disk
  end.

(** The order of an artifact's rows: non-decreasing hashes. *)
Definition hash_le (a b : HashRecord) : Prop := bytes_le (hash a) (hash b) = true.

(** A build over four words with two hashers that give equal hashes. *)
Definition hasher_plain (name : string) : Hasher := {| hasher_name := name; hasher_hash := fun b => b |}.
Definition build_words : list string := ["b"; "a"; "b"; "c"]%string.
Definition build_hashers : list Hasher := [hasher_plain "id1"; hasher_plain "id2"].
Definition build_final : list HashRecord :=
  match collect_final_records empty_disk db_path keys0 false
          (new_records_map (read_words build_words build_hashers "list")) with
  | Ok f => f
  | _ => []
  end.

(** The append example: "hello" read from [wordlist1] into the prior
    artifact, found again in [wordlist2]. *)
Definition sha256_hello : bytes :=
  [44;242;77;186;95;176;163;14;38;232;59;42;197;185;226;158;27;22;30;92;31;167;66;94;115;4;51;98;147;139;152;36].

Definition rec_hello_prior : HashRecord :=
  {| hash := sha256_hello; preimage := "hello"; algorithm := "sha256"; sources := ["wordlist1"%string] |}.

Definition rec_hello_new (word : string) : HashRecord :=
  {| hash := sha256_hello; preimage := word; algorithm := "sha256"; sources := ["wordlist2"%string] |}.

Definition merge_start (word : string) : MergeState :=
  {| existing_count := 0; merged_count := 0; final_records := [];
     records_map := [(record_key rec_hello_prior, rec_hello_new word)] |}.

(** A prior artifact holding [rec_hello_prior] only. *)
Definition prior_disk : Disk :=
  disk_put empty_disk db_path
    (Some {| key_value_metadata := None;
             row_groups := [{| rg_rows := [rec_hello_prior];
                               rg_hash_statistics := hash_statistics [rec_hello_prior] |}] |}).

(** The filter the store built while writing [word_records]. *)
Definition words_bloom : Bloom := ws_bloom (write_stats (snd words_written)).

(** The bit indices [Bloom::set] and [Bloom::check] visit for an item. *)
Fixpoint bloom_positions (fuel : nat) (b : Bloom) (hashes : Z * Z) (item : bytes) (k_i : Z) : list Z :=
  match fuel with
  | O => []
  | S fuel' =>
      let '(h, hashes') := bloom_hash b hashes item k_i in
      h mod bitmap_bits b :: bloom_positions fuel' b hashes' item (k_i + 1)
  end.

Definition positions (b : Bloom) (item : bytes) : list Z :=
  bloom_positions (Z.to_nat (k_num b)) b (0, 0) item 0.

(** A file whose filter entries are malformed but load: the keys value has a
    fifth, unparsable item ([filter_map] drops it), the bitmap is all zero. *)
Definition malformed_filter_md : list KeyValue :=
  [kv META_BLOOM_BITMAP "AAAA"; kv META_BLOOM_KEYS "x,0,0,0,0"; kv META_BLOOM_ITEMS "1"].

Definition rec_hello : HashRecord := rec_of sha256_hello "hello" "sha256".

Definition malformed_file (md : list KeyValue) : ParquetFile :=
  {| key_value_metadata := Some md;
     row_groups := [{| rg_rows := [rec_hello]; rg_hash_statistics := hash_statistics [rec_hello] |}] |}.

Definition malformed_disk (md : list KeyValue) : Disk :=
  disk_put empty_disk db_path (Some (malformed_file md)).

(** ** Further code paths: the query CLI, stats, the source-hash check, the
    remote upload, the sources column *)

(** ** Query results *)

Definition scan_keeps (prefix : bytes) (algo : option string) (r : HashRecord) : bool :=
  starts_with (hash r) prefix && negb (algo_rejects algo (algorithm r)).

(** Witnesses. *)

Definition small_store : ParquetStorage :=
  {| ps_path := db_path; writer := None;
     write_stats := {| ws_total_records := 0; ws_algorithms := []; ws_sources := [];
                       ws_source_hashes := []; ws_bloom := Bloom_new 1 1 keys0 |} |}.

Definition map_entries_valid (hashers : list Hasher) (src : string) (ws : list string) (m : RecordMap) : Prop :=
  forall k r, In (k, r) m -> k = record_key r /\ sources r = [src] /\ In (preimage r) ws /\
    exists h, In h hashers /\ hash r = hasher_hash h (word_bytes (preimage r)) /\ algorithm r = hasher_name h.

Definition map_covers (hashers : list Hasher) (m : RecordMap) (w : string) : Prop :=
  forall h, In h hashers -> exists r, In ((hasher_hash h (word_bytes w), hasher_name h), r) m.

Definition read_map_inv (hashers : list Hasher) (src : string) (ws : list string) (st : ReadState) : Prop :=
  (forall x, In x (seen st) <-> In x ws) /\ incl (batch st) (seen st) /\
  NoDup (map fst (new_records_map st)) /\
  map_entries_valid hashers src ws (new_records_map st) /\
  (forall x, In x (seen st) -> In x (batch st) \/ map_covers hashers (new_records_map st) x).



(** [R2Storage::sources_to_array_literal] (r2.rs 134-143). *)
Definition squote : ascii := "'"%char.

(** [str::replace('\'', "''")]. *)
Fixpoint replace_squote (s : string) : string :=
  match s with
  | EmptyString => EmptyString
  | String c rest =>
      if Ascii.eqb c squote then String squote (String squote (replace_squote rest))
      else String c (replace_squote rest)
  end.

Definition sources_to_array_literal (sources : list string) : string :=
  match sources with
  | [] => "[]::VARCHAR[]"
  | _ :: _ =>
      "[" ++ join ", " (map (fun s => String squote (replace_squote s ++ String squote EmptyString)) sources)
      ++ "]"
  end.

(** Reading back a list literal of string constants as DuckDB's parser does:
    [[] ['...', '...']] where a quote inside a constant is written twice. *)
Fixpoint read_quoted (fuel : nat) (s : string) : option (string * string) :=
  match fuel with
  | O => None
  | S fuel' =>
      match s with
      | EmptyString => None
      | String c rest =>
          if Ascii.eqb c squote then
            match rest with
            | String c2 rest2 =>
                if Ascii.eqb c2 squote then
                  option_map (fun p => (String squote (fst p), snd p)) (read_quoted fuel' rest2)
                else Some (EmptyString, rest)
            | EmptyString => Some (EmptyString, EmptyString)
            end
          else option_map (fun p => (String c (fst p), snd p)) (read_quoted fuel' rest)
      end
  end.

Fixpoint read_elements (fuel : nat) (s : string) : option (list string) :=
  match fuel with
  | O => None
  | S fuel' =>
      match s with
      | String q rest =>
          if Ascii.eqb q squote then
            match read_quoted (String.length rest) rest with
            | Some (v, String c rest') =>
                if Ascii.eqb c "]"%char then
                  match rest' with EmptyString => Some [v] | _ => None end
                else if Ascii.eqb c ","%char then
                  match rest' with
                  | String sp rest'' =>
                      if Ascii.eqb sp " "%char then option_map (cons v) (read_elements fuel' rest'')
                      else None
                  | EmptyString => None
                  end
                else None
            | _ => None
            end
          else None
      | EmptyString => None
      end
  end.

Definition list_literal_values (s : string) : option (list string) :=
  match s with
  | String c rest => if Ascii.eqb c "["%char then read_elements (String.length rest) rest else None
  | EmptyString => None
  end.

Definition quote_elem (s : string) : string := String squote (replace_squote s ++ String squote EmptyString).

(** Statement helpers for the stats extras. *)

(** The file's metadata has no entry under key [k]. *)
Definition lacks_key (k : string) (pf : ParquetFile) : bool :=
  match key_value_metadata pf with
  | None => true
  | Some md => forallb (fun e => negb (String.eqb (key e) k)) md
  end.


(** ** Comma-joined lists read back *)


Definition stats_fields (s : ParquetStorage) : Z * list string * list string :=
  (ws_total_records (write_stats s), ws_algorithms (write_stats s), ws_sources (write_stats s)).

Definition stats_after (f : Z * list string * list string) (records : list HashRecord) : Z * list string * list string :=
  let '(t, al, so) := f in
  (t + Z.of_nat (length records),
   fold_left (fun acc r => set_insert (algorithm r) acc) records al,
   fold_left (fun acc r => fold_left (fun a x => set_insert x a) (sources r) acc) records so).

(** *** [serde_json::from_str::<HashSet<String>>] *)

(** JSON whitespace: space, tab, line feed, carriage return. *)
Definition json_is_ws (c : ascii) : bool :=
  let n := nat_of_ascii c in
  (Nat.eqb n 32 || Nat.eqb n 9 || Nat.eqb n 10 || Nat.eqb n 13)%bool.

Fixpoint skip_ws (s : string) : string :=
  match s with
  | String c rest => if json_is_ws c then skip_ws rest else s
  | EmptyString => EmptyString
  end.

Definition hex_val (c : ascii) : option Z :=
  let n := Z.of_nat (nat_of_ascii c) in
  if (48 <=? n) && (n <=? 57) then Some (n - 48)
  else if (97 <=? n) && (n <=? 102) then Some (n - 87)
  else if (65 <=? n) && (n <=? 70) then Some (n - 55)
  else None.

(** [decode_hex_escape]: four hex digits. *)
Definition hex4 (a b c d : ascii) : option Z :=
  match hex_val a, hex_val b, hex_val c, hex_val d with
  | Some x, Some y, Some z, Some w => Some (((x * 16 + y) * 16 + z) * 16 + w)
  | _, _, _, _ => None
  end.

Definition byte_of (z : Z) : ascii := ascii_of_nat (Z.to_nat z).

(** [push_wtf8_codepoint]: the UTF-8 bytes of a code point. *)
Definition utf8_encode (n : Z) : string :=
  if n <? 128 then String (byte_of n) EmptyString
  else if n <? 2048 then
    String (byte_of (Z.lor (Z.land (Z.shiftr n 6) 31) 192))
      (String (byte_of (Z.lor (Z.land n 63) 128)) EmptyString)
  else if n <? 65536 then
    String (byte_of (Z.lor (Z.land (Z.shiftr n 12) 15) 224))
      (String (byte_of (Z.lor (Z.land (Z.shiftr n 6) 63) 128))
        (String (byte_of (Z.lor (Z.land n 63) 128)) EmptyString))
  else
    String (byte_of (Z.lor (Z.land (Z.shiftr n 18) 7) 240))
      (String (byte_of (Z.lor (Z.land (Z.shiftr n 12) 63) 128))
        (String (byte_of (Z.lor (Z.land (Z.shiftr n 6) 63) 128))
          (String (byte_of (Z.lor (Z.land n 63) 128)) EmptyString))).

Definition prepend (pre : string) (o : option (string * string)) : option (string * string) :=
  match o with
  | Some (v, r) => Some ((pre ++ v)%string, r)
  | None => None
  end.

(** [parse_str] on a [&str] input (validating): the string body after the
    opening quote, up to the closing quote; returns the decoded string and the
    rest of the input.  [None] stands for each of serde_json's errors. *)
Fixpoint json_parse_str (s : string) : option (string * string) :=
  match s with
  | EmptyString => None
  | String c rest =>
      if Ascii.eqb c dquote then Some (EmptyString, rest)
      else if Ascii.eqb c bslash then
        match rest with
        | EmptyString => None
        | String e rest1 =>
            let n := nat_of_ascii e in
            if Nat.eqb n 34 then prepend (String dquote EmptyString) (json_parse_str rest1)
            else if Nat.eqb n 92 then prepend (String bslash EmptyString) (json_parse_str rest1)
            else if Nat.eqb n 47 then prepend (String "/"%char EmptyString) (json_parse_str rest1)
            else if Nat.eqb n 98 then prepend (String (ascii_of_nat 8) EmptyString) (json_parse_str rest1)
            else if Nat.eqb n 102 then prepend (String (ascii_of_nat 12) EmptyString) (json_parse_str rest1)
            else if Nat.eqb n 110 then prepend (String (ascii_of_nat 10) EmptyString) (json_parse_str rest1)
            else if Nat.eqb n 114 then prepend (String (ascii_of_nat 13) EmptyString) (json_parse_str rest1)
            else if Nat.eqb n 116 then prepend (String (ascii_of_nat 9) EmptyString) (json_parse_str rest1)
            else if Nat.eqb n 117 then
              match rest1 with
              | String h1 (String h2 (String h3 (String h4 rest2))) =>
                  match hex4 h1 h2 h3 h4 with
                  | None => None
                  | Some n1 =>
                      if (56320 <=? n1) && (n1 <=? 57343) then None
                      else if (n1 <? 55296) || (56319 <? n1) then
                        prepend (utf8_encode n1) (json_parse_str rest2)
                      else
                        match rest2 with
                        | String b (String u (String k1 (String k2 (String k3 (String k4 rest3))))) =>
                            if Ascii.eqb b bslash && Nat.eqb (nat_of_ascii u) 117 then
                              match hex4 k1 k2 k3 k4 with
                              | Some n2 =>
                                  if (56320 <=? n2) && (n2 <=? 57343) then
                                    prepend (utf8_encode (Z.lor (Z.shiftl (n1 - 55296) 10) (n2 - 56320) + 65536))
                                      (json_parse_str rest3)
                                  else None
                              | None => None
                              end
                            else None
                        | _ => None
                        end
                  end
              | _ => None
              end
            else None
        end
      else if Nat.ltb (nat_of_ascii c) 32 then None
      else prepend (String c EmptyString) (json_parse_str rest)
  end.

(** The elements of a JSON array of strings, after the opening bracket
    ([SeqAccess::has_next_element], [deserialize_string]), inserted into a
    set in order; returns the set and the input after the closing bracket. *)
Fixpoint json_parse_seq (fuel : nat) (first : bool) (s : string) (acc : list string)
    : option (list string * string) :=
  match fuel with
  | O => None
  | S fuel' =>
      let element (c : ascii) (r : string) :=
        if Ascii.eqb c dquote then
          match json_parse_str r with
          | Some (v, r') => json_parse_seq fuel' false r' (set_insert v acc)
          | None => None
          end
        else None in
      match skip_ws s with
      | EmptyString => None
      | String c r =>
          if Nat.eqb (nat_of_ascii c) 93 then Some (acc, r)
          else if first then element c r
          else if Nat.eqb (nat_of_ascii c) 44 then
            match skip_ws r with
            | EmptyString => None
            | String c' r' => if Nat.eqb (nat_of_ascii c') 93 then None else element c' r'
            end
          else None
      end
  end.

(** [serde_json::from_str::<HashSet<String>>]: [None] on any error. *)
Definition json_from_str_set (s : string) : option (list string) :=
  match skip_ws s with
  | String c r =>
      if Nat.eqb (nat_of_ascii c) 91 then
        match json_parse_seq (S (String.length r)) true r [] with
        | Some (acc, rest) => match skip_ws rest with EmptyString => Some acc | _ => None end
        | None => None
        end
      else None
  | EmptyString => None
  end.

(** *** [get_source_hashes] (parquet.rs 329-351) *)

Fixpoint source_hashes_in (md : list KeyValue) : list string :=
  match md with
  | [] => []
  | e :: rest =>
      if String.eqb (key e) META_SOURCE_HASHES then
        match value e with
        | Some json => match json_from_str_set json with Some hs => hs | None => [] end
        | None => source_hashes_in rest
        end
      else source_hashes_in rest
  end.

Definition get_source_hashes (d : Disk) (path : string) : Outcome (list string) :=
  if negb (path_exists d path) then Ok []
  else
    pf <- open_parquet d path ;;
    match key_value_metadata pf with
    | None => Ok []
    | Some md => Ok (source_hashes_in md)
    end.

(** [str::is_char_boundary]: slicing [&hash[..12]] panics unless it holds. *)
Definition is_char_boundary (s : string) (i : nat) : bool :=
  match i with
  | O => true
  | _ =>
      match String.get i s with
      | None => Nat.eqb i (String.length s)
      | Some c => negb (Nat.leb 128 (nat_of_ascii c) && Nat.ltb (nat_of_ascii c) 192)
      end
  end.

(** [run] with a local output: the hasher check, the early exit for a source
    whose content hash the existing file already records (build.rs 85-118),
    then [run_local]. *)
Definition run_build (d : Disk) (words : list string) (hashers : list Hasher) (source_name : string)
    (source_hash : option string) (force append : bool) (output : string) (keys : (Z * Z) * (Z * Z))
    : Outcome Disk :=
  match hashers with
  | [] => Err "No valid algorithms specified"
  | _ :: _ =>
      let build := run_local d words hashers source_name source_hash append output keys in
      if negb force && path_exists d output then
        match source_hash with
        | Some h =>
            existing <- get_source_hashes d output ;;
            if existsb (String.eqb h) existing then
              (if is_char_boundary h 12 then Ok d else Panic)
            else build
        | None => build
        end
      else build
  end.

(** The input after the first element of [json_string_array (x :: rest)]. *)
Fixpoint array_tail (rest : list string) : string :=
  match rest with
  | [] => "]"
  | y :: rest' => ("," ++ json_quote y ++ array_tail rest')%string
  end.

Definition content_hash0 : string := "9f86d081884c7d659a2feaa0c55ad015".

(** *** The [sources] list column (parquet.rs 102-137) *)

(** [x as i32] for a count [x]. *)
Definition wrap_i32 (z : Z) : Z := (z + 2 ^ 31) mod 2 ^ 32 - 2 ^ 31.

(** [a as usize] for an [i32] offset (64-bit [usize]). *)
Definition usize_of_i32 (a : Z) : Z := if a <? 0 then a + 2 ^ 64 else a.

(** The offsets [build_sources_array] pushes after the leading 0, starting
    from [len] sources already pushed. *)
Fixpoint push_offsets (records : list HashRecord) (len : Z) : list Z :=
  match records with
  | [] => []
  | r :: rest =>
      let len' := len + Z.of_nat (length (sources r)) in
      wrap_i32 len' :: push_offsets rest len'
  end.

(** [OffsetBuffer::new]'s check: non-decreasing offsets. *)
Fixpoint monotone (l : list Z) : bool :=
  match l with
  | a :: ((b :: _) as t) => (a <=? b) && monotone t
  | _ => true
  end.

Definition total_bytes (l : list string) : Z :=
  fold_left (fun n s => n + Z.of_nat (String.length s)) l 0.

(** [build_sources_array]: the flattened values and the offsets of the
    [ListArray].  [StringArray::from] panics when the values exceed [i32::MAX]
    bytes, [OffsetBuffer::new] when the offsets decrease (the first one is 0),
    and [ListArray::new] when the last offset exceeds the number of values. *)
Definition build_sources_array (records : list HashRecord) : Outcome (list string * list Z) :=
  let all_sources := flat_map sources records in
  let offsets := 0 :: push_offsets records 0 in
  if 2 ^ 31 - 1 <? total_bytes all_sources then Panic
  else if negb (monotone offsets) then Panic
  else if Z.of_nat (length all_sources) <? last offsets 0 then Panic
  else Ok (all_sources, offsets).

(** [extract_sources]: the values between offsets [index] and [index + 1];
    indexing past the offsets or reading past the values panics. *)
Definition extract_sources (arr : list string * list Z) (index : nat) : Outcome (list string) :=
  let '(values, offsets) := arr in
  match nth_error offsets index, nth_error offsets (S index) with
  | Some a, Some b =>
      let start := usize_of_i32 a in
      let end_ := usize_of_i32 b in
      if start <? end_ then
        if Z.of_nat (length values) <? end_ then Panic
        else Ok (firstn (Z.to_nat (end_ - start)) (skipn (Z.to_nat start) values))
      else Ok []
  | _, _ => Panic
  end.

Definition source_count (records : list HashRecord) : Z := Z.of_nat (length (flat_map sources records)).

(** *** [hex::decode] and [hex::encode] *)

Fixpoint hex_decode_pairs (s : string) : option bytes :=
  match s with
  | EmptyString => Some []
  | String a (String b rest) =>
      match hex_val a, hex_val b with
      | Some x, Some y =>
          match hex_decode_pairs rest with
          | Some r => Some (Z.lor (Z.shiftl x 4) y :: r)
          | None => None
          end
      | _, _ => None
      end
  | String _ EmptyString => None
  end.

(** [hex::decode]: an odd length is rejected before any digit is read. *)
Definition hex_decode (s : string) : option bytes :=
  if Nat.odd (String.length s) then None else hex_decode_pairs s.

(** [hex::encode]: two lower-case digits per byte, high nibble first. *)
Definition hex_encode (b : bytes) : string :=
  fold_right (fun x acc => String (hex_digit (Z.shiftr x 4)) (String (hex_digit (Z.land x 15)) acc))
    EmptyString b.

(** [query::run] on the local store (cli/query.rs 71-86): decode the hex
    argument, query, and fail when nothing matches. *)
Definition query_run (d : Disk) (database : string) (keys : (Z * Z) * (Z * Z)) (hash : string)
    (algo : option string) (limit : option nat) : Outcome (list HashRecord) :=
  match hex_decode hash with
  | None => Err ("Invalid hex string: " ++ hash)
  | Some hash_bytes =>
      results <- query d (ParquetStorage_new database keys) hash_bytes algo limit ;;
      match results with
      | [] => Err "No matches found"
      | _ :: _ => Ok results
      end
  end.

(** * Properties *)

(** ** The lexicographic order on byte strings *)

Lemma bytes_le_spec : forall a b, bytes_le a b = true <-> bytes_cmp a b <> Gt.
Proof. intros a b; unfold bytes_le; destruct (bytes_cmp a b); split; congruence. Qed.

Lemma bytes_cmp_refl : forall a, bytes_cmp a a = Eq.
Proof. induction a as [|x a IH]; simpl; auto. rewrite Z.compare_refl; auto. Qed.

Lemma bytes_cmp_eq : forall a b, bytes_cmp a b = Eq -> a = b.
Proof.
  induction a as [|x a IH]; intros [|y b]; simpl; try congruence.
  destruct (Z.compare_spec x y); try congruence.
  intros H'; subst; f_equal; auto.
Qed.

Lemma bytes_cmp_antisym : forall a b, bytes_cmp b a = CompOpp (bytes_cmp a b).
Proof.
  induction a as [|x a IH]; intros [|y b]; simpl; auto.
  rewrite (Z.compare_antisym x y). destruct (x ?= y); simpl; auto.
Qed.

Lemma bytes_cmp_le_trans : forall a b c,
  bytes_cmp a b <> Gt -> bytes_cmp b c <> Gt -> bytes_cmp a c <> Gt.
Proof.
  induction a as [|x a IH]; intros [|y b] [|z c]; simpl; try congruence.
  destruct (Z.compare_spec x y), (Z.compare_spec y z), (Z.compare_spec x z);
    try congruence; try lia.
  subst. eapply IH; eauto.
Qed.

Lemma bytes_le_trans : forall a b c,
  bytes_le a b = true -> bytes_le b c = true -> bytes_le a c = true.
Proof.
  intros a b c H1 H2; apply bytes_le_spec; apply bytes_le_spec in H1, H2.
  eapply bytes_cmp_le_trans; eauto.
Qed.

Lemma bytes_ge_le : forall a b, bytes_ge a b = bytes_le b a.
Proof.
  intros a b; unfold bytes_ge, bytes_le. rewrite (bytes_cmp_antisym a b).
  destruct (bytes_cmp a b); reflexivity.
Qed.

Lemma bytes_le_total : forall a b, bytes_le a b = false -> bytes_le b a = true.
Proof.
  intros a b; unfold bytes_le. rewrite (bytes_cmp_antisym a b).
  destruct (bytes_cmp a b); simpl; congruence.
Qed.

Lemma bytes_cmp_app : forall p t u, bytes_cmp (p ++ t) (p ++ u) = bytes_cmp t u.
Proof. induction p as [|x p IH]; intros; simpl; auto. rewrite Z.compare_refl; auto. Qed.

Lemma bytes_le_prefix : forall p t, bytes_le p (p ++ t) = true.
Proof.
  intros p t. apply bytes_le_spec. rewrite <- (app_nil_r p) at 1.
  rewrite bytes_cmp_app. destruct t; simpl; congruence.
Qed.

(** Padding with [0xFF] bounds every continuation of the same length or shorter. *)
Lemma bytes_le_pad_ff : forall t n,
  Forall is_byte t -> (length t <= n)%nat -> bytes_cmp t (repeat 255 n) <> Gt.
Proof.
  induction t as [|x t IH]; intros n Hb Hn; simpl.
  - destruct n; simpl; congruence.
  - destruct n as [|n]; simpl in Hn; [lia|]. simpl.
    inversion Hb as [|? ? Hx Ht]; subst. unfold is_byte in Hx.
    destruct (Z.compare_spec x 255); try congruence; try lia.
    apply IH; auto; lia.
Qed.

Lemma starts_with_app : forall h p, starts_with h p = true -> exists t, h = p ++ t.
Proof.
  intros h p; revert h; induction p as [|y p IH]; intros h H.
  - exists h; reflexivity.
  - destruct h as [|x h]; simpl in H; [discriminate|].
    apply andb_prop in H as [Hxy Hp]. apply Z.eqb_eq in Hxy; subst.
    destruct (IH h Hp) as [t ->]. exists t; reflexivity.
Qed.

Lemma starts_with_prefix : forall p t, starts_with (p ++ t) p = true.
Proof.
  induction p as [|x p IH]; intros; [destruct t; reflexivity|].
  simpl; rewrite Z.eqb_refl; apply IH.
Qed.

Lemma starts_with_firstn : forall h k, starts_with h (firstn k h) = true.
Proof.
  intros h k. rewrite <- (firstn_skipn k h) at 1. apply starts_with_prefix.
Qed.

Lemma resize_pad : forall p n,
  (length p <= n)%nat -> resize p n 255 = p ++ repeat 255 (n - length p).
Proof.
  intros p n H; unfold resize.
  destruct (Nat.leb_spec n (length p)); auto.
  assert (n = length p) as -> by lia.
  rewrite firstn_all, Nat.sub_diag, app_nil_r; reflexivity.
Qed.

(** ** The row-group range test *)

Lemma prefix_range_formula : forall prefix min max,
  prefix_might_be_in_range prefix min max = true <->
  prefix = [] \/
  (bytes_le prefix max = true /\
   bytes_le min (prefix ++ repeat 255 (Nat.max (length max) (length prefix) - length prefix)) = true).
Proof.
  intros [|x p] min max; unfold prefix_might_be_in_range.
  - split; auto.
  - rewrite resize_pad by lia. rewrite bytes_ge_le, andb_true_iff.
    split; [intros H; right; exact H | intros [H|H]; [discriminate | exact H]].
Qed.

Lemma prefix_range_conservative : forall prefix min max h,
  Forall is_byte h ->
  bytes_le min h = true -> bytes_le h max = true -> starts_with h prefix = true ->
  (length h <= Nat.max (length max) (length prefix))%nat ->
  prefix_might_be_in_range prefix min max = true.
Proof.
  intros prefix min max h Hb Hmin Hmax Hs Hlen.
  apply prefix_range_formula. destruct prefix as [|x p]; [left; reflexivity | right].
  destruct (starts_with_app _ _ Hs) as [t Ht]. subst h.
  split.
  - eapply bytes_le_trans; [apply bytes_le_prefix | exact Hmax].
  - eapply bytes_le_trans; [exact Hmin |]. apply bytes_le_spec.
    rewrite bytes_cmp_app. apply bytes_le_pad_ff.
    + apply Forall_app in Hb; tauto.
    + rewrite length_app in Hlen; lia.
Qed.

(** C6 (amended).  [prefix_might_be_in_range prefix min max] holds exactly when
    the prefix is empty, or [prefix <= max] and [min <= prefix_high], where
    [prefix_high] is the prefix padded with [0xFF] to
    [max(len(max), len(prefix))] bytes.  It never rejects a group holding a hash
    [h] that starts with the prefix and lies in [[min, max]], provided
    [len(h) <= max(len(max), len(prefix))] (as when all hashes of the group
    have the same length). *)
Theorem prefix_might_be_in_range_correct : forall prefix min max,
  (prefix_might_be_in_range prefix min max = true <->
   prefix = [] \/
   (bytes_le prefix max = true /\
    bytes_le min (prefix ++ repeat 255 (Nat.max (length max) (length prefix) - length prefix)) = true))
  /\
  (forall h, Forall is_byte h ->
     bytes_le min h = true -> bytes_le h max = true -> starts_with h prefix = true ->
     (length h <= Nat.max (length max) (length prefix))%nat ->
     prefix_might_be_in_range prefix min max = true).
Proof.
  intros prefix min max; split.
  - apply prefix_range_formula.
  - intros h; apply prefix_range_conservative.
Qed.

Lemma prefix_might_be_in_range_correct_witness :
  Forall is_byte [1; 2; 100] /\ bytes_le [1; 0; 0] [1; 2; 100] = true /\
  bytes_le [1; 2; 100] [1; 2; 200] = true /\ starts_with [1; 2; 100] [1; 2] = true /\
  (length [1; 2; 100] <= Nat.max (length [1; 2; 200]) (length [1; 2]))%nat /\
  prefix_might_be_in_range [1; 2] [1; 0; 0] [1; 2; 200] = true.
Proof.
  assert (Hb : Forall is_byte [1; 2; 100]) by (repeat constructor; unfold is_byte; lia).
  split; [exact Hb|]. split; [reflexivity|]. split; [reflexivity|]. split; [reflexivity|].
  split; [simpl; lia|].
  apply (proj2 (prefix_might_be_in_range_correct [1; 2] [1; 0; 0] [1; 2; 200]) [1; 2; 100]);
    [exact Hb | reflexivity | reflexivity | reflexivity | simpl; lia].
Defined.

(** C6 (counterexample).  The writer closes [rec_long] (32 bytes
    [00 ff .. ff]) and [rec_short] (16 bytes [01 00 .. 00]) into one row group
    with [min = hash rec_long] and [max = hash rec_short]; [hash rec_long]
    starts with [[0]], yet the test rejects the group for the prefix [[0]]. *)
Lemma prefix_might_be_in_range_mixed_lengths :
  hash_statistics [rec_long; rec_short]
    = Some (ByteArray (Some (hash rec_long)) (Some (hash rec_short))) /\
  starts_with (hash rec_long) [0] = true /\
  prefix_might_be_in_range [0] (hash rec_long) (hash rec_short) = false.
Proof. split; [|split]; vm_compute; reflexivity. Qed.

(** ** A missing file *)

(** C9.  On a path where no file exists, [query] returns the empty result and
    [stats] the default statistics, both without error. *)
Theorem query_stats_missing_file : forall d s prefix algo limit file_len,
  path_exists d (ps_path s) = false ->
  query d s prefix algo limit = Ok [] /\ stats d s file_len = Ok Stats_default.
Proof. intros d s prefix algo limit file_len H; unfold query, stats; rewrite H; split; reflexivity. Qed.

Lemma query_stats_missing_file_witness :
  path_exists empty_disk db_path = false /\
  query empty_disk (ParquetStorage_new db_path keys0) [1; 2] (Some "md5"%string) (Some 3%nat) = Ok [] /\
  stats empty_disk (ParquetStorage_new db_path keys0) 0 = Ok Stats_default.
Proof.
  split; [reflexivity|].
  apply (query_stats_missing_file empty_disk (ParquetStorage_new db_path keys0)).
  reflexivity.
Defined.

(** ** Empty batches *)

Lemma write_chunks_empty : forall batches d s,
  Forall (fun b : list HashRecord => b = []) batches -> write_chunks d s batches = Ok (d, s).
Proof.
  induction batches as [|b rest IH]; intros d s H; simpl; auto.
  inversion H as [|? ? Hb Hr]; subst. simpl. apply IH; auto.
Qed.

(** C5.  From a fresh local store, any sequence of [write_batch] calls on empty
    lists followed by [finish] leaves the disk unchanged (no file is created);
    the remote store's [finish] with no pending record leaves it unchanged, so
    nothing is written to the object store. *)
Theorem empty_batches_no_write :
  (forall d path expected keys batches,
     Forall (fun b : list HashRecord => b = []) batches ->
     exists s', write_chunks d (with_expected_capacity path expected keys) batches = Ok (d, s') /\
                finish d s' = Ok (d, s'))
  /\
  (forall s, pending_records s = [] -> r2_finish s = Ok s).
Proof.
  split.
  - intros d path expected keys batches H.
    exists (with_expected_capacity path expected keys). split.
    + apply write_chunks_empty; exact H.
    + reflexivity.
  - intros s H; unfold r2_finish; rewrite H; reflexivity.
Qed.

Lemma empty_batches_no_write_witness :
  Forall (fun b : list HashRecord => b = []) [[]; []] /\
  (exists s', write_chunks empty_disk (ParquetStorage_new db_path keys0) [[]; []] = Ok (empty_disk, s') /\
              finish empty_disk s' = Ok (empty_disk, s')) /\
  r2_finish (R2Storage_new "s3://bucket/hashes.parquet" []) = Ok (R2Storage_new "s3://bucket/hashes.parquet" []).
Proof.
  assert (H : Forall (fun b : list HashRecord => b = []) [[]; []]) by (repeat constructor).
  split; [exact H|]. split.
  - exact (proj1 empty_batches_no_write empty_disk db_path DEFAULT_BLOOM_CAPACITY keys0 _ H).
  - apply (proj2 empty_batches_no_write). reflexivity.
Defined.

(** ** The append-merge *)

Lemma existsb_eqb_In : forall x l, existsb (String.eqb x) l = true <-> In x l.
Proof.
  intros x l; rewrite existsb_exists; split.
  - intros [y [Hy Heq]]. apply String.eqb_eq in Heq; subst; auto.
  - intros H; exists x; split; auto. apply String.eqb_refl.
Qed.

Lemma existsb_eqb_same : forall x l1 l2,
  (forall y, In y l1 <-> In y l2) -> existsb (String.eqb x) l1 = existsb (String.eqb x) l2.
Proof.
  intros x l1 l2 H.
  destruct (existsb (String.eqb x) l2) eqn:E2.
  - apply existsb_eqb_In, H, existsb_eqb_In in E2; exact E2.
  - destruct (existsb (String.eqb x) l1) eqn:E1; auto.
    apply existsb_eqb_In, H, existsb_eqb_In in E1; congruence.
Qed.

(** The loop over the new sources appends exactly [fresh_tags]. *)
Lemma push_new_sources_fold : forall incoming srcs before n,
  (forall y, In y srcs <-> In y before) ->
  fold_left push_new_sources incoming (srcs, n)
  = (srcs ++ fresh_tags before incoming, (n + length (fresh_tags before incoming))%nat).
Proof.
  induction incoming as [|x t IH]; intros srcs before n H; simpl.
  - rewrite app_nil_r, Nat.add_0_r; reflexivity.
  - rewrite (existsb_eqb_same x srcs before H).
    destruct (existsb (String.eqb x) before) eqn:E; simpl.
    + apply IH. intros y; rewrite in_app_iff; simpl.
      apply existsb_eqb_In in E. rewrite H. intuition (subst; auto).
    + rewrite (IH _ (before ++ [x])).
      * rewrite <- app_assoc; simpl. f_equal. lia.
      * intros y; rewrite !in_app_iff, H; tauto.
Qed.

Lemma fresh_tags_In : forall incoming before y,
  In y (fresh_tags before incoming) <-> In y incoming /\ ~ In y before.
Proof.
  induction incoming as [|x t IH]; intros before y; simpl; [tauto|].
  destruct (existsb (String.eqb x) before) eqn:E; simpl.
  - apply existsb_eqb_In in E. rewrite IH, in_app_iff; simpl.
    split; [tauto|]. intros [[<-|Ht] Hn]; [contradiction|].
    split; auto. intros [H1|[H1|[]]]; [contradiction | subst; contradiction].
  - rewrite IH, in_app_iff; simpl.
    assert (~ In x before) by (intros Hx; apply existsb_eqb_In in Hx; congruence).
    split; [intros [<-|Hy]; tauto|].
    intros [[<-|Ht] Hn]; [left; reflexivity|].
    destruct (string_dec x y); [left; auto | right; tauto].
Qed.

Lemma fresh_tags_NoDup : forall incoming before acc,
  NoDup acc -> (forall y, In y acc <-> In y before) ->
  NoDup (acc ++ fresh_tags before incoming).
Proof.
  induction incoming as [|x t IH]; intros before acc Hd H; simpl.
  - rewrite app_nil_r; exact Hd.
  - destruct (existsb (String.eqb x) before) eqn:E.
    + apply IH; auto. intros y; rewrite H, in_app_iff; simpl.
      apply existsb_eqb_In in E. intuition (subst; auto).
    + replace (acc ++ x :: fresh_tags (before ++ [x]) t)
        with ((acc ++ [x]) ++ fresh_tags (before ++ [x]) t) by (rewrite <- app_assoc; reflexivity).
      apply IH.
      * apply NoDup_app; auto using NoDup_cons, NoDup_nil.
        intros y Hy [<-|[]]. apply H, existsb_eqb_In in Hy; congruence.
      * intros y; rewrite !in_app_iff, H; tauto.
Qed.

(** One step of the merge, when the key is in the accumulator. *)
Lemma append_merge_step_found : forall st record new_record m',
  map_remove (record_key record) (records_map st) = (Some new_record, m') ->
  append_merge_step st record =
  Ok {| existing_count := S (existing_count st);
        merged_count := (merged_count st + length (appended_tags (sources record) (sources new_record)))%nat;
        final_records := final_records st ++
          [{| hash := hash record; preimage := preimage record; algorithm := algorithm record;
              sources := sources record ++ appended_tags (sources record) (sources new_record) |}];
        records_map := m' |}.
Proof.
  intros st record new_record m' H. unfold append_merge_step. rewrite H.
  rewrite (push_new_sources_fold (sources new_record) (sources record) (sources record)) by tauto.
  reflexivity.
Qed.

(** C8.  When the key of a prior-artifact record is in the accumulator, the
    output record carries the prior sources, in order, followed by the new
    source tags not already present, each once, in their order; with
    duplicate-free prior sources (invariant I3) the result is duplicate-free
    and holds exactly the tags of both lists. *)
Theorem append_merge_sources : forall st record new_record m',
  map_remove (record_key record) (records_map st) = (Some new_record, m') ->
  NoDup (sources record) ->
  exists st' merged,
    append_merge_step st record = Ok st' /\
    final_records st' = final_records st ++
      [{| hash := hash record; preimage := preimage record; algorithm := algorithm record;
          sources := merged |}] /\
    merged = sources record ++ appended_tags (sources record) (sources new_record) /\
    NoDup merged /\
    (forall y, In y merged <-> In y (sources record) \/ In y (sources new_record)).
Proof.
  intros st record new_record m' Hr Hd.
  eexists; eexists. split; [apply append_merge_step_found; exact Hr|].
  split; [reflexivity|]. split; [reflexivity|]. split.
  - apply fresh_tags_NoDup; [exact Hd | tauto].
  - intros y; rewrite in_app_iff; unfold appended_tags; rewrite fresh_tags_In.
    destruct (in_dec string_dec y (sources record)); tauto.
Qed.

Lemma append_merge_sources_witness :
  map_remove (record_key rec_hello_prior) (records_map (merge_start "hello"))
    = (Some (rec_hello_new "hello"), []) /\
  NoDup (sources rec_hello_prior) /\
  exists st' merged,
    append_merge_step (merge_start "hello") rec_hello_prior = Ok st' /\
    final_records st' = [{| hash := sha256_hello; preimage := "hello"; algorithm := "sha256";
                            sources := merged |}] /\
    merged = ["wordlist1"; "wordlist2"]%string /\ NoDup merged /\
    (forall y, In y merged <-> In y ["wordlist1"%string] \/ In y ["wordlist2"%string]).
Proof.
  assert (Hr : map_remove (record_key rec_hello_prior) (records_map (merge_start "hello"))
                 = (Some (rec_hello_new "hello"), [])) by (vm_compute; reflexivity).
  assert (Hd : NoDup (sources rec_hello_prior)) by (repeat constructor; simpl; tauto).
  split; [exact Hr|]. split; [exact Hd|].
  exact (append_merge_sources (merge_start "hello") rec_hello_prior (rec_hello_new "hello") [] Hr Hd).
Defined.

(** C4 (amended).  The append-merge never fails: the merge loop over any rows
    returns [Ok].  When a prior-artifact record meets an accumulator record of
    the same key, whatever the two preimages, the output record keeps the
    prior record's hash, algorithm and preimage. *)
Theorem append_merge_total :
  (forall rows st, exists st', for_each_rows rows append_merge_step st = Ok st') /\
  (forall st record new_record m',
     map_remove (record_key record) (records_map st) = (Some new_record, m') ->
     exists st' r, append_merge_step st record = Ok st' /\
       final_records st' = final_records st ++ [r] /\
       hash r = hash record /\ algorithm r = algorithm record /\ preimage r = preimage record).
Proof.
  split.
  - induction rows as [|r rest IH]; intros st; simpl; [eexists; reflexivity|].
    unfold append_merge_step at 1.
    destruct (map_remove (record_key r) (records_map st)) as [[nr|] m].
    + destruct (fold_left push_new_sources (sources nr) (sources r, merged_count st)); simpl; apply IH.
    + simpl; apply IH.
  - intros st record new_record m' H. rewrite (append_merge_step_found _ _ _ _ H).
    do 2 eexists; repeat split; reflexivity.
Qed.

Lemma append_merge_total_witness :
  map_remove (record_key rec_hello_prior) (records_map (merge_start "hallo"))
    = (Some (rec_hello_new "hallo"), []) /\
  exists st' r, append_merge_step (merge_start "hallo") rec_hello_prior = Ok st' /\
    final_records st' = [r] /\ hash r = sha256_hello /\ algorithm r = "sha256"%string /\
    preimage r = "hello"%string.
Proof.
  assert (Hr : map_remove (record_key rec_hello_prior) (records_map (merge_start "hallo"))
                 = (Some (rec_hello_new "hallo"), [])) by (vm_compute; reflexivity).
  split; [exact Hr|].
  exact (proj2 append_merge_total (merge_start "hallo") rec_hello_prior (rec_hello_new "hallo") [] Hr).
Defined.

(** C4 (counterexample).  Appending a source in which "hello" hashed to the
    same key with the preimage "hallo" succeeds: the output keeps the prior
    preimage "hello", merges the sources, and reports no error. *)
Lemma append_merge_keeps_prior_preimage :
  preimage rec_hello_prior <> preimage (rec_hello_new "hallo") /\
  record_key rec_hello_prior = record_key (rec_hello_new "hallo") /\
  collect_final_records prior_disk db_path keys0 true
    [(record_key (rec_hello_new "hallo"), rec_hello_new "hallo")]
  = Ok [{| hash := sha256_hello; preimage := "hello"; algorithm := "sha256";
           sources := ["wordlist1"; "wordlist2"]%string |}].
Proof.
  split; [discriminate|]. split; [reflexivity|].
  vm_compute; reflexivity.
Qed.

(** ** The sort of the build pipeline *)

Lemma bytes_cmp_lt_le_trans : forall a b c,
  bytes_cmp a b = Lt -> bytes_cmp b c <> Gt -> bytes_cmp a c = Lt.
Proof.
  intros a b c H1 H2.
  assert (H3 : bytes_cmp a c <> Gt) by (apply (bytes_cmp_le_trans a b c); congruence).
  destruct (bytes_cmp a c) eqn:E; auto; [|congruence].
  apply bytes_cmp_eq in E; subst.
  rewrite bytes_cmp_antisym, H1 in H2; simpl in H2; congruence.
Qed.

Lemma bytes_eqb_spec : forall a b, bytes_eqb a b = true <-> a = b.
Proof.
  induction a as [|x a IH]; intros [|y b]; simpl; split; intros H; try congruence.
  - apply andb_prop in H as [H1 H2]. apply Z.eqb_eq in H1; apply IH in H2; subst; reflexivity.
  - injection H as -> ->. rewrite Z.eqb_refl; simpl; apply IH; reflexivity.
Qed.

Lemma insert_by_HdRel : forall x a l,
  HdRel hash_le a l -> hash_le a x -> HdRel hash_le a (insert_by hash_cmp x l).
Proof.
  intros x a [|y t] H Hx; simpl; [constructor; exact Hx|].
  destruct (hash_cmp x y); constructor; auto; inversion H; auto.
Qed.

Lemma insert_by_sorted : forall x l,
  Sorted hash_le l -> Sorted hash_le (insert_by hash_cmp x l).
Proof.
  intros x l; induction l as [|y t IH]; intros H; simpl.
  - repeat constructor.
  - inversion H as [|? ? Ht Hy]; subst.
    unfold hash_cmp; destruct (bytes_cmp (hash x) (hash y)) eqn:E.
    + constructor; [apply IH; exact Ht|].
      apply insert_by_HdRel; auto. apply bytes_cmp_eq in E.
      unfold hash_le; rewrite E; apply bytes_le_spec; rewrite bytes_cmp_refl; congruence.
    + constructor; [exact H|]. constructor.
      unfold hash_le; apply bytes_le_spec; congruence.
    + constructor; [apply IH; exact Ht|].
      apply insert_by_HdRel; auto.
      unfold hash_le; apply bytes_le_spec. rewrite bytes_cmp_antisym, E; simpl; congruence.
Qed.

Lemma insert_by_perm : forall x l, Permutation (insert_by hash_cmp x l) (x :: l).
Proof.
  intros x l; induction l as [|y t IH]; simpl; [reflexivity|].
  destruct (hash_cmp x y); try reflexivity;
    (eapply perm_trans; [apply perm_skip; exact IH | apply perm_swap]).
Qed.

(** A record smaller than the head of a sorted list is smaller than all of it. *)
Lemma sorted_lt_all : forall x y t,
  Sorted hash_le (y :: t) -> bytes_cmp (hash x) (hash y) = Lt ->
  forall z, In z (y :: t) -> bytes_cmp (hash x) (hash z) = Lt.
Proof.
  intros x y t Hs Hxy.
  apply Sorted_StronglySorted in Hs.
  2:{ intros a b c Hab Hbc; unfold hash_le in *; eapply bytes_le_trans; eauto. }
  inversion Hs as [|? ? _ Hall]; subst.
  intros z [<-|Hz]; auto.
  rewrite Forall_forall in Hall. apply (bytes_cmp_lt_le_trans _ (hash y)); auto.
  apply bytes_le_spec, Hall, Hz.
Qed.

Lemma filter_all_false : forall (P : HashRecord -> bool) l,
  (forall z, In z l -> P z = false) -> filter P l = [].
Proof.
  intros P l; induction l as [|y t IH]; intros H; simpl; auto.
  rewrite H by (left; reflexivity). apply IH; intros z Hz; apply H; right; exact Hz.
Qed.

Lemma insert_by_stable : forall h x l,
  Sorted hash_le l ->
  filter (fun r => bytes_eqb (hash r) h) (insert_by hash_cmp x l)
  = filter (fun r => bytes_eqb (hash r) h) l ++ filter (fun r => bytes_eqb (hash r) h) [x].
Proof.
  intros h x l; induction l as [|y t IH]; intros Hs; simpl; [reflexivity|].
  destruct (hash_cmp x y) eqn:E.
  - inversion Hs; subst. simpl. rewrite IH by auto.
    destruct (bytes_eqb (hash y) h); reflexivity.
  - simpl. destruct (bytes_eqb (hash x) h) eqn:Ex.
    + assert (Hnone : filter (fun r => bytes_eqb (hash r) h) (y :: t) = []).
      { apply filter_all_false. intros z Hz.
        apply not_true_iff_false; intros Hzh. apply bytes_eqb_spec in Hzh, Ex.
        pose proof (sorted_lt_all x y t Hs E z Hz) as Hlt.
        rewrite Hzh, <- Ex, bytes_cmp_refl in Hlt; discriminate. }
      simpl in Hnone; rewrite Hnone; reflexivity.
    + rewrite app_nil_r; reflexivity.
  - inversion Hs; subst. simpl. rewrite IH by auto.
    destruct (bytes_eqb (hash y) h); reflexivity.
Qed.

Lemma sort_by_fold : forall l acc, Sorted hash_le acc ->
  Sorted hash_le (fold_left (fun acc x => insert_by hash_cmp x acc) l acc) /\
  Permutation (fold_left (fun acc x => insert_by hash_cmp x acc) l acc) (acc ++ l) /\
  (forall h, filter (fun r => bytes_eqb (hash r) h) (fold_left (fun acc x => insert_by hash_cmp x acc) l acc)
             = filter (fun r => bytes_eqb (hash r) h) (acc ++ l)).
Proof.
  induction l as [|x t IH]; intros acc Hs; simpl.
  - rewrite app_nil_r; repeat split; auto.
  - destruct (IH (insert_by hash_cmp x acc) (insert_by_sorted x acc Hs)) as [H1 [H2 H3]].
    repeat split; auto.
    + eapply perm_trans; [exact H2|].
      eapply perm_trans; [apply Permutation_app_tail, insert_by_perm|].
      simpl; apply Permutation_middle.
    + intros h. rewrite H3, filter_app, insert_by_stable by exact Hs.
      rewrite (filter_app _ acc (x :: t)), <- app_assoc; simpl.
      destruct (bytes_eqb (hash x) h); reflexivity.
Qed.

(** [sort_by] on hashes returns a permutation sorted by hash, and keeps the
    relative order of records with equal hashes. *)
Lemma sort_by_hash_spec : forall l,
  Sorted hash_le (sort_by hash_cmp l) /\ Permutation (sort_by hash_cmp l) l /\
  (forall h, filter (fun r => bytes_eqb (hash r) h) (sort_by hash_cmp l)
             = filter (fun r => bytes_eqb (hash r) h) l).
Proof. intros l; apply (sort_by_fold l []); constructor. Qed.

(** ** The chunked write path *)

Lemma chunks_aux_concat : forall (A : Type) fuel n (l : list A),
  (0 < n)%nat -> (length l <= fuel)%nat -> concat (chunks_aux fuel n l) = l.
Proof.
  intros A fuel; induction fuel as [|fuel IH]; intros n l Hn Hl.
  - destruct l; simpl in *; [reflexivity | lia].
  - destruct l as [|x l']; [reflexivity|].
    cbn [chunks_aux concat]. rewrite IH; [apply firstn_skipn | exact Hn |].
    rewrite length_skipn. simpl length in *. lia.
Qed.

Lemma chunks_concat : forall (A : Type) n (l : list A), (0 < n)%nat -> concat (chunks n l) = l.
Proof. intros A n l Hn; apply chunks_aux_concat; auto. Qed.

Lemma chunks_first : forall (A : Type) n (x : A) l,
  exists rest, chunks n (x :: l) = firstn n (x :: l) :: rest.
Proof. intros; eexists; reflexivity. Qed.

Lemma write_chunks_rows : forall cs d s w,
  writer s = Some w ->
  exists d' s' w', write_chunks d s cs = Ok (d', s') /\ ps_path s' = ps_path s /\
    writer s' = Some w' /\ aw_rows w' = aw_rows w ++ concat cs.
Proof.
  induction cs as [|c rest IH]; intros d s w Hw; simpl.
  - exists d, s, w; rewrite app_nil_r; auto.
  - destruct c as [|r c'].
    + simpl; apply IH; exact Hw.
    + unfold write_batch, ensure_writer. simpl writer. rewrite Hw. simpl.
      destruct (IH d (set_writer (collect_stats s (r :: c')) (Some (aw_write w (r :: c'))))
                  (aw_write w (r :: c')) eq_refl) as [d' [s' [w' [H1 [H2 [H3 H4]]]]]].
      exists d', s', w'. repeat split; auto.
      rewrite H4; simpl; rewrite <- app_assoc; reflexivity.
Qed.

Lemma append_kv_rows : forall l w,
  aw_rows (fold_left append_key_value_metadata l w) = aw_rows w.
Proof. induction l as [|k l IH]; intros w; simpl; auto. rewrite IH; reflexivity. Qed.

Lemma for_each_collect : forall rows acc,
  for_each_rows rows collect_record acc = Ok (acc ++ rows).
Proof.
  induction rows as [|r rows IH]; intros acc; simpl; [rewrite app_nil_r; reflexivity|].
  rewrite IH, <- app_assoc; reflexivity.
Qed.

(** Closing a writer leaves a readable file holding its rows, in order. *)
Lemma finish_rows : forall d s w,
  writer s = Some w ->
  exists pf s', finish d s = Ok (disk_put d (ps_path s) (Some pf), s') /\ all_rows pf = aw_rows w.
Proof.
  intros d s w Hw. unfold finish; rewrite Hw.
  eexists; eexists; split; [reflexivity|].
  unfold all_rows; cbn [row_groups]. rewrite flat_map_concat_map, map_map; cbn [rg_rows].
  rewrite map_id.
  rewrite chunks_concat by (unfold max_row_group_size; lia).
  apply append_kv_rows.
Qed.

Lemma collect_stats_writer : forall s records, writer (collect_stats s records) = writer s.
Proof. reflexivity. Qed.

Lemma collect_stats_path : forall s records, ps_path (collect_stats s records) = ps_path s.
Proof. reflexivity. Qed.

Lemma sort_and_write_local_rows : forall d output keys sh final,
  final <> [] ->
  exists d' pf, sort_and_write_local d output keys sh final = Ok d' /\
    d' output = Some (Some pf) /\ all_rows pf = sort_by hash_cmp final.
Proof.
  intros d output keys sh final Hne. unfold sort_and_write_local.
  destruct (sort_by hash_cmp final) as [|x l] eqn:Hs.
  { destruct (sort_by_hash_spec final) as [_ [Hp _]]. rewrite Hs in Hp.
    apply Permutation_nil in Hp; congruence. }
  destruct (chunks_first _ BATCH_SIZE x l) as [rest Hc]. rewrite Hc.
  set (s0 := match sh with
             | Some h => add_source_hash (with_expected_capacity output (Z.of_nat (length (x :: l))) keys) h
             | None => with_expected_capacity output (Z.of_nat (length (x :: l))) keys
             end).
  assert (Hs0 : writer s0 = None /\ ps_path s0 = output) by (subst s0; destruct sh; split; reflexivity).
  destruct Hs0 as [Hw0 Hp0].
  assert (HB : (0 < BATCH_SIZE)%nat) by (unfold BATCH_SIZE; lia).
  destruct (firstn BATCH_SIZE (x :: l)) as [|y c] eqn:Hf.
  { apply (f_equal (@length _)) in Hf. rewrite length_firstn in Hf. cbn [length] in Hf. lia. }
  cbn [write_chunks]. unfold write_batch at 1, ensure_writer.
  rewrite collect_stats_writer, Hw0, collect_stats_path. cbn [obind fst snd].
  destruct (write_chunks_rows rest (disk_put d (ps_path s0) None)
              (set_writer (collect_stats s0 (y :: c)) (Some (aw_write ArrowWriter_try_new (y :: c))))
              (aw_write ArrowWriter_try_new (y :: c)) eq_refl) as [d1 [s1 [w1 [H1 [H2 [H3 H4]]]]]].
  rewrite H1; simpl.
  destruct (finish_rows d1 s1 w1 H3) as [pf [s2 [H5 H6]]]. rewrite H5; simpl.
  exists (disk_put d1 (ps_path s1) (Some pf)), pf. split; [reflexivity|]. split.
  - unfold disk_put. rewrite H2. simpl. rewrite Hp0, String.eqb_refl; reflexivity.
  - rewrite H6, H4. transitivity (concat (chunks BATCH_SIZE (x :: l))).
    + rewrite Hc; reflexivity.
    + apply chunks_concat; exact HB.
Qed.

(** C7.  Whenever the build has records to write, it succeeds, and
    [for_each_record] on the artifact yields a permutation of the records in
    non-decreasing hash order (lexicographic over bytes); records with equal
    hashes keep their pre-sort order. *)
Theorem build_artifact_sorted : forall d words hashers source_name source_hash append output keys final,
  hashers <> [] ->
  collect_final_records d output keys append (new_records_map (read_words words hashers source_name))
    = Ok final ->
  final <> [] ->
  exists d' rows,
    run_local d words hashers source_name source_hash append output keys = Ok d' /\
    for_each_record d' (ParquetStorage_new output keys) collect_record [] = Ok rows /\
    Sorted hash_le rows /\
    Permutation rows final /\
    (forall h, filter (fun r => bytes_eqb (hash r) h) rows = filter (fun r => bytes_eqb (hash r) h) final).
Proof.
  intros d words hashers source_name source_hash append output keys final Hh Hc Hne.
  destruct (sort_and_write_local_rows d output keys source_hash final Hne) as [d' [pf [H1 [H2 H3]]]].
  exists d', (sort_by hash_cmp final). split.
  - unfold run_local. destruct hashers as [|h t]; [congruence|].
    rewrite Hc; cbn [obind]. exact H1.
  - split.
    + unfold for_each_record, path_exists, open_parquet.
      change (ps_path (ParquetStorage_new output keys)) with output. rewrite H2; cbn [negb obind].
      rewrite for_each_collect, H3; reflexivity.
    + apply sort_by_hash_spec.
Qed.

Lemma build_artifact_sorted_witness :
  build_hashers <> [] /\
  collect_final_records empty_disk db_path keys0 false
    (new_records_map (read_words build_words build_hashers "list")) = Ok build_final /\
  build_final <> [] /\
  exists d' rows,
    run_local empty_disk build_words build_hashers "list" None false db_path keys0 = Ok d' /\
    for_each_record d' (ParquetStorage_new db_path keys0) collect_record [] = Ok rows /\
    Sorted hash_le rows /\
    Permutation rows build_final /\
    (forall h, filter (fun r => bytes_eqb (hash r) h) rows = filter (fun r => bytes_eqb (hash r) h) build_final).
Proof.
  assert (Hh : build_hashers <> []) by discriminate.
  assert (Hc : collect_final_records empty_disk db_path keys0 false
                 (new_records_map (read_words build_words build_hashers "list")) = Ok build_final)
    by (vm_compute; reflexivity).
  assert (Hne : build_final <> []) by (vm_compute; discriminate).
  split; [exact Hh|]. split; [exact Hc|]. split; [exact Hne|].
  exact (build_artifact_sorted empty_disk build_words build_hashers "list" None false db_path keys0
           build_final Hh Hc Hne).
Defined.

(** ** Prefix queries *)

Lemma scan_rows_unlimited : forall rows prefix acc,
  scan_rows rows prefix None None acc = acc ++ filter (fun r => starts_with (hash r) prefix) rows.
Proof.
  induction rows as [|r rows IH]; intros prefix acc; simpl; [rewrite app_nil_r; reflexivity|].
  destruct (starts_with (hash r) prefix); simpl; rewrite IH; [rewrite <- app_assoc|]; reflexivity.
Qed.

Lemma matching_from_In : forall prefix rgs j n rg,
  nth_error rgs n = Some rg -> row_group_matches prefix rg = true ->
  In (j + n)%nat (matching_from prefix j rgs).
Proof.
  induction rgs as [|g rgs IH]; intros j n rg Hn Hm; [destruct n; discriminate|].
  destruct n as [|n]; simpl in Hn.
  - injection Hn as ->. simpl. rewrite Hm, Nat.add_0_r. left; reflexivity.
  - simpl. replace (j + S n)%nat with (S j + n)%nat by lia.
    destruct (row_group_matches prefix g); [right|]; eapply IH; eauto.
Qed.

Lemma selected_rows_In : forall pf sel i rg r,
  In i sel -> nth_error (row_groups pf) i = Some rg -> In r (rg_rows rg) ->
  In r (selected_rows pf sel).
Proof.
  intros pf sel i rg r Hi Hn Hr. unfold selected_rows. apply in_flat_map.
  exists i; split; auto. rewrite Hn; exact Hr.
Qed.

Lemma length_firstn_le : forall (h : bytes) k, (k <= length h)%nat -> length (firstn k h) = k.
Proof. intros h k H; rewrite length_firstn; lia. Qed.

(** When the filter gate passes, a prefix query returns every row of a
    group the range test keeps whose hash starts with the prefix. *)
Lemma query_finds_row : forall d s pf prefix rg r n,
  d (ps_path s) = Some (Some pf) ->
  bloom_gate d s prefix = Ok true ->
  nth_error (row_groups pf) n = Some rg -> In r (rg_rows rg) ->
  row_group_matches prefix rg = true -> starts_with (hash r) prefix = true ->
  exists l, query d s prefix None None = Ok l /\ In r l.
Proof.
  intros d s pf prefix rg r n Hd Hg Hn Hr Hm Hs.
  pose proof (matching_from_In prefix (row_groups pf) 0 n rg Hn Hm) as Hi. simpl in Hi.
  unfold query, path_exists, open_parquet. rewrite Hd, Hg; cbn [negb obind].
  unfold matching_row_groups. destruct (matching_from prefix 0 (row_groups pf)) as [|i0 sel] eqn:Hsel;
    [contradiction|].
  eexists; split; [reflexivity|].
  rewrite scan_rows_unlimited, app_nil_l. apply filter_In; split; auto.
  exact (selected_rows_In pf _ n rg r Hi Hn Hr).
Qed.

(** C1 (amended).  A record [r] of a readable artifact is returned by the query
    on its first [k] bytes ([1 <= k <= len(r.hash)], no algorithm filter, no
    limit) when its row group's hash statistics, if present, bound [r.hash] and
    [len(r.hash) <= max(len(group max), k)] (as when the group's hashes share
    one length), and the filter gate lets the query through: [k] is not one of
    16, 20, 32, 64, or no filter loads from the file, or the loaded filter
    answers maybe-present for the [k]-byte prefix. *)
Theorem query_prefix_contains_record : forall d s pf rg r k,
  d (ps_path s) = Some (Some pf) ->
  In rg (row_groups pf) -> In r (rg_rows rg) -> Forall is_byte (hash r) ->
  (forall mn mx, rg_hash_statistics rg = Some (ByteArray (Some mn) (Some mx)) ->
     bytes_le mn (hash r) = true /\ bytes_le (hash r) mx = true /\
     (length (hash r) <= Nat.max (length mx) k)%nat) ->
  (1 <= k <= length (hash r))%nat ->
  (is_full_hash_length k = false \/
   (forall b, load_bloom_filter d s <> Ok (Some b)) \/
   (exists b, load_bloom_filter d s = Ok (Some b) /\ bloom_check b (firstn k (hash r)) = Ok true)) ->
  exists l, query d s (firstn k (hash r)) None None = Ok l /\ In r l.
Proof.
  intros d s pf rg r k Hd Hrg Hr Hb Hst Hk Hgate.
  destruct (In_nth_error _ _ Hrg) as [n Hn].
  apply (query_finds_row d s pf _ rg r n Hd); auto.
  - unfold bloom_gate. rewrite length_firstn_le by lia.
    destruct Hgate as [Hf | [Hnone | [b [Hl Hc]]]].
    + rewrite Hf; reflexivity.
    + destruct (is_full_hash_length k); [|reflexivity].
      destruct (load_bloom_filter d s) as [[b|]| |]; try reflexivity.
      exfalso; apply (Hnone b); reflexivity.
    + rewrite Hl, Hc. destruct (is_full_hash_length k); reflexivity.
  - unfold row_group_matches.
    destruct (rg_hash_statistics rg) as [[[mn|] [mx|]|]|] eqn:E; try reflexivity.
    destruct (Hst mn mx eq_refl) as [H1 [H2 H3]].
    apply (prefix_range_conservative _ _ _ (hash r)); auto.
    + apply starts_with_firstn.
    + rewrite length_firstn_le by lia. exact H3.
  - apply starts_with_firstn.
Qed.

Lemma query_prefix_contains_record_witness :
  exists l, query short_disk (ParquetStorage_new db_path keys0) (firstn 2 (hash rec_short)) None None = Ok l
            /\ In rec_short l.
Proof.
  apply (query_prefix_contains_record short_disk (ParquetStorage_new db_path keys0)
           {| key_value_metadata := None;
              row_groups := [{| rg_rows := [rec_short]; rg_hash_statistics := hash_statistics [rec_short] |}] |}
           {| rg_rows := [rec_short]; rg_hash_statistics := hash_statistics [rec_short] |}
           rec_short 2).
  - reflexivity.
  - left; reflexivity.
  - left; reflexivity.
  - unfold rec_short, rec_of; simpl. repeat constructor; unfold is_byte; lia.
  - intros mn mx H. vm_compute in H. injection H as <- <-. vm_compute. repeat split; lia.
  - simpl; lia.
  - left; reflexivity.
Defined.

(** C1 (counterexample).  Two artifacts written by [write_batch] and [finish]:
    - [rec_long] (32 bytes) and [rec_short] (16 bytes) share a row group, and
      the query on the first byte of [rec_long] misses it;
    - [rec_sha512] (64 bytes) is missed by the query on its first 32 bytes,
      because the filter is probed with the 32-byte prefix, while the queries on
      its first 31 bytes and on the whole hash return it. *)
Lemma query_prefix_misses_record :
  for_each_record mixed_disk (ParquetStorage_new db_path keys0) collect_record []
    = Ok [rec_long; rec_short] /\
  query mixed_disk (ParquetStorage_new db_path keys0) (firstn 1 (hash rec_long)) None None = Ok [] /\
  for_each_record sha512_disk (ParquetStorage_new db_path keys0) collect_record [] = Ok [rec_sha512] /\
  query sha512_disk (ParquetStorage_new db_path keys0) (firstn 32 (hash rec_sha512)) None None = Ok [] /\
  query sha512_disk (ParquetStorage_new db_path keys0) (firstn 31 (hash rec_sha512)) None None
    = Ok [rec_sha512] /\
  query sha512_disk (ParquetStorage_new db_path keys0) (hash rec_sha512) None None = Ok [rec_sha512].
Proof. repeat match goal with |- _ /\ _ => split end; vm_compute; reflexivity. Qed.

(** ** The result limit *)

Lemma scan_rows_limit_bound : forall n rows prefix algo acc,
  (length acc < n)%nat -> (length (scan_rows rows prefix algo (Some n) acc) <= n)%nat.
Proof.
  intros n rows; induction rows as [|r rows IH]; intros prefix algo acc H; simpl; [lia|].
  destruct (negb (starts_with (hash r) prefix)); [apply IH; exact H|].
  destruct (algo_rejects algo (algorithm r)); [apply IH; exact H|].
  unfold limit_reached. rewrite length_app; simpl.
  destruct (Nat.leb_spec n (length acc + 1)).
  - rewrite length_app; simpl; lia.
  - apply IH. rewrite length_app; simpl; lia.
Qed.

(** A positive limit bounds the result. *)
Lemma query_limit_bound : forall d s prefix algo n l,
  (1 <= n)%nat -> query d s prefix algo (Some n) = Ok l -> (length l <= n)%nat.
Proof.
  intros d s prefix algo n l Hn Hq. unfold query in Hq.
  destruct (negb (path_exists d (ps_path s))); [injection Hq as <-; simpl; lia|].
  destruct (bloom_gate d s prefix) as [pass| |]; cbn [obind] in Hq; try discriminate.
  destruct (negb pass); [injection Hq as <-; simpl; lia|].
  destruct (open_parquet d (ps_path s)) as [pf| |]; cbn [obind] in Hq; try discriminate.
  destruct (matching_row_groups prefix pf) as [|i sel]; injection Hq as <-; [simpl; lia|].
  apply scan_rows_limit_bound; simpl; lia.
Qed.

(** C2 (code bug).  With limit [0] the row loop pushes a match before it tests
    the limit: the query on the artifact [mixed_disk] returns one record. *)
Theorem query_limit_zero_returns_record :
  query mixed_disk (ParquetStorage_new db_path keys0) [] None (Some 0%nat) = Ok [rec_long].
Proof. vm_compute; reflexivity. Qed.

(** ** The membership filter through the metadata *)

Lemma triple_ind : forall (P : bytes -> Prop),
  P [] -> (forall a, P [a]) -> (forall a b, P [a; b]) ->
  (forall a b c rest, P rest -> P (a :: b :: c :: rest)) -> forall l, P l.
Proof.
  intros P H0 H1 H2 H3. fix F 1. intros [|a [|b [|c rest]]].
  - exact H0.
  - exact (H1 a).
  - exact (H2 a b).
  - exact (H3 a b c rest (F rest)).
Qed.

Lemma b64_encode_rev_acc : forall bs acc, b64_encode_rev bs acc = b64_encode_rev bs [] ++ acc.
Proof.
  intros bs. pattern bs. apply triple_ind; clear bs.
  - reflexivity.
  - intros a acc. reflexivity.
  - intros a b acc. reflexivity.
  - intros a b c rest IH acc. cbn [b64_encode_rev].
    rewrite (IH (_ :: _ :: _ :: _ :: acc)), (IH [_; _; _; _]), <- app_assoc. reflexivity.
Qed.

Lemma b64_char_ok : forall x, 0 <= x < 64 ->
  b64_val (b64_char x) = Some x /\ is_pad (b64_char x) = false.
Proof.
  intros x Hx.
  assert (H : forallb (fun n => match b64_val (b64_char (Z.of_nat n)) with
                                | Some y => (y =? Z.of_nat n) && negb (is_pad (b64_char (Z.of_nat n)))
                                | None => false end) (seq 0 64) = true) by reflexivity.
  rewrite forallb_forall in H. specialize (H (Z.to_nat x)).
  rewrite in_seq, Z2Nat.id in H by lia.
  destruct (b64_val (b64_char x)) as [y|]; [|discriminate H; lia].
  destruct (Z.eqb_spec y x); [|discriminate H; lia].
  destruct (is_pad (b64_char x)); [discriminate H; lia|]. subst; auto.
Qed.

Lemma lor_shiftl_add : forall x y k, 0 <= k -> 0 <= x -> 0 <= y < 2 ^ k ->
  Z.lor (Z.shiftl x k) y = x * 2 ^ k + y.
Proof.
  intros x y k Hk Hx Hy. rewrite Z.shiftl_mul_pow2 by lia.
  rewrite <- Z.lxor_lor, <- Z.add_nocarry_lxor; [reflexivity| |];
  apply Z.bits_inj_0; intros m; rewrite Z.land_spec;
  (destruct (Z_lt_le_dec m k) as [Hm|Hm];
   [rewrite Z.mul_pow2_bits_low by lia; reflexivity
   |rewrite <- (Z.mod_small y (2 ^ k)) by lia; rewrite Z.mod_pow2_bits_high by lia;
    apply andb_false_r]).
Qed.

Lemma shiftr_div : forall x k, 0 <= k -> Z.shiftr x k = x / 2 ^ k.
Proof. intros; apply Z.shiftr_div_pow2; lia. Qed.

Lemma land_mod : forall x k, 0 <= k -> Z.land x (Z.ones k) = x mod 2 ^ k.
Proof. intros; apply Z.land_ones; lia. Qed.

Ltac b64_arith :=
  repeat first
    [ rewrite lor_shiftl_add by (try rewrite ?shiftr_div, ?land_mod by lia; cbn -[Z.div Z.modulo]; lia)
    | rewrite shiftr_div by lia
    | rewrite (land_mod _ 6) by lia
    | rewrite (land_mod _ 4) by lia
    | rewrite (land_mod _ 2) by lia ].

Lemma b64_triple : forall a b c, is_byte a -> is_byte b -> is_byte c ->
  forall n, n = Z.lor (Z.shiftl a 16) (Z.lor (Z.shiftl b 8) c) ->
  0 <= Z.shiftr n 18 < 64 /\ 0 <= Z.land (Z.shiftr n 12) 63 < 64 /\
  0 <= Z.land (Z.shiftr n 6) 63 < 64 /\ 0 <= Z.land n 63 < 64 /\
  quad (Z.shiftr n 18) (Z.land (Z.shiftr n 12) 63) (Z.land (Z.shiftr n 6) 63) (Z.land n 63)
  = [a; b; c].
Proof.
  unfold is_byte; intros a b c Ha Hb Hc n Hn.
  assert (En : n = a * 65536 + b * 256 + c).
  { subst n. rewrite (lor_shiftl_add b c 8), (lor_shiftl_add a _ 16); cbn; lia. }
  clear Hn. subst n. unfold quad. change 63 with (Z.ones 6). change 15 with (Z.ones 4).
  change 3 with (Z.ones 2).
  rewrite !land_mod, !shiftr_div by lia. cbn [Z.pow Z.pow_pos Pos.iter Z.mul Pos.mul].
  rewrite !lor_shiftl_add; cbn; try lia.
  all: try (Z.to_euclidean_division_equations; lia).
  refine (conj _ (conj _ (conj _ (conj _ _)))); try (Z.to_euclidean_division_equations; lia).
  repeat f_equal; Z.to_euclidean_division_equations; lia.
Qed.

Ltac b64_solve :=
  change 63 with (Z.ones 6) in *; change 15 with (Z.ones 4) in *; change 3 with (Z.ones 2) in *;
  rewrite ?land_mod, ?shiftr_div by lia; cbn [Z.pow Z.pow_pos Pos.iter Z.mul Pos.mul];
  rewrite ?lor_shiftl_add; cbn [Z.pow Z.pow_pos Pos.iter Z.mul Pos.mul];
  try (Z.to_euclidean_division_equations; lia).

Lemma b64_pair : forall a b, is_byte a -> is_byte b ->
  forall n, n = Z.lor (Z.shiftl a 16) (Z.shiftl b 8) ->
  0 <= Z.shiftr n 18 < 64 /\ 0 <= Z.land (Z.shiftr n 12) 63 < 64 /\
  0 <= Z.land (Z.shiftr n 6) 63 < 64 /\ Z.land (Z.land (Z.shiftr n 6) 63) 3 = 0 /\
  Z.lor (Z.shiftl (Z.land (Z.land (Z.shiftr n 12) 63) 15) 4) (Z.shiftr (Z.land (Z.shiftr n 6) 63) 2) = b /\
  Z.lor (Z.shiftl (Z.shiftr n 18) 2) (Z.shiftr (Z.land (Z.shiftr n 12) 63) 4) = a.
Proof.
  unfold is_byte; intros a b Ha Hb n Hn.
  assert (En : n = a * 65536 + b * 256).
  { subst n. rewrite (Z.shiftl_mul_pow2 b 8), (lor_shiftl_add a _ 16) by (cbn; lia); cbn; lia. }
  clear Hn. subst n.
  refine (conj _ (conj _ (conj _ (conj _ (conj _ _))))); b64_solve.
Qed.

Lemma b64_single : forall a, is_byte a ->
  forall n, n = Z.shiftl a 16 ->
  0 <= Z.shiftr n 18 < 64 /\ 0 <= Z.land (Z.shiftr n 12) 63 < 64 /\
  Z.land (Z.land (Z.shiftr n 12) 63) 15 = 0 /\
  Z.lor (Z.shiftl (Z.shiftr n 18) 2) (Z.shiftr (Z.land (Z.shiftr n 12) 63) 4) = a.
Proof.
  unfold is_byte; intros a Ha n Hn.
  assert (En : n = a * 65536) by (subst n; rewrite Z.shiftl_mul_pow2 by lia; cbn; lia).
  clear Hn. subst n.
  refine (conj _ (conj _ (conj _ _))); b64_solve.
Qed.

Lemma b64_decode_encode : forall bs acc, Forall is_byte bs ->
  b64_decode_rev (rev (b64_encode_rev bs [])) acc = Some (rev bs ++ acc).
Proof.
  intros bs. pattern bs. apply triple_ind; clear bs.
  - reflexivity.
  - intros a acc Hb. inversion Hb as [|? ? Ha _]; subst.
    destruct (b64_single a Ha _ eq_refl) as (H1 & H2 & H3 & H4).
    destruct (b64_char_ok _ H1) as [V1 _]. destruct (b64_char_ok _ H2) as [V2 _].
    cbn [b64_encode_rev rev app b64_decode_rev]. rewrite V1, V2.
    change (is_pad "="%char && is_pad "="%char) with true. cbn iota beta.
    rewrite H3, H4. reflexivity.
  - intros a b acc Hb. inversion Hb as [|? ? Ha Hb']; subst. inversion Hb' as [|? ? Hb2 _]; subst.
    destruct (b64_pair a b Ha Hb2 _ eq_refl) as (H1 & H2 & H3 & H4 & H5 & H6).
    destruct (b64_char_ok _ H1) as [V1 _]. destruct (b64_char_ok _ H2) as [V2 _].
    destruct (b64_char_ok _ H3) as [V3 P3].
    cbn [b64_encode_rev rev app b64_decode_rev]. rewrite V1, V2, P3.
    change (is_pad "="%char) with true. cbn iota beta. rewrite V3, H4. cbn iota beta.
    rewrite H5, H6. reflexivity.
  - intros a b c rest IH acc Hb.
    inversion Hb as [|? ? Ha Hb1]; subst. inversion Hb1 as [|? ? Hb2 Hb3]; subst.
    inversion Hb3 as [|? ? Hc Hr]; subst.
    destruct (b64_triple a b c Ha Hb2 Hc _ eq_refl) as (H1 & H2 & H3 & H4 & H5).
    destruct (b64_char_ok _ H1) as [V1 _]. destruct (b64_char_ok _ H2) as [V2 _].
    destruct (b64_char_ok _ H3) as [V3 P3]. destruct (b64_char_ok _ H4) as [V4 P4].
    cbn [b64_encode_rev]. rewrite b64_encode_rev_acc, rev_app_distr.
    cbn [rev app b64_decode_rev]. rewrite V1, V2.
    destruct (rev (b64_encode_rev rest [])) as [|r0 R] eqn:ER.
    + rewrite P3, P4. cbn iota beta. rewrite V3, V4, H5. cbn.
      specialize (IH (c :: b :: a :: acc) Hr). rewrite ?ER in IH. cbn in IH.
      injection IH as IH.
      assert (Hrest : rev rest = []).
      { destruct (rev rest) as [|x t]; [reflexivity|].
        apply (f_equal (@length Z)) in IH. cbn in IH. rewrite length_app in IH. cbn in IH. lia. }
      rewrite Hrest. reflexivity.
    + rewrite V3, V4, H5. cbn [rev_append]. rewrite IH by exact Hr.
      cbn. rewrite <- !app_assoc. reflexivity.
Qed.

Lemma chars_rev_string_of_rev : forall l s acc, chars_rev (string_of_rev l s) acc = chars_rev s (l ++ acc).
Proof. induction l as [|c t IH]; intros s acc; [reflexivity|]. cbn [string_of_rev]. rewrite IH. reflexivity. Qed.

Lemma BASE64_roundtrip : forall bs, Forall is_byte bs -> BASE64_decode (BASE64_encode bs) = Some bs.
Proof.
  intros bs Hb. unfold BASE64_decode, BASE64_encode.
  rewrite chars_rev_string_of_rev. cbn [chars_rev].
  rewrite app_nil_r, rev_append_rev, app_nil_r, b64_decode_encode by exact Hb.
  rewrite app_nil_r, rev_append_rev, app_nil_r, rev_involutive. reflexivity.
Qed.

(** Bit access *)

Lemma upd_nth_acc_app : forall l n f acc, upd_nth_acc l n f acc = rev acc ++ upd_nth l n f.
Proof.
  unfold upd_nth. induction l as [|x t IH]; intros [|n] f acc; cbn [upd_nth_acc];
    rewrite ?rev_append_rev; cbn; rewrite ?app_nil_r; try reflexivity.
  rewrite (IH n f (x :: acc)), (IH n f [x]). cbn. rewrite <- app_assoc. reflexivity.
Qed.

Lemma upd_nth_length : forall l n f, length (upd_nth l n f) = length l.
Proof.
  unfold upd_nth. induction l as [|x t IH]; intros [|n] f; cbn [upd_nth_acc]; try reflexivity.
  rewrite upd_nth_acc_app, length_app. cbn [rev app length]. unfold upd_nth in IH |- *.
  rewrite IH. reflexivity.
Qed.

Lemma upd_nth_nth : forall l n f m,
  nth_error (upd_nth l n f) m = if Nat.eqb n m then option_map f (nth_error l m) else nth_error l m.
Proof.
  unfold upd_nth. induction l as [|x t IH]; intros n f m.
  - destruct (Nat.eqb n m), m; reflexivity.
  - destruct n as [|n]; cbn [upd_nth_acc].
    + rewrite rev_append_rev. destruct m; reflexivity.
    + rewrite upd_nth_acc_app. destruct m as [|m]; [reflexivity|].
      cbn [rev app nth_error]. unfold upd_nth in IH |- *. rewrite IH. reflexivity.
Qed.

Lemma bitvec_set_length : forall bv i, length (bitvec_set bv i) = length bv.
Proof. intros; apply upd_nth_length. Qed.

Lemma bitvec_set_get : forall bv i j, 0 <= i -> 0 <= j -> j / 8 < Z.of_nat (length bv) ->
  bitvec_get (bitvec_set bv i) j = if i =? j then Some true else bitvec_get bv j.
Proof.
  intros bv i j Hi Hj Hl. unfold bitvec_get, bitvec_set.
  destruct (Z.ltb_spec j 0); [lia|]. rewrite upd_nth_nth.
  assert (Hn : (Z.to_nat (j / 8) < length bv)%nat) by (apply Nat2Z.inj_lt; rewrite Z2Nat.id by (apply Z.div_pos; lia); exact Hl).
  destruct (nth_error bv (Z.to_nat (j / 8))) as [byte|] eqn:E;
    [|apply nth_error_None in E; lia].
  destruct (Nat.eqb_spec (Z.to_nat (i / 8)) (Z.to_nat (j / 8))) as [Hq|Hq].
  - assert (Hq' : i / 8 = j / 8) by (apply Z2Nat.inj in Hq; try apply Z.div_pos; lia).
    cbn [option_map]. rewrite Z.lor_spec, Z.shiftl_1_l, Z.pow2_bits_eqb
      by (pose proof (Z.mod_pos_bound i 8); lia).
    destruct (Z.eqb_spec i j) as [->|Hne].
    + rewrite Z.eqb_refl, orb_true_r. reflexivity.
    + assert (Hm : 7 - i mod 8 <> 7 - j mod 8).
      { intros Hc. apply Hne. rewrite (Z.div_mod i 8), (Z.div_mod j 8) by lia. lia. }
      apply Z.eqb_neq in Hm. rewrite Hm, orb_false_r. reflexivity.
  - destruct (Z.eqb_spec i j) as [->|]; [congruence|reflexivity].
Qed.

Lemma bloom_positions_ext : forall fuel b b' hs item k,
  sip_keys b = sip_keys b' -> bitmap_bits b = bitmap_bits b' ->
  bloom_positions fuel b hs item k = bloom_positions fuel b' hs item k.
Proof.
  induction fuel as [|fuel IH]; intros b b' hs item k Hk Hb; [reflexivity|].
  cbn [bloom_positions]. unfold bloom_hash. rewrite Hk, Hb.
  destruct (k =? 0); [|destruct (k =? 1)]; cbn; f_equal; apply IH; assumption.
Qed.

Lemma bloom_set_loop_length : forall fuel b bv hs item k,
  length (bloom_set_loop fuel b bv hs item k) = length bv.
Proof.
  induction fuel as [|fuel IH]; intros b bv hs item k; [reflexivity|].
  cbn [bloom_set_loop]. destruct (bloom_hash b hs item k). rewrite IH. apply bitvec_set_length.
Qed.

Lemma bloom_set_loop_get : forall fuel b bv hs item k j,
  0 < bitmap_bits b -> 0 <= j -> j / 8 < Z.of_nat (length bv) ->
  bitvec_get (bloom_set_loop fuel b bv hs item k) j =
  if existsb (Z.eqb j) (bloom_positions fuel b hs item k) then Some true else bitvec_get bv j.
Proof.
  induction fuel as [|fuel IH]; intros b bv hs item k j Hb Hj Hl; [reflexivity|].
  cbn [bloom_set_loop bloom_positions]. destruct (bloom_hash b hs item k) as [h hs'].
  rewrite IH by (rewrite ?bitvec_set_length; assumption).
  pose proof (Z.mod_pos_bound h (bitmap_bits b) Hb).
  rewrite bitvec_set_get by (lia || assumption). cbn [existsb].
  rewrite (Z.eqb_sym j). destruct (h mod bitmap_bits b =? j); cbn;
    destruct (existsb (Z.eqb j) (bloom_positions fuel b hs' item (k + 1))); reflexivity.
Qed.

Lemma bloom_set_length : forall b item, length (bit_vec (bloom_set b item)) = length (bit_vec b).
Proof. intros; apply bloom_set_loop_length. Qed.

Lemma fold_bloom_set_fields : forall items b,
  bitmap_bits (fold_left bloom_set items b) = bitmap_bits b /\
  k_num (fold_left bloom_set items b) = k_num b /\
  sip_keys (fold_left bloom_set items b) = sip_keys b /\
  length (bit_vec (fold_left bloom_set items b)) = length (bit_vec b).
Proof.
  induction items as [|x t IH]; intros b; [repeat split|].
  cbn [fold_left]. destruct (IH (bloom_set b x)) as (H1 & H2 & H3 & H4).
  rewrite H1, H2, H3, H4, bloom_set_length. repeat split.
Qed.

Lemma fold_bloom_set_get : forall items b j,
  0 < bitmap_bits b -> 0 <= j -> j / 8 < Z.of_nat (length (bit_vec b)) ->
  bitvec_get (bit_vec (fold_left bloom_set items b)) j =
  if existsb (Z.eqb j) (flat_map (positions b) items) then Some true else bitvec_get (bit_vec b) j.
Proof.
  induction items as [|x t IH]; intros b j Hb Hj Hl; [reflexivity|].
  cbn [fold_left flat_map]. rewrite IH by (rewrite ?bloom_set_length; cbn [bloom_set bitmap_bits]; assumption).
  replace (flat_map (positions (bloom_set b x)) t) with (flat_map (positions b) t)
    by (apply flat_map_ext; intros y; apply bloom_positions_ext; reflexivity).
  rewrite existsb_app. unfold bloom_set. cbn [bit_vec].
  rewrite bloom_set_loop_get by assumption.
  change (bloom_positions (Z.to_nat (k_num b)) b (0, 0) x 0) with (positions b x).
  destruct (existsb (Z.eqb j) (positions b x));
    destruct (existsb (Z.eqb j) (flat_map (positions b) t)); reflexivity.
Qed.

Lemma bloom_check_loop_spec : forall fuel b hs item k (g : Z -> bool),
  0 < bitmap_bits b ->
  (forall j, 0 <= j < bitmap_bits b -> bitvec_get (bit_vec b) j = Some (g j)) ->
  bloom_check_loop fuel b hs item k = Ok (forallb g (bloom_positions fuel b hs item k)).
Proof.
  induction fuel as [|fuel IH]; intros b hs item k g Hb Hg; [reflexivity|].
  cbn [bloom_check_loop bloom_positions]. destruct (bloom_hash b hs item k) as [h hs'].
  destruct (Z.eqb_spec (bitmap_bits b) 0); [lia|].
  rewrite Hg by (apply Z.mod_pos_bound; exact Hb).
  cbn [forallb]. destruct (g (h mod bitmap_bits b)); [apply IH; assumption|reflexivity].
Qed.

Lemma zero_bytes_app : forall n acc, zero_bytes n acc = repeat 0 n ++ acc.
Proof.
  induction n as [|n IH]; intros acc; [reflexivity|]. cbn [zero_bytes]. rewrite IH.
  change (0 :: acc) with ([0] ++ acc). rewrite app_assoc, <- repeat_cons. reflexivity.
Qed.

Lemma zero_bytes_get : forall n j, 0 <= j -> j / 8 < Z.of_nat n ->
  bitvec_get (zero_bytes n []) j = Some false.
Proof.
  intros n j Hj Hl. unfold bitvec_get. destruct (Z.ltb_spec j 0); [lia|].
  rewrite zero_bytes_app, app_nil_r.
  rewrite nth_error_repeat by (apply Nat2Z.inj_lt; rewrite Z2Nat.id by (apply Z.div_pos; lia); exact Hl).
  rewrite Z.testbit_0_l. reflexivity.
Qed.

(** ** Writing and reloading the filter *)

Lemma lor_byte : forall a b, is_byte a -> is_byte b -> is_byte (Z.lor a b).
Proof.
  unfold is_byte. intros a b Ha Hb. split; [apply Z.lor_nonneg; lia|].
  destruct (Z.eq_dec (Z.lor a b) 0) as [->|Hn]; [lia|].
  assert (H0 : 0 < Z.lor a b) by (pose proof (Z.lor_nonneg a b); lia).
  enough (Z.lor a b < 2 ^ 8) by (cbn in *; lia).
  apply Z.log2_lt_pow2; [exact H0|]. rewrite Z.log2_lor by lia.
  apply Z.max_lub_lt; (destruct (Z.eq_dec a 0) as [->|]; [cbn; lia|]) ||
    (destruct (Z.eq_dec b 0) as [->|]; [cbn; lia|]);
    apply Z.log2_lt_pow2; cbn; lia.
Qed.

Lemma upd_nth_Forall : forall (P : Z -> Prop) l n f,
  Forall P l -> (forall x, P x -> P (f x)) -> Forall P (upd_nth l n f).
Proof.
  unfold upd_nth. intros P l. induction l as [|x t IH]; intros n f Hl Hf; [constructor|].
  inversion Hl as [|? ? Hx Ht]; subst. destruct n as [|n]; cbn [upd_nth_acc].
  - rewrite rev_append_rev. cbn. constructor; auto.
  - rewrite upd_nth_acc_app. cbn. constructor; auto. apply IH; assumption.
Qed.

Lemma bitvec_set_bytes : forall bv i, Forall is_byte bv -> Forall is_byte (bitvec_set bv i).
Proof.
  intros bv i Hb. apply upd_nth_Forall; [exact Hb|]. intros x Hx. apply lor_byte; [exact Hx|].
  pose proof (Z.mod_pos_bound i 8).
  rewrite Z.shiftl_1_l. unfold is_byte. split; [apply Z.pow_nonneg; lia|].
  apply Z.le_trans with (2 ^ 7); [apply Z.pow_le_mono_r; lia|cbn; lia].
Qed.

Lemma bloom_set_loop_bytes : forall fuel b bv hs item k,
  Forall is_byte bv -> Forall is_byte (bloom_set_loop fuel b bv hs item k).
Proof.
  induction fuel as [|fuel IH]; intros b bv hs item k Hb; [exact Hb|].
  cbn [bloom_set_loop]. destruct (bloom_hash b hs item k). apply IH, bitvec_set_bytes, Hb.
Qed.

Lemma fold_bloom_set_bytes : forall items b,
  Forall is_byte (bit_vec b) -> Forall is_byte (bit_vec (fold_left bloom_set items b)).
Proof.
  induction items as [|x t IH]; intros b Hb; [exact Hb|]. cbn [fold_left].
  apply IH, bloom_set_loop_bytes, Hb.
Qed.

Lemma len_acc_length : forall l n, len_acc l n = n + Z.of_nat (length l).
Proof. induction l as [|x t IH]; intros n; cbn [len_acc length]; [lia|]. rewrite IH. lia. Qed.

Lemma byte_len_length : forall l, byte_len l = Z.of_nat (length l).
Proof. intros l. unfold byte_len. rewrite len_acc_length. lia. Qed.

Lemma fold_collect_one_bloom : forall records ws,
  ws_bloom (fold_left collect_one records ws) = fold_left bloom_set (map hash records) (ws_bloom ws).
Proof. induction records as [|r t IH]; intros ws; [reflexivity|]. cbn [fold_left map]. apply IH. Qed.

Lemma fold_collect_one_total : forall records ws,
  ws_total_records (fold_left collect_one records ws) = ws_total_records ws.
Proof. induction records as [|r t IH]; intros ws; [reflexivity|]. cbn [fold_left]. rewrite IH. reflexivity. Qed.

Lemma collect_stats_bloom : forall s records,
  ws_bloom (write_stats (collect_stats s records)) =
  fold_left bloom_set (map hash records) (ws_bloom (write_stats s)).
Proof. intros. unfold collect_stats. cbn [write_stats set_write_stats]. rewrite fold_collect_one_bloom. reflexivity. Qed.

Lemma collect_stats_total : forall s records,
  ws_total_records (write_stats (collect_stats s records)) =
  ws_total_records (write_stats s) + Z.of_nat (length records).
Proof. intros. unfold collect_stats. cbn [write_stats set_write_stats]. apply fold_collect_one_total. Qed.

Lemma write_batch_fresh : forall d s records, writer s = None -> records <> [] ->
  write_batch d s records =
  Ok (disk_put d (ps_path s) None, set_writer (collect_stats s records) (Some (aw_write ArrowWriter_try_new records))).
Proof.
  intros d s [|r rs] Hw Hr; [congruence|]. unfold write_batch, ensure_writer.
  change (writer (collect_stats s (r :: rs))) with (writer s). rewrite Hw. reflexivity.
Qed.

Lemma finish_open : forall d s w, writer s = Some w ->
  finish d s = Ok (aw_close d (ps_path s) (fold_left append_key_value_metadata (finish_metadata (write_stats s)) w),
                   set_writer s None).
Proof. intros d s w Hw. unfold finish. rewrite Hw. reflexivity. Qed.

Lemma aw_kv_fold : forall l w, aw_kv (fold_left append_key_value_metadata l w) = aw_kv w ++ l.
Proof.
  induction l as [|k l IH]; intros w; [rewrite app_nil_r; reflexivity|].
  cbn [fold_left]. rewrite IH. cbn. rewrite <- app_assoc. reflexivity.
Qed.

Lemma path_exists_aw_close : forall d p w, path_exists (aw_close d p w) p = true.
Proof. intros. unfold path_exists, aw_close, disk_put. rewrite String.eqb_refl. reflexivity. Qed.

Lemma bloom_meta_loop_other : forall e rest acc,
  String.eqb (key e) META_BLOOM_BITMAP = false -> String.eqb (key e) META_BLOOM_KEYS = false ->
  String.eqb (key e) META_BLOOM_ITEMS = false ->
  bloom_meta_loop (e :: rest) acc = bloom_meta_loop rest acc.
Proof. intros e rest acc H1 H2 H3. cbn [bloom_meta_loop]. rewrite H1, H2, H3. reflexivity. Qed.

Lemma bloom_meta_loop_bitmap : forall v b rest acc, BASE64_decode v = Some b ->
  bloom_meta_loop (kv META_BLOOM_BITMAP v :: rest) acc =
  bloom_meta_loop rest {| bm_bitmap := Some b; bm_keys := bm_keys acc; bm_items_count := bm_items_count acc |}.
Proof. intros v b rest acc H. cbn [bloom_meta_loop kv key value]. rewrite String.eqb_refl, H. reflexivity. Qed.

Lemma bloom_meta_loop_keys : forall v p0 p1 p2 p3 rest acc,
  filter_map parse_u64 (split_on ","%char v) = [p0; p1; p2; p3] ->
  bloom_meta_loop (kv META_BLOOM_KEYS v :: rest) acc =
  bloom_meta_loop rest {| bm_bitmap := bm_bitmap acc; bm_keys := Some ((p0, p1), (p2, p3));
                          bm_items_count := bm_items_count acc |}.
Proof.
  intros v p0 p1 p2 p3 rest acc H. cbn [bloom_meta_loop kv key value].
  replace (String.eqb META_BLOOM_KEYS META_BLOOM_BITMAP) with false by reflexivity.
  rewrite String.eqb_refl, H. reflexivity.
Qed.

Lemma bloom_meta_loop_items : forall v rest acc,
  bloom_meta_loop (kv META_BLOOM_ITEMS v :: rest) acc =
  bloom_meta_loop rest {| bm_bitmap := bm_bitmap acc; bm_keys := bm_keys acc;
                          bm_items_count := parse_u32 v |}.
Proof.
  intros v rest acc. cbn [bloom_meta_loop kv key value].
  replace (String.eqb META_BLOOM_ITEMS META_BLOOM_BITMAP) with false by reflexivity.
  replace (String.eqb META_BLOOM_ITEMS META_BLOOM_KEYS) with false by reflexivity.
  rewrite String.eqb_refl. reflexivity.
Qed.

Lemma load_bloom_filter_finished : forall d p w ws st n,
  aw_kv w = [] -> ps_path st = p ->
  Forall is_byte (bit_vec (ws_bloom ws)) ->
  parse_u32 (to_dec_string (ws_total_records ws)) = Some n ->
  (let keys := sip_keys (ws_bloom ws) in
   filter_map parse_u64 (split_on ","%char (join ","
     [to_dec_string (fst (fst keys)); to_dec_string (snd (fst keys));
      to_dec_string (fst (snd keys)); to_dec_string (snd (snd keys))]))
   = [fst (fst keys); snd (fst keys); fst (snd keys); snd (snd keys)]) ->
  load_bloom_filter (aw_close d p (fold_left append_key_value_metadata (finish_metadata ws) w)) st
  = Ok (Some (from_existing (bit_vec (ws_bloom ws)) (byte_len (bit_vec (ws_bloom ws)) * 8) n
                            (sip_keys (ws_bloom ws)))).
Proof.
  intros d p w ws st n Hkv Hp Hb Hn Hk. cbv zeta in Hk.
  unfold load_bloom_filter, open_parquet, aw_close, disk_put. rewrite Hp, String.eqb_refl.
  cbn [obind key_value_metadata]. rewrite aw_kv_fold, Hkv, app_nil_l.
  unfold finish_metadata.
  destruct ws as [tr al so sh [bv bits k [[k1 k2] [k3 k4]]]];
    cbn [ws_bloom bit_vec sip_keys fst snd ws_total_records ws_source_hashes] in *.
  rewrite <- !app_comm_cons.
  rewrite !bloom_meta_loop_other by reflexivity.
  rewrite (bloom_meta_loop_bitmap _ bv) by exact (BASE64_roundtrip bv Hb).
  rewrite (bloom_meta_loop_keys _ k1 k2 k3 k4) by exact Hk.
  rewrite bloom_meta_loop_items. rewrite Hn. cbn [app].
  destruct sh as [|h t].
  - reflexivity.
  - rewrite bloom_meta_loop_other by reflexivity. reflexivity.
Qed.

Lemma bloom_check_over : forall items b0 b item,
  0 < bitmap_bits b0 -> Z.of_nat (length (bit_vec b0)) * 8 = bitmap_bits b0 ->
  (forall j, 0 <= j < bitmap_bits b0 -> bitvec_get (bit_vec b0) j = Some false) ->
  bit_vec b = bit_vec (fold_left bloom_set items b0) -> bitmap_bits b = bitmap_bits b0 ->
  sip_keys b = sip_keys b0 ->
  bloom_check b item = Ok (forallb (fun j => existsb (Z.eqb j) (flat_map (positions b0) items))
                                   (bloom_positions (Z.to_nat (k_num b)) b0 (0, 0) item 0)).
Proof.
  intros items b0 b item Hpos Hlen Hz Hbv Hbits Hkeys. unfold bloom_check.
  rewrite (bloom_check_loop_spec _ _ _ _ _ (fun j => existsb (Z.eqb j) (flat_map (positions b0) items))).
  - do 2 f_equal. apply bloom_positions_ext; assumption.
  - rewrite Hbits; exact Hpos.
  - intros j Hj. rewrite Hbits in Hj. rewrite Hbv.
    rewrite fold_bloom_set_get by (try lia; apply Z.div_lt_upper_bound; lia).
    rewrite Hz by lia. destruct (existsb _ _); reflexivity.
Qed.

Lemma words_written_eq : words_written =
  (disk_put empty_disk db_path None,
   set_writer (collect_stats words_store word_records) (Some (aw_write ArrowWriter_try_new word_records))).
Proof.
  unfold words_written. rewrite write_batch_fresh; [reflexivity|reflexivity|].
  unfold word_records, sha256_words. cbn [map]. discriminate.
Qed.

Lemma words_map_hash : map hash word_records = sha256_words.
Proof. unfold word_records. rewrite map_map. apply map_id. Qed.

Lemma words_bloom_fold : words_bloom = fold_left bloom_set sha256_words (ws_bloom (write_stats words_store)).
Proof.
  unfold words_bloom. rewrite words_written_eq. cbn [snd]. unfold set_writer. cbn [write_stats].
  rewrite collect_stats_bloom, words_map_hash. reflexivity.
Qed.

Lemma fresh_bloom_fields :
  bitmap_bits (ws_bloom (write_stats words_store)) = 9585064 /\
  k_num (ws_bloom (write_stats words_store)) = 7 /\
  sip_keys (ws_bloom (write_stats words_store)) = keys0 /\
  bit_vec (ws_bloom (write_stats words_store)) = zero_bytes (Z.to_nat 1198133) [].
Proof. refine (conj _ (conj _ (conj _ _))); reflexivity. Qed.

Lemma words_disk_eq : words_disk =
  aw_close (disk_put empty_disk db_path None) db_path
    (fold_left append_key_value_metadata (finish_metadata (write_stats (snd words_written)))
       (aw_write ArrowWriter_try_new word_records)).
Proof.
  unfold words_disk. rewrite (finish_open _ _ (aw_write ArrowWriter_try_new word_records))
    by (rewrite words_written_eq; reflexivity).
  rewrite words_written_eq at 1 2. reflexivity.
Qed.

Lemma fresh_bloom_length :
  Z.of_nat (length (bit_vec (ws_bloom (write_stats words_store)))) * 8
  = bitmap_bits (ws_bloom (write_stats words_store)).
Proof.
  destruct fresh_bloom_fields as (F1 & _ & _ & F4).
  rewrite F4, F1, zero_bytes_app, app_nil_r, repeat_length, Z2Nat.id by lia. lia.
Qed.

Lemma fresh_bloom_zero : forall j, 0 <= j < bitmap_bits (ws_bloom (write_stats words_store)) ->
  bitvec_get (bit_vec (ws_bloom (write_stats words_store))) j = Some false.
Proof.
  destruct fresh_bloom_fields as (F1 & _ & _ & F4).
  intros j Hj. rewrite F4. rewrite F1 in Hj. apply zero_bytes_get; [lia|]. rewrite Z2Nat.id by lia.
  apply Z.div_lt_upper_bound; lia.
Qed.

Lemma words_bloom_fields :
  bitmap_bits words_bloom = bitmap_bits (ws_bloom (write_stats words_store)) /\
  k_num words_bloom = k_num (ws_bloom (write_stats words_store)) /\
  sip_keys words_bloom = sip_keys (ws_bloom (write_stats words_store)) /\
  length (bit_vec words_bloom) = length (bit_vec (ws_bloom (write_stats words_store))).
Proof. rewrite words_bloom_fold. apply fold_bloom_set_fields. Qed.

Lemma words_bloom_check : forall b item,
  bit_vec b = bit_vec words_bloom -> bitmap_bits b = bitmap_bits words_bloom ->
  sip_keys b = sip_keys words_bloom ->
  bloom_check b item =
  Ok (forallb (fun j => existsb (Z.eqb j)
                          (flat_map (positions (ws_bloom (write_stats words_store))) sha256_words))
              (bloom_positions (Z.to_nat (k_num b)) (ws_bloom (write_stats words_store)) (0, 0) item 0)).
Proof.
  destruct words_bloom_fields as (G1 & _ & G3 & _).
  intros b item H1 H2 H3. apply bloom_check_over.
  - destruct fresh_bloom_fields as (F1 & _). rewrite F1; lia.
  - exact fresh_bloom_length.
  - exact fresh_bloom_zero.
  - rewrite H1, words_bloom_fold. reflexivity.
  - rewrite H2, G1. reflexivity.
  - rewrite H3, G3. reflexivity.
Qed.

Lemma words_bloom_map : forall b,
  bit_vec b = bit_vec words_bloom -> bitmap_bits b = bitmap_bits words_bloom ->
  sip_keys b = sip_keys words_bloom ->
  map (bloom_check b) sha256_words =
  map (fun item => Ok (forallb (fun j => existsb (Z.eqb j)
                          (flat_map (positions (ws_bloom (write_stats words_store))) sha256_words))
              (bloom_positions (Z.to_nat (k_num b)) (ws_bloom (write_stats words_store)) (0, 0) item 0)))
      sha256_words.
Proof. intros b H1 H2 H3. apply map_ext. intros item. apply words_bloom_check; assumption. Qed.

Lemma words_bloom_k : k_num words_bloom = 7.
Proof. destruct words_bloom_fields as (_ & G2 & _). rewrite G2. reflexivity. Qed.

Lemma words_bloom_hits : map (bloom_check words_bloom) sha256_words = repeat (Ok true) 8.
Proof. rewrite words_bloom_map by reflexivity. rewrite words_bloom_k. vm_compute. reflexivity. Qed.

Lemma words_bloom_bytes : Forall is_byte (bit_vec words_bloom).
Proof.
  rewrite words_bloom_fold. apply fold_bloom_set_bytes.
  destruct fresh_bloom_fields as (_ & _ & _ & F4). rewrite F4, zero_bytes_app, app_nil_r.
  apply Forall_forall. intros x Hx. apply repeat_spec in Hx. subst x. unfold is_byte. lia.
Qed.

Lemma words_total : parse_u32 (to_dec_string (ws_total_records (write_stats (snd words_written)))) = Some 8.
Proof.
  rewrite words_written_eq. cbn [snd]. unfold set_writer. cbn [write_stats].
  rewrite collect_stats_total. vm_compute. reflexivity.
Qed.

Lemma words_keys :
  let keys := sip_keys words_bloom in
  filter_map parse_u64 (split_on ","%char (join ","
    [to_dec_string (fst (fst keys)); to_dec_string (snd (fst keys));
     to_dec_string (fst (snd keys)); to_dec_string (snd (snd keys))]))
  = [fst (fst keys); snd (fst keys); fst (snd keys); snd (snd keys)].
Proof.
  destruct words_bloom_fields as (_ & _ & G3 & _). destruct fresh_bloom_fields as (_ & _ & F3 & _).
  cbv zeta. rewrite G3, F3. vm_compute. reflexivity.
Qed.

Lemma words_load : load_bloom_filter words_disk words_store =
  Ok (Some (from_existing (bit_vec words_bloom) (bitmap_bits words_bloom) 8 (sip_keys words_bloom))).
Proof.
  rewrite words_disk_eq, (load_bloom_filter_finished _ _ _ _ _ 8).
  - change (ws_bloom (write_stats (snd words_written))) with words_bloom.
    destruct words_bloom_fields as (G1 & _ & _ & G4).
    rewrite byte_len_length, G4, fresh_bloom_length, G1. reflexivity.
  - reflexivity.
  - reflexivity.
  - exact words_bloom_bytes.
  - exact words_total.
  - exact words_keys.
Qed.

Lemma from_existing_fields : forall bv bits k keys,
  bit_vec (from_existing bv bits k keys) = bv /\ bitmap_bits (from_existing bv bits k keys) = bits /\
  k_num (from_existing bv bits k keys) = k /\ sip_keys (from_existing bv bits k keys) = keys.
Proof. intros; repeat match goal with |- _ /\ _ => split end; reflexivity. Qed.

Ltac from_existing_field :=
  match goal with |- context [from_existing ?bv ?bits ?k ?keys] =>
    destruct (from_existing_fields bv bits k keys) as (E1 & E2 & E3 & E4) end.

Lemma words_reloaded_misses :
  map (bloom_check (from_existing (bit_vec words_bloom) (bitmap_bits words_bloom) 8 (sip_keys words_bloom)))
    sha256_words = repeat (Ok false) 8.
Proof.
  from_existing_field. rewrite words_bloom_map by assumption. rewrite E3. vm_compute. reflexivity.
Qed.

Lemma words_disk_exists : path_exists words_disk db_path = true.
Proof. rewrite words_disk_eq; apply path_exists_aw_close. Qed.

Lemma words_query_full : query words_disk words_store (hash (nth 0 word_records rec_hello)) None None = Ok [].
Proof.
  unfold query. change (ps_path words_store) with db_path. rewrite words_disk_exists. cbn [negb].
  unfold bloom_gate.
  change (is_full_hash_length (length (hash (nth 0 word_records rec_hello)))) with true.
  cbn iota beta. rewrite words_load. cbn iota beta.
  from_existing_field. rewrite words_bloom_check by assumption. rewrite E3.
  match goal with |- context [forallb ?g ?l] => replace (forallb g l) with false by (vm_compute; reflexivity) end.
  reflexivity.
Qed.

Lemma words_query_prefix : query words_disk words_store (firstn 4 (hash (nth 0 word_records rec_hello))) None None
    = Ok [nth 0 word_records rec_hello].
Proof.
  unfold query. change (ps_path words_store) with db_path. rewrite words_disk_exists. cbn [negb].
  unfold bloom_gate.
  change (is_full_hash_length (length (firstn 4 (hash (nth 0 word_records rec_hello))))) with false.
  cbn [obind negb]. rewrite words_disk_eq. unfold open_parquet, aw_close, disk_put.
  rewrite String.eqb_refl. cbn [obind]. unfold matching_row_groups, selected_rows. cbn [row_groups].
  rewrite append_kv_rows. vm_compute. reflexivity.
Qed.

(** C3 (code bug).  [finish] stores the item count, [load_bloom_filter] passes
    it to [from_existing] as the number of hash functions.  After writing the
    eight records [word_records], the filter built while writing has 7 hash
    functions and answers maybe-present for each of the eight hashes; the filter
    loaded back has the same bitmap, size and keys but 8 hash functions, and
    answers definitely-absent for each of them, so the query on the full hash of
    the first record returns nothing. *)
Theorem bloom_filter_reload_mismatch :
  k_num words_bloom = 7 /\
  map (bloom_check words_bloom) sha256_words = repeat (Ok true) 8 /\
  load_bloom_filter words_disk words_store =
    Ok (Some (from_existing (bit_vec words_bloom) (bitmap_bits words_bloom) 8 (sip_keys words_bloom))) /\
  map (bloom_check (from_existing (bit_vec words_bloom) (bitmap_bits words_bloom) 8 (sip_keys words_bloom)))
    sha256_words = repeat (Ok false) 8 /\
  query words_disk words_store (hash (nth 0 word_records rec_hello)) None None = Ok [] /\
  query words_disk words_store (firstn 4 (hash (nth 0 word_records rec_hello))) None None
    = Ok [nth 0 word_records rec_hello].
Proof.
  exact (conj words_bloom_k (conj words_bloom_hits (conj words_load
          (conj words_reloaded_misses (conj words_query_full words_query_prefix))))).
Qed.

(** ** A failed or absent membership filter *)

Lemma bloom_meta_loop_no_keys : forall md acc,
  forallb (fun kv => negb (is_bloom_key (key kv))) md = true ->
  bloom_meta_loop md acc = Ok acc.
Proof.
  induction md as [|kv rest IH]; intros acc H; [reflexivity|].
  cbn [forallb] in H. apply andb_prop in H as [Hk Hr].
  unfold is_bloom_key in Hk.
  destruct (String.eqb (key kv) META_BLOOM_BITMAP) eqn:E1; [discriminate|].
  destruct (String.eqb (key kv) META_BLOOM_KEYS) eqn:E2; [discriminate|].
  destruct (String.eqb (key kv) META_BLOOM_ITEMS) eqn:E3; [discriminate|].
  cbn [bloom_meta_loop]. rewrite E1, E2, E3. apply IH, Hr.
Qed.

Lemma forallb_filter_self : forall (A : Type) (p : A -> bool) l, forallb p (filter p l) = true.
Proof.
  intros A p l. apply forallb_forall. intros x Hx. apply filter_In in Hx. tauto.
Qed.

Lemma load_bloom_filter_stripped : forall d s pf,
  load_bloom_filter (disk_put d (ps_path s) (Some (strip_filter pf))) s = Ok None.
Proof.
  intros d s pf. unfold load_bloom_filter, open_parquet, disk_put.
  rewrite String.eqb_refl. cbn [obind].
  unfold strip_filter. cbn [key_value_metadata].
  destruct (key_value_metadata pf) as [md|]; [|reflexivity]. cbn [option_map].
  rewrite bloom_meta_loop_no_keys by apply forallb_filter_self. reflexivity.
Qed.

(** C10 (amended).  When loading the membership filter fails with an error or
    finds no complete filter, [query] does not prune: it returns exactly what
    it returns on the same file with the filter entries removed. *)
Theorem query_ignores_failed_filter : forall d s pf prefix algo limit,
  d (ps_path s) = Some (Some pf) ->
  (load_bloom_filter d s = Ok None \/ exists e, load_bloom_filter d s = Err e) ->
  query d s prefix algo limit
  = query (disk_put d (ps_path s) (Some (strip_filter pf))) s prefix algo limit.
Proof.
  intros d s pf prefix algo limit Hd Hl.
  assert (Hg : bloom_gate d s prefix = Ok true).
  { unfold bloom_gate. destruct (is_full_hash_length (length prefix)); [|reflexivity].
    destruct Hl as [Hl|[e Hl]]; rewrite Hl; reflexivity. }
  assert (Hg' : bloom_gate (disk_put d (ps_path s) (Some (strip_filter pf))) s prefix = Ok true).
  { unfold bloom_gate. rewrite load_bloom_filter_stripped.
    destruct (is_full_hash_length (length prefix)); reflexivity. }
  unfold query. rewrite Hg, Hg'.
  unfold path_exists, open_parquet, disk_put. rewrite String.eqb_refl, Hd.
  reflexivity.
Qed.

Lemma query_ignores_failed_filter_witness :
  load_bloom_filter (malformed_disk [kv META_BLOOM_BITMAP "!!!!"%string]) (ParquetStorage_new db_path keys0)
    = Err "Invalid base64"%string /\
  query (malformed_disk [kv META_BLOOM_BITMAP "!!!!"%string]) (ParquetStorage_new db_path keys0)
    sha256_hello None None
  = query (disk_put (malformed_disk [kv META_BLOOM_BITMAP "!!!!"%string])
             (ps_path (ParquetStorage_new db_path keys0))
             (Some (strip_filter (malformed_file [kv META_BLOOM_BITMAP "!!!!"%string]))))
          (ParquetStorage_new db_path keys0) sha256_hello None None.
Proof.
  split; [vm_compute; reflexivity|].
  apply (query_ignores_failed_filter (malformed_disk [kv META_BLOOM_BITMAP "!!!!"%string])
           (ParquetStorage_new db_path keys0) (malformed_file [kv META_BLOOM_BITMAP "!!!!"%string])).
  - vm_compute; reflexivity.
  - right. exists "Invalid base64"%string. vm_compute; reflexivity.
Defined.

(** C10 (counterexample).  Filter entries that are malformed yet load (a keys
    value with a fifth, unparsable item, an all-zero bitmap) make the
    full-length query for a stored hash return nothing, while the same file
    without them returns the record; an empty bitmap with well-formed keys
    makes the query panic. *)
Lemma query_malformed_filter_prunes :
  load_bloom_filter (malformed_disk malformed_filter_md) (ParquetStorage_new db_path keys0)
    = Ok (Some (from_existing [0; 0; 0] 24 1 ((0, 0), (0, 0)))) /\
  query (malformed_disk malformed_filter_md) (ParquetStorage_new db_path keys0)
    sha256_hello None None = Ok [] /\
  query (disk_put (malformed_disk malformed_filter_md) db_path
           (Some (strip_filter (malformed_file malformed_filter_md))))
        (ParquetStorage_new db_path keys0) sha256_hello None None = Ok [rec_hello] /\
  query (malformed_disk [kv META_BLOOM_BITMAP ""%string; kv META_BLOOM_KEYS "1,2,3,4"%string;
                         kv META_BLOOM_ITEMS "1"%string])
        (ParquetStorage_new db_path keys0) sha256_hello None None = Panic.
Proof. repeat match goal with |- _ /\ _ => split end; vm_compute; reflexivity. Qed.

(** ** Further properties *)

(** ** The membership filter has no false negatives *)

Lemma bloom_positions_range : forall fuel b hs item k j,
  0 < bitmap_bits b -> In j (bloom_positions fuel b hs item k) -> 0 <= j < bitmap_bits b.
Proof.
  induction fuel as [|fuel IH]; intros b hs item k j Hb Hj; [contradiction|].
  cbn [bloom_positions] in Hj. destruct (bloom_hash b hs item k) as [h hs'].
  destruct Hj as [<- | Hj]; [apply Z.mod_pos_bound; exact Hb | eapply IH; eauto].
Qed.

Lemma bloom_check_after_set : forall items b x,
  0 < bitmap_bits b -> Z.of_nat (length (bit_vec b)) * 8 = bitmap_bits b -> In x items ->
  bloom_check (fold_left bloom_set items b) x = Ok true.
Proof.
  intros items b x Hb Hlen Hx.
  destruct (fold_bloom_set_fields items b) as (F1 & F2 & F3 & F4).
  set (e := fun j => existsb (Z.eqb j) (flat_map (positions b) items)).
  set (g := fun j => e j || match bitvec_get (bit_vec b) j with Some v => v | None => false end).
  unfold bloom_check. rewrite (bloom_check_loop_spec _ _ _ _ _ g).
  - f_equal. rewrite (bloom_positions_ext _ _ b) by assumption. rewrite F2.
    apply forallb_forall. intros j Hj. unfold g.
    replace (e j) with true; [reflexivity|]. symmetry. unfold e.
    apply existsb_exists. exists j. split; [|apply Z.eqb_refl].
    apply in_flat_map. exists x. split; [exact Hx | exact Hj].
  - rewrite F1; exact Hb.
  - intros j Hj. rewrite F1 in Hj.
    assert (Hj8 : j / 8 < Z.of_nat (length (bit_vec b))) by (apply Z.div_lt_upper_bound; lia).
    rewrite fold_bloom_set_get by (try lia; exact Hj8). unfold g; fold (e j).
    destruct (e j); [reflexivity|].
    unfold bitvec_get. destruct (Z.ltb_spec j 0); [lia|].
    destruct (nth_error (bit_vec b) (Z.to_nat (j / 8))) eqn:En; [reflexivity|].
    apply nth_error_None in En.
    assert (Z.of_nat (length (bit_vec b)) <= j / 8).
    { rewrite <- (Z2Nat.id (j / 8)) by (apply Z.div_pos; lia). apply Nat2Z.inj_le. exact En. }
    lia.
Qed.

Lemma compute_bitmap_size_pos : forall n, 1 <= n -> 0 < compute_bitmap_size n.
Proof.
  intros n Hn. unfold compute_bitmap_size, ceil_div.
  apply Z.lt_le_trans with 1; [lia|]. apply Z.div_le_lower_bound; lia.
Qed.

Lemma new_for_fp_rate_shape : forall n keys, 1 <= n ->
  0 < bitmap_bits (new_for_fp_rate n keys) /\
  Z.of_nat (length (bit_vec (new_for_fp_rate n keys))) * 8 = bitmap_bits (new_for_fp_rate n keys).
Proof.
  intros n keys Hn. pose proof (compute_bitmap_size_pos n Hn) as Hp.
  unfold new_for_fp_rate, Bloom_new. cbn [bitmap_bits bit_vec].
  rewrite zero_bytes_app, app_nil_r, repeat_length, Z2Nat.id by lia. lia.
Qed.

(** X1.  Once [collect_stats] has inserted a batch of records into the
    filter of a store created by [with_expected_capacity], checking the hash of
    any of those records answers maybe-present. *)
Theorem collect_stats_filter_no_false_negative : forall path expected keys records r,
  In r records ->
  bloom_check (ws_bloom (write_stats (collect_stats (with_expected_capacity path expected keys) records)))
    (hash r) = Ok true.
Proof.
  intros path expected keys records r Hr. rewrite collect_stats_bloom.
  destruct (new_for_fp_rate_shape (Z.max expected DEFAULT_BLOOM_CAPACITY) keys) as [H1 H2];
    [unfold DEFAULT_BLOOM_CAPACITY; lia|].
  apply bloom_check_after_set; [exact H1 | exact H2 | apply in_map; exact Hr].
Qed.

Lemma scan_rows_none : forall rows prefix algo acc,
  scan_rows rows prefix algo None acc = acc ++ filter (scan_keeps prefix algo) rows.
Proof.
  induction rows as [|r rows IH]; intros prefix algo acc; cbn [scan_rows filter];
    [rewrite app_nil_r; reflexivity|].
  destruct (scan_keeps prefix algo r) eqn:E; unfold scan_keeps in E;
    destruct (starts_with (hash r) prefix); destruct (algo_rejects algo (algorithm r));
    cbn [andb negb] in E |- *; try discriminate; try apply IH.
  cbn [limit_reached]. rewrite IH, <- app_assoc. reflexivity.
Qed.

Lemma scan_rows_some : forall n rows prefix algo acc,
  (length acc < Nat.max n 1)%nat ->
  scan_rows rows prefix algo (Some n) acc = firstn (Nat.max n 1) (scan_rows rows prefix algo None acc).
Proof.
  intros n rows; induction rows as [|r rows IH]; intros prefix algo acc Hl; cbn [scan_rows].
  - rewrite firstn_all2 by lia. reflexivity.
  - destruct (negb (starts_with (hash r) prefix)); [apply IH; exact Hl|].
    destruct (algo_rejects algo (algorithm r)); [apply IH; exact Hl|].
    cbn [limit_reached]. rewrite length_app. cbn [length].
    destruct (Nat.leb_spec n (length acc + 1)).
    + rewrite scan_rows_none, firstn_app, length_app. cbn [length].
      replace (Nat.max n 1 - (length acc + 1))%nat with 0%nat by lia.
      rewrite firstn_O, app_nil_r, firstn_all2 by (rewrite length_app; cbn [length]; lia).
      reflexivity.
    + apply IH. rewrite length_app; cbn [length]; lia.
Qed.

Lemma selected_rows_incl : forall pf sel r, In r (selected_rows pf sel) -> In r (all_rows pf).
Proof.
  intros pf sel r H. unfold selected_rows in H. apply in_flat_map in H as [i [_ Hi]].
  destruct (nth_error (row_groups pf) i) as [rg|] eqn:E; [|contradiction].
  unfold all_rows. apply in_flat_map. exists rg. split; [eapply nth_error_In; eauto | exact Hi].
Qed.

Lemma scan_rows_sound : forall rows prefix algo limit acc r,
  In r (scan_rows rows prefix algo limit acc) -> In r acc \/ (In r rows /\ scan_keeps prefix algo r = true).
Proof.
  induction rows as [|x rows IH]; intros prefix algo limit acc r H; cbn [scan_rows] in H; [left; exact H|].
  unfold scan_keeps at 1.
  destruct (starts_with (hash x) prefix) eqn:E1; cbn [negb] in H.
  - destruct (algo_rejects algo (algorithm x)) eqn:E2.
    + destruct (IH _ _ _ _ _ H) as [? | [? ?]]; [left | right; split; [right|]]; auto.
    + assert (Hx : In r (acc ++ [x]) -> In r acc \/ (In r (x :: rows) /\
                     starts_with (hash r) prefix && negb (algo_rejects algo (algorithm r)) = true)).
      { intros Hin. apply in_app_or in Hin as [? | [<- | []]]; [left; auto|].
        right; split; [left; reflexivity | rewrite E1, E2; reflexivity]. }
      destruct (limit_reached limit (length (acc ++ [x]))); [apply Hx, H|].
      destruct (IH _ _ _ _ _ H) as [Hin | [? ?]]; [apply Hx, Hin | right; split; [right|]; auto].
  - destruct (IH _ _ _ _ _ H) as [? | [? ?]]; [left | right; split; [right|]]; auto.
Qed.

(** X2.  Every record a query returns is a row of the readable file at the
    store's path, its hash starts with the prefix, and, when an algorithm
    filter is given, its algorithm is that one. *)
Theorem query_results_sound : forall d s prefix algo limit rs r,
  query d s prefix algo limit = Ok rs -> In r rs ->
  starts_with (hash r) prefix = true /\
  (forall a, algo = Some a -> algorithm r = a) /\
  exists pf, d (ps_path s) = Some (Some pf) /\ In r (all_rows pf).
Proof.
  intros d s prefix algo limit rs r Hq Hr. unfold query in Hq.
  destruct (negb (path_exists d (ps_path s))); [injection Hq as <-; contradiction|].
  destruct (bloom_gate d s prefix) as [pass| |]; cbn [obind] in Hq; try discriminate.
  destruct (negb pass); [injection Hq as <-; contradiction|].
  unfold open_parquet in Hq. destruct (d (ps_path s)) as [[pf|]|] eqn:Ed; cbn [obind] in Hq; try discriminate.
  destruct (matching_row_groups prefix pf) as [|i sel]; injection Hq as <-; [contradiction|].
  destruct (scan_rows_sound _ _ _ _ _ _ Hr) as [[] | [Hin Hk]].
  unfold scan_keeps in Hk. apply andb_prop in Hk as [H1 H2].
  split; [exact H1|]. split.
  - intros a ->. cbn [algo_rejects] in H2. apply negb_true_iff, negb_false_iff, String.eqb_eq in H2.
    exact H2.
  - exists pf. split; [reflexivity | apply (selected_rows_incl pf (i :: sel)); exact Hin].
Qed.

Lemma matching_from_all : forall prefix j rgs,
  (forall rg, In rg rgs -> row_group_matches prefix rg = true) ->
  matching_from prefix j rgs = seq j (length rgs).
Proof.
  intros prefix j rgs; revert j; induction rgs as [|rg rgs IH]; intros j H; [reflexivity|].
  cbn [matching_from length seq]. rewrite H by (left; reflexivity).
  rewrite IH by (intros; apply H; right; assumption). reflexivity.
Qed.

Lemma flat_map_map_S : forall (A : Type) (f : nat -> list A) l,
  flat_map f (map S l) = flat_map (fun i => f (S i)) l.
Proof. intros A f l; induction l as [|x l IH]; cbn; [reflexivity | rewrite IH; reflexivity]. Qed.

Lemma selected_rows_seq : forall rgs,
  flat_map (fun i => match nth_error rgs i with Some rg => rg_rows rg | None => [] end)
    (seq 0 (length rgs)) = flat_map rg_rows rgs.
Proof.
  induction rgs as [|rg rgs IH]; [reflexivity|].
  cbn [length seq flat_map]. rewrite <- seq_shift, flat_map_map_S. cbn [nth_error].
  rewrite IH. reflexivity.
Qed.

Lemma scan_keeps_all : forall l, filter (scan_keeps [] None) l = l.
Proof.
  induction l as [|r l IH]; [reflexivity|]. cbn [filter].
  unfold scan_keeps at 1. destruct (hash r); cbn; rewrite IH; reflexivity.
Qed.

(** X3.  On a readable file, the query with the empty prefix, no algorithm
    filter and no limit returns every row of the file, in file order. *)
Theorem query_empty_prefix_all_rows : forall d s pf,
  d (ps_path s) = Some (Some pf) -> query d s [] None None = Ok (all_rows pf).
Proof.
  intros d s pf Hd. unfold query, path_exists, open_parquet. rewrite Hd. cbn [negb obind].
  unfold bloom_gate. cbn [length is_full_hash_length negb obind].
  unfold matching_row_groups. rewrite matching_from_all
    by (intros rg _; unfold row_group_matches;
        destruct (rg_hash_statistics rg) as [[[?|] [?|]|]|]; reflexivity).
  unfold all_rows, selected_rows. destruct (row_groups pf) as [|rg rgs] eqn:Hrg; [reflexivity|].
  change (seq 0 (length (rg :: rgs))) with (0%nat :: seq 1 (length rgs)). cbv iota.
  change (0%nat :: seq 1 (length rgs)) with (seq 0 (length (rg :: rgs))).
  rewrite selected_rows_seq, scan_rows_none, scan_keeps_all. reflexivity.
Qed.

(** X4.  A limit [Some n] truncates: the limited query returns the first
    [max n 1] records of the unlimited query, and the same error when the
    unlimited query fails. *)
Theorem query_limit_truncates : forall d s prefix algo n,
  query d s prefix algo (Some n) =
  match query d s prefix algo None with
  | Ok rs => Ok (firstn (Nat.max n 1) rs)
  | Err m => Err m
  | Panic => Panic
  end.
Proof.
  intros d s prefix algo n. unfold query.
  destruct (negb (path_exists d (ps_path s))); [rewrite firstn_nil; reflexivity|].
  destruct (bloom_gate d s prefix) as [pass|m|]; cbn [obind]; [|reflexivity|reflexivity].
  destruct (negb pass); [rewrite firstn_nil; reflexivity|].
  destruct (open_parquet d (ps_path s)) as [pf|m|]; cbn [obind]; [|reflexivity|reflexivity].
  destruct (matching_row_groups prefix pf) as [|i sel]; [rewrite firstn_nil; reflexivity|].
  rewrite scan_rows_some by (cbn [length]; lia). reflexivity.
Qed.

(** X5.  While a store is being written (after a non-empty [write_batch] on a
    store with no open writer, before [finish]), its file exists but is not a
    readable Parquet file: [query] and [stats] on it fail with the open error. *)
Theorem query_stats_unfinished_file : forall d s records d' s' prefix algo limit file_len,
  writer s = None -> records <> [] -> write_batch d s records = Ok (d', s') ->
  query d' s' prefix algo limit = Err "invalid Parquet file" /\
  stats d' s' file_len = Err "invalid Parquet file".
Proof.
  intros d s records d' s' prefix algo limit file_len Hw Hne Hwb.
  rewrite write_batch_fresh in Hwb by assumption. injection Hwb as <- <-.
  assert (Hp : ps_path (set_writer (collect_stats s records) (Some (aw_write ArrowWriter_try_new records)))
               = ps_path s) by reflexivity.
  assert (Hd : disk_put d (ps_path s) None (ps_path s) = Some None)
    by (unfold disk_put; rewrite String.eqb_refl; reflexivity).
  split.
  - unfold query, bloom_gate, load_bloom_filter, path_exists, open_parquet. rewrite Hp, Hd.
    cbn [negb obind]. destruct (is_full_hash_length (length prefix)); reflexivity.
  - unfold stats, read_stats_from_metadata, path_exists, open_parquet. rewrite Hp, Hd. reflexivity.
Qed.

Lemma collect_stats_filter_no_false_negative_witness :
  In rec_hello [rec_hello] /\
  bloom_check (ws_bloom (write_stats (collect_stats (with_expected_capacity db_path 1 keys0) [rec_hello])))
    (hash rec_hello) = Ok true.
Proof.
  split; [left; reflexivity|].
  apply (collect_stats_filter_no_false_negative db_path 1 keys0 [rec_hello] rec_hello). left; reflexivity.
Defined.

Lemma query_results_sound_witness :
  query prior_disk (ParquetStorage_new db_path keys0) [44] None None = Ok [rec_hello_prior] /\
  In rec_hello_prior [rec_hello_prior] /\
  starts_with (hash rec_hello_prior) [44] = true /\
  (forall a, (None : option string) = Some a -> algorithm rec_hello_prior = a) /\
  exists pf, prior_disk (ps_path (ParquetStorage_new db_path keys0)) = Some (Some pf) /\
             In rec_hello_prior (all_rows pf).
Proof.
  assert (Hq : query prior_disk (ParquetStorage_new db_path keys0) [44] None None = Ok [rec_hello_prior])
    by reflexivity.
  assert (Hi : In rec_hello_prior [rec_hello_prior]) by (left; reflexivity).
  split; [exact Hq|]. split; [exact Hi|].
  exact (query_results_sound prior_disk (ParquetStorage_new db_path keys0) [44] None None
           [rec_hello_prior] rec_hello_prior Hq Hi).
Defined.

Lemma query_empty_prefix_all_rows_witness :
  exists pf, prior_disk (ps_path (ParquetStorage_new db_path keys0)) = Some (Some pf) /\
    query prior_disk (ParquetStorage_new db_path keys0) [] None None = Ok (all_rows pf).
Proof.
  eexists. split; [reflexivity|].
  apply query_empty_prefix_all_rows. reflexivity.
Defined.

Lemma query_stats_unfinished_file_witness :
  exists d' s', writer small_store = None /\ [rec_hello] <> [] /\
    write_batch empty_disk small_store [rec_hello] = Ok (d', s') /\
    query d' s' (hash rec_hello) None None = Err "invalid Parquet file" /\
    stats d' s' 0 = Err "invalid Parquet file".
Proof.
  eexists; eexists.
  assert (Hw : writer small_store = None) by reflexivity.
  assert (Hn : [rec_hello] <> []) by discriminate.
  assert (Hb : write_batch empty_disk small_store [rec_hello] = Ok (_, _)) by (vm_compute; reflexivity).
  split; [exact Hw|]. split; [exact Hn|]. split; [exact Hb|].
  exact (query_stats_unfinished_file _ _ _ _ _ (hash rec_hello) None None 0 Hw Hn Hb).
Defined.

(** ** The streaming dedup loop of [run] *)

Lemma key_eqb_spec : forall k1 k2, key_eqb k1 k2 = true <-> k1 = k2.
Proof.
  intros [a x] [b y]. unfold key_eqb; cbn [fst snd]. rewrite andb_true_iff, bytes_eqb_spec, String.eqb_eq.
  split; [intros [-> ->]; reflexivity | intros H; injection H as -> ->; split; reflexivity].
Qed.

Lemma read_step_counters : forall hashers src ws st w,
  total_words st = length ws -> NoDup (seen st) -> (forall x, In x (seen st) <-> In x ws) ->
  (unique_words st + length (batch st) = length (seen st))%nat ->
  let st' := read_step hashers src st w in
  total_words st' = length (ws ++ [w]) /\ NoDup (seen st') /\
  (forall x, In x (seen st') <-> In x (ws ++ [w])) /\
  (unique_words st' + length (batch st') = length (seen st'))%nat.
Proof.
  intros hashers src ws st w H1 H2 H3 H4 st'. unfold st', read_step.
  rewrite (length_app ws [w]); cbn [length].
  destruct (existsb (String.eqb w) (seen st)) eqn:E.
  - apply existsb_eqb_In in E. cbn [total_words seen unique_words batch].
    split; [lia|]. split; [exact H2|]. split; [|exact H4].
    intros x. rewrite H3, in_app_iff. cbn [In]. split; [tauto|].
    intros [? | [<- | []]]; [assumption | apply H3; exact E].
  - assert (Hn : ~ In w (seen st)) by (intros Hi; apply existsb_eqb_In in Hi; congruence).
    assert (Hd : NoDup (seen st ++ [w])).
    { apply NoDup_app; [exact H2 | repeat constructor; simpl; tauto |].
      intros x Hx [<- | []]; contradiction. }
    assert (Hs : forall x, In x (seen st ++ [w]) <-> In x (ws ++ [w]))
      by (intros x; rewrite !in_app_iff, H3; tauto).
    destruct (Nat.leb BATCH_SIZE (length (batch st ++ [w]))); cbn [total_words seen unique_words batch length];
      (split; [lia|]); (split; [exact Hd|]); (split; [exact Hs|]); rewrite !length_app; cbn [length]; lia.
Qed.

(** X6.  The counters of the dedup loop: [total_words] counts every word
    read, [seen] holds each distinct word once and exactly the words read,
    and [unique_words] equals the number of distinct words, so it never
    exceeds [total_words] (the duplicate count [total - unique] does not
    underflow). *)
Theorem read_words_counters : forall words hashers src,
  total_words (read_words words hashers src) = length words /\
  unique_words (read_words words hashers src) = length (seen (read_words words hashers src)) /\
  NoDup (seen (read_words words hashers src)) /\
  (forall w, In w (seen (read_words words hashers src)) <-> In w words) /\
  (unique_words (read_words words hashers src) <= total_words (read_words words hashers src))%nat.
Proof.
  intros words hashers src.
  assert (Hf : forall ws, let st := fold_left (read_step hashers src) ws
              {| total_words := 0; unique_words := 0; batch := []; seen := []; new_records_map := [] |} in
     total_words st = length ws /\ NoDup (seen st) /\ (forall x, In x (seen st) <-> In x ws) /\
     (unique_words st + length (batch st) = length (seen st))%nat).
  { intros ws. induction ws as [|w ws IH] using rev_ind.
    - cbn. split; [reflexivity|]. split; [constructor|]. split; [tauto | reflexivity].
    - cbv zeta in IH |- *. rewrite fold_left_app. cbn [fold_left].
      destruct IH as (H1 & H2 & H3 & H4). exact (read_step_counters hashers src ws _ w H1 H2 H3 H4). }
  destruct (Hf words) as (H1 & H2 & H3 & H4). cbv zeta in H1, H2, H3, H4.
  unfold read_words.
  set (st := fold_left (read_step hashers src) words
               {| total_words := 0; unique_words := 0; batch := []; seen := []; new_records_map := [] |})
    in *.
  assert (Hle : (length (seen st) <= length words)%nat).
  { apply NoDup_incl_length; [exact H2 | intros x; apply H3]. }
  destruct (batch st) as [|b bs] eqn:Eb; cbn [total_words unique_words seen length] in *.
  - repeat (split; [lia || assumption|]); lia.
  - split; [exact H1|]. split; [lia|]. split; [exact H2|]. split; [exact H3|]. lia.
Qed.

(** ** The records map of the dedup loop *)

Lemma fold_or_insert_keep : forall L m k r,
  In (k, r) m -> In (k, r) (fold_left (fun m r => or_insert (record_key r) r m) L m).
Proof.
  induction L as [|x L IH]; intros m k r H; cbn [fold_left]; [exact H|].
  apply IH. unfold or_insert. destruct (existsb _ m); [exact H | apply in_or_app; left; exact H].
Qed.

Lemma fold_or_insert_nodup : forall L m,
  NoDup (map fst m) -> NoDup (map fst (fold_left (fun m r => or_insert (record_key r) r m) L m)).
Proof.
  induction L as [|x L IH]; intros m H; cbn [fold_left]; [exact H|].
  apply IH. unfold or_insert. destruct (existsb (fun e => key_eqb (fst e) (record_key x)) m) eqn:E;
    [exact H|].
  rewrite map_app. cbn [map fst]. apply NoDup_app; [exact H | repeat constructor; simpl; tauto|].
  intros k Hk [<- | []]. apply in_map_iff in Hk as [[k' r'] [Hk' Hin]]. cbn [fst] in Hk'. subst k'.
  assert (existsb (fun e => key_eqb (fst e) (record_key x)) m = true)
    by (apply existsb_exists; exists (record_key x, r'); split; [exact Hin | apply key_eqb_spec; reflexivity]).
  congruence.
Qed.

Lemma fold_or_insert_origin : forall L m k r,
  In (k, r) (fold_left (fun m r => or_insert (record_key r) r m) L m) ->
  In (k, r) m \/ (In r L /\ k = record_key r).
Proof.
  induction L as [|x L IH]; intros m k r H; cbn [fold_left] in H; [left; exact H|].
  destruct (IH _ _ _ H) as [H' | [H' ->]]; [|right; split; [right; exact H' | reflexivity]].
  unfold or_insert in H'. destruct (existsb _ m); [left; exact H'|].
  apply in_app_or in H' as [H' | [He | []]]; [left; exact H'|].
  injection He as <- <-. right; split; [left | ]; reflexivity.
Qed.

Lemma fold_or_insert_cover : forall L m r,
  In r L -> exists r', In (record_key r, r') (fold_left (fun m r => or_insert (record_key r) r m) L m).
Proof.
  induction L as [|x L IH]; intros m r H; [destruct H|]. cbn [fold_left].
  destruct H as [Hx | H]; [subst x | apply IH; exact H].
  unfold or_insert. destruct (existsb (fun e => key_eqb (fst e) (record_key r)) m) eqn:E.
  - apply existsb_exists in E as [[k r'] [Hin Hk]]. apply key_eqb_spec in Hk. cbn [fst] in Hk. subst k.
    exists r'. apply fold_or_insert_keep. exact Hin.
  - exists r. apply fold_or_insert_keep. apply in_or_app; right; left; reflexivity.
Qed.

Lemma process_new_words_valid : forall b hashers src ws m,
  incl b ws -> map_entries_valid hashers src ws m ->
  map_entries_valid hashers src ws (process_new_words b hashers src m).
Proof.
  intros b hashers src ws m Hb Hm k r Hin. unfold process_new_words in Hin.
  destruct (fold_or_insert_origin _ _ _ _ Hin) as [H | [H ->]]; [apply Hm; exact H|].
  apply in_flat_map in H as [w [Hw Hr]]. apply in_map_iff in Hr as [h [<- Hh]].
  cbn [preimage sources hash algorithm]. split; [reflexivity|]. split; [reflexivity|].
  split; [apply Hb; exact Hw|]. exists h. split; [exact Hh | split; reflexivity].
Qed.

Lemma process_new_words_nodup : forall b hashers src m,
  NoDup (map fst m) -> NoDup (map fst (process_new_words b hashers src m)).
Proof. intros; apply fold_or_insert_nodup; assumption. Qed.

Lemma process_new_words_keep : forall b hashers src m w,
  map_covers hashers m w -> map_covers hashers (process_new_words b hashers src m) w.
Proof.
  intros b hashers src m w H h Hh. destruct (H h Hh) as [r Hr]. exists r.
  apply fold_or_insert_keep; exact Hr.
Qed.

Lemma process_new_words_cover : forall b hashers src m w,
  In w b -> map_covers hashers (process_new_words b hashers src m) w.
Proof.
  intros b hashers src m w Hw h Hh. unfold process_new_words.
  set (r := {| hash := hasher_hash h (word_bytes w); preimage := w; algorithm := hasher_name h;
               sources := [src] |}).
  change (hasher_hash h (word_bytes w), hasher_name h) with (record_key r).
  apply fold_or_insert_cover. apply in_flat_map. exists w. split; [exact Hw|].
  apply in_map_iff. exists h. split; [reflexivity | exact Hh].
Qed.

Lemma map_entries_valid_mono : forall hashers src ws ws' m,
  incl ws ws' -> map_entries_valid hashers src ws m -> map_entries_valid hashers src ws' m.
Proof.
  intros hashers src ws ws' m Hi H k r Hin. destruct (H k r Hin) as (H1 & H2 & H3 & H4).
  split; [exact H1|]. split; [exact H2|]. split; [apply Hi; exact H3 | exact H4].
Qed.

Lemma read_step_map : forall hashers src ws st w,
  read_map_inv hashers src ws st -> read_map_inv hashers src (ws ++ [w]) (read_step hashers src st w).
Proof.
  intros hashers src ws st w (H1 & H2 & H3 & H4 & H5).
  assert (Hinc : incl ws (ws ++ [w])) by (intros x Hx; apply in_or_app; left; exact Hx).
  unfold read_step. destruct (existsb (String.eqb w) (seen st)) eqn:E.
  - apply existsb_eqb_In in E. unfold read_map_inv; cbn [seen batch new_records_map].
    split; [|split; [exact H2|split; [exact H3|split; [eapply map_entries_valid_mono; eauto | exact H5]]]].
    intros x. rewrite H1, in_app_iff. cbn [In]. split; [tauto|].
    intros [? | [<- | []]]; [assumption | apply H1; exact E].
  - assert (Hs : forall x, In x (seen st ++ [w]) <-> In x (ws ++ [w]))
      by (intros x; rewrite !in_app_iff, H1; tauto).
    assert (Hb : incl (batch st ++ [w]) (seen st ++ [w])).
    { intros x Hx. apply in_app_or in Hx as [Hx | Hx]; apply in_or_app; [left; apply H2 | right]; exact Hx. }
    destruct (Nat.leb BATCH_SIZE (length (batch st ++ [w]))); unfold read_map_inv;
      cbn [seen batch new_records_map]; (split; [exact Hs|]).
    + split; [intros x []|]. split; [apply process_new_words_nodup; exact H3|].
      split.
      * apply process_new_words_valid; [intros x Hx; apply Hs, Hb, Hx | eapply map_entries_valid_mono; eauto].
      * intros x Hx. right. apply in_app_or in Hx as [Hx | [<- | []]].
        -- destruct (H5 x Hx) as [Hxb | Hc].
           ++ apply process_new_words_cover. apply in_or_app; left; exact Hxb.
           ++ apply process_new_words_keep; exact Hc.
        -- apply process_new_words_cover. apply in_or_app; right; left; reflexivity.
    + split; [exact Hb|]. split; [exact H3|]. split; [eapply map_entries_valid_mono; eauto|].
      intros x Hx. apply in_app_or in Hx as [Hx | [<- | []]].
      * destruct (H5 x Hx) as [Hxb | Hc]; [left; apply in_or_app; left; exact Hxb | right; exact Hc].
      * left. apply in_or_app; right; left; reflexivity.
Qed.

(** X7.  The records map the dedup loop builds holds one entry per
    (hash, algorithm) key; each entry is keyed by its record's hash and
    algorithm, and its record is the hash of one of the words read by one of
    the hashers, tagged with that hasher's name and with the source name only;
    and every pair of a word read and a hasher has an entry under the key of
    that hasher's hash of the word. *)
Theorem read_words_records_map : forall words hashers src,
  NoDup (map fst (new_records_map (read_words words hashers src))) /\
  (forall k r, In (k, r) (new_records_map (read_words words hashers src)) ->
     k = record_key r /\ sources r = [src] /\ In (preimage r) words /\
     exists h, In h hashers /\ hash r = hasher_hash h (word_bytes (preimage r)) /\
               algorithm r = hasher_name h) /\
  (forall w h, In w words -> In h hashers ->
     exists r, In ((hasher_hash h (word_bytes w), hasher_name h), r)
                  (new_records_map (read_words words hashers src))).
Proof.
  intros words hashers src.
  assert (Hf : forall ws, read_map_inv hashers src ws (fold_left (read_step hashers src) ws
              {| total_words := 0; unique_words := 0; batch := []; seen := []; new_records_map := [] |})).
  { intros ws. induction ws as [|w ws IH] using rev_ind.
    - unfold read_map_inv; cbn. split; [tauto|]. split; [intros x []|]. split; [constructor|].
      split; [intros k r []| intros x []].
    - rewrite fold_left_app. cbn [fold_left]. apply read_step_map, IH. }
  destruct (Hf words) as (H1 & H2 & H3 & H4 & H5).
  unfold read_words.
  set (st := fold_left (read_step hashers src) words
               {| total_words := 0; unique_words := 0; batch := []; seen := []; new_records_map := [] |})
    in *.
  destruct (batch st) as [|b bs] eqn:Eb; cbn [new_records_map].
  - split; [exact H3|]. split; [exact H4|].
    intros w h Hw Hh. apply H1 in Hw. destruct (H5 w Hw) as [[] | Hc]. apply Hc, Hh.
  - split; [apply process_new_words_nodup; exact H3|]. split.
    + apply process_new_words_valid; [|exact H4]. intros x Hx; apply H1, H2, Hx.
    + intros w h Hw Hh. apply H1 in Hw. destruct (H5 w Hw) as [Hb | Hc].
      * apply process_new_words_cover; assumption.
      * apply process_new_words_keep; assumption.
Qed.




(** ** The SQL list literal *)

Lemma read_quoted_escaped : forall fuel x rest,
  (String.length (replace_squote x) < fuel)%nat ->
  (forall r, rest <> String squote r) ->
  read_quoted fuel (replace_squote x ++ String squote rest) = Some (x, rest).
Proof.
  intros fuel x; revert fuel; induction x as [|c x IH]; intros fuel rest Hf Hr;
    destruct fuel as [|fuel]; try (cbn in Hf; lia).
  - cbn [replace_squote append read_quoted]. change (Ascii.eqb squote squote) with true. cbv iota.
    destruct rest as [|c r]; [reflexivity|].
    destruct (Ascii.eqb_spec c squote) as [E|E]; [subst c; exfalso; eapply Hr; reflexivity | reflexivity].
  - cbn [replace_squote] in Hf |- *. destruct (Ascii.eqb c squote) eqn:Ec.
    + apply Ascii.eqb_eq in Ec. subst c. cbn [append read_quoted]. change (Ascii.eqb squote squote) with true. cbv iota.
      rewrite IH; [reflexivity | cbn in Hf; lia | exact Hr].
    + cbn [append read_quoted]. rewrite Ec. cbv iota.
      rewrite IH; [reflexivity | cbn in Hf; lia | exact Hr].
Qed.

Lemma append_assoc_str : forall a b c : string, ((a ++ b) ++ c)%string = (a ++ (b ++ c))%string.
Proof. induction a as [|x a IH]; intros b c; cbn; [reflexivity | rewrite IH; reflexivity]. Qed.

Lemma length_append_str : forall a b : string,
  String.length (a ++ b)%string = (String.length a + String.length b)%nat.
Proof. induction a as [|x a IH]; intros b; cbn; [reflexivity | rewrite IH; reflexivity]. Qed.

Lemma read_elements_join : forall l fuel,
  l <> [] -> (String.length (join ", " (map quote_elem l) ++ "]") <= fuel)%nat ->
  read_elements fuel (join ", " (map quote_elem l) ++ "]") = Some l.
Proof.
  induction l as [|x l IH]; intros fuel Hne Hf; [contradiction|].
  destruct fuel as [|fuel]; [destruct l; cbn in Hf; lia|].
  destruct l as [|y l].
  - cbn [map join String.concat]. unfold quote_elem. cbn [append read_elements].
    change (Ascii.eqb squote squote) with true. cbv iota.
    rewrite append_assoc_str. cbn [append].
    rewrite read_quoted_escaped; [reflexivity | rewrite length_append_str; cbn; lia | discriminate].
  - change (join ", " (map quote_elem (x :: y :: l)))
      with (quote_elem x ++ ", " ++ join ", " (map quote_elem (y :: l)))%string in Hf |- *.
    assert (HJ : (String.length (join ", " (map quote_elem (y :: l)) ++ "]") <= fuel)%nat).
    { assert (E : forall a J : string, String.length ((a ++ ", " ++ J) ++ "]")%string
                    = (String.length a + 2 + String.length (J ++ "]"))%nat)
        by (intros a J; rewrite !length_append_str; cbn; lia).
      rewrite E in Hf. unfold quote_elem at 1 in Hf. cbn [String.length] in Hf. lia. }
    unfold quote_elem at 1. cbn [append read_elements].
    change (Ascii.eqb squote squote) with true. cbv iota.
    rewrite !append_assoc_str. cbn [append].
    rewrite read_quoted_escaped; [| rewrite !length_append_str; cbn; lia | discriminate].
    cbn - [join read_elements]. rewrite IH; [reflexivity | discriminate | exact HJ].
Qed.

(** X9.  The SQL list literal [insert_pending_to_table] splices into its
    INSERT statement reads back, as a list of string constants, as exactly the
    record's sources, whatever quotes they contain: a source name cannot end
    its constant early or inject SQL. *)
Theorem sources_to_array_literal_roundtrip : forall sources,
  sources <> [] -> list_literal_values (sources_to_array_literal sources) = Some sources.
Proof.
  intros [|x l] Hne; [contradiction|]. unfold sources_to_array_literal.
  change (fun s => String squote (replace_squote s ++ String squote EmptyString)) with quote_elem.
  cbn [append list_literal_values]. change (Ascii.eqb "["%char "["%char) with true. cbv iota.
  apply read_elements_join; [exact Hne | lia].
Qed.


Lemma sources_to_array_literal_roundtrip_witness :
  ["it's"; "rock,you"]%string <> [] /\
  list_literal_values (sources_to_array_literal ["it's"; "rock,you"]%string) = Some ["it's"; "rock,you"]%string.
Proof.
  assert (H : ["it's"; "rock,you"]%string <> []) by discriminate.
  split; [exact H|]. exact (sources_to_array_literal_roundtrip _ H).
Defined.

(** ** Set-like accumulation *)

Lemma set_insert_In : forall x l y, In y (set_insert x l) <-> In y l \/ y = x.
Proof.
  intros x l y. unfold set_insert. destruct (existsb (String.eqb x) l) eqn:E.
  - apply existsb_eqb_In in E. split; [tauto|]. intros [H | ->]; assumption.
  - rewrite in_app_iff. cbn [In]. split.
    + intros [H | [H | []]]; [left; exact H | right; symmetry; exact H].
    + intros [H | H]; [left; exact H | right; left; symmetry; exact H].
Qed.

Lemma set_insert_NoDup : forall x l, NoDup l -> NoDup (set_insert x l).
Proof.
  intros x l H. unfold set_insert. destruct (existsb (String.eqb x) l) eqn:E; [exact H|].
  apply NoDup_app; [exact H | repeat constructor; simpl; tauto|].
  intros y Hy [<- | []]. apply existsb_eqb_In in Hy. congruence.
Qed.

Lemma fold_set_insert_In : forall (A : Type) (f : A -> string) l acc y,
  In y (fold_left (fun acc r => set_insert (f r) acc) l acc) <-> In y acc \/ exists r, In r l /\ f r = y.
Proof.
  intros A f l; induction l as [|r l IH]; intros acc y; cbn [fold_left].
  - split; [tauto|]. intros [H | [r [[] _]]]; exact H.
  - rewrite IH, set_insert_In. split.
    + intros [[H | ->] | [r' [H1 H2]]]; [left; exact H | right; exists r; split; [left|]; reflexivity |
        right; exists r'; split; [right|]; assumption].
    + intros [H | [r' [[<- | H1] H2]]]; [left; left; exact H | left; right; symmetry; exact H2 |
        right; exists r'; split; assumption].
Qed.

Lemma fold_set_insert_NoDup : forall (A : Type) (f : A -> string) l acc,
  NoDup acc -> NoDup (fold_left (fun acc r => set_insert (f r) acc) l acc).
Proof.
  intros A f l; induction l as [|r l IH]; intros acc H; [exact H|]. apply IH, set_insert_NoDup, H.
Qed.

Lemma fold_sources_In : forall l acc y,
  In y (fold_left (fun acc r => fold_left (fun a x => set_insert x a) (sources r) acc) l acc) <->
  In y acc \/ exists r, In r l /\ In y (sources r).
Proof.
  intros l; induction l as [|r l IH]; intros acc y; cbn [fold_left].
  - split; [tauto|]. intros [H | [r [[] _]]]; exact H.
  - rewrite IH. rewrite (fold_set_insert_In string (fun x => x)). split.
    + intros [[H | [x [H1 ->]]] | [r' [H1 H2]]]; [left; exact H | right; exists r; split; [left; reflexivity | exact H1] |
        right; exists r'; split; [right|]; assumption].
    + intros [H | [r' [[<- | H1] H2]]]; [left; left; exact H | left; right; exists y; split; [exact H2 | reflexivity] |
        right; exists r'; split; assumption].
Qed.

Lemma fold_sources_NoDup : forall l acc,
  NoDup acc -> NoDup (fold_left (fun acc r => fold_left (fun a x => set_insert x a) (sources r) acc) l acc).
Proof.
  intros l; induction l as [|r l IH]; intros acc H; [exact H|]. cbn [fold_left]. apply IH.
  apply (fold_set_insert_NoDup string (fun x => x)). exact H.
Qed.

(** X10.  [scan_stats] on a readable file counts its rows, lists each
    algorithm of its rows exactly once and each source of its rows exactly
    once, and reports the file length it was given. *)
Theorem scan_stats_contents : forall d s file_len pf,
  d (ps_path s) = Some (Some pf) ->
  exists st, scan_stats d s file_len = Ok st /\
    total_records st = Z.of_nat (length (all_rows pf)) /\
    NoDup (algorithms st) /\
    (forall a, In a (algorithms st) <-> exists r, In r (all_rows pf) /\ algorithm r = a) /\
    NoDup (stat_sources st) /\
    (forall x, In x (stat_sources st) <-> exists r, In r (all_rows pf) /\ In x (sources r)) /\
    file_size_bytes st = file_len.
Proof.
  intros d s file_len pf Hd. unfold scan_stats, open_parquet. rewrite Hd. cbn [obind].
  eexists. split; [reflexivity|]. cbn [total_records algorithms stat_sources file_size_bytes].
  split; [reflexivity|]. split; [apply fold_set_insert_NoDup; constructor|].
  split; [intros a; rewrite fold_set_insert_In; split; [intros [[] | H]; exact H | intros H; right; exact H]|].
  split; [apply fold_sources_NoDup; constructor|].
  split; [intros x; rewrite fold_sources_In; split; [intros [[] | H]; exact H | intros H; right; exact H]|].
  reflexivity.
Qed.

Lemma stats_meta_loop_no_total : forall md tr al so,
  forallb (fun e => negb (String.eqb (key e) META_TOTAL_RECORDS)) md = true ->
  fst (fst (stats_meta_loop md tr al so)) = tr.
Proof.
  induction md as [|e md IH]; intros tr al so H; [reflexivity|].
  cbn [forallb] in H. apply andb_prop in H as [H1 H2]. apply negb_true_iff in H1.
  cbn [stats_meta_loop]. rewrite H1.
  destruct (String.eqb (key e) META_ALGORITHMS); [apply IH; exact H2|].
  destruct (String.eqb (key e) META_SOURCES); apply IH; exact H2.
Qed.

(** X11.  When a readable file's metadata has no total-records entry (in
    particular when it has no metadata at all), [stats] falls back to the full
    scan: its result is exactly [scan_stats]'s. *)
Theorem stats_fallback_scan : forall d s file_len pf,
  d (ps_path s) = Some (Some pf) -> lacks_key META_TOTAL_RECORDS pf = true ->
  stats d s file_len = scan_stats d s file_len.
Proof.
  intros d s file_len pf Hd Hk. unfold stats, read_stats_from_metadata, path_exists, open_parquet.
  rewrite Hd. cbn [negb obind]. unfold lacks_key in Hk.
  destruct (key_value_metadata pf) as [md|]; [|reflexivity].
  pose proof (stats_meta_loop_no_total md None None None Hk) as H.
  destruct (stats_meta_loop md None None None) as [[tr al] so]. cbn [fst] in H. subst tr. reflexivity.
Qed.











(** ** Statistics a build writes *)

Lemma fold_collect_one_algorithms : forall records ws,
  ws_algorithms (fold_left collect_one records ws) =
  fold_left (fun acc r => set_insert (algorithm r) acc) records (ws_algorithms ws).
Proof. induction records as [|r t IH]; intros ws; [reflexivity|]. cbn [fold_left]. apply IH. Qed.

Lemma fold_collect_one_sources : forall records ws,
  ws_sources (fold_left collect_one records ws) =
  fold_left (fun acc r => fold_left (fun a x => set_insert x a) (sources r) acc) records (ws_sources ws).
Proof. induction records as [|r t IH]; intros ws; [reflexivity|]. cbn [fold_left]. apply IH. Qed.

Lemma collect_stats_fields : forall s records,
  stats_fields (collect_stats s records) = stats_after (stats_fields s) records.
Proof.
  intros s records. unfold stats_fields, stats_after, collect_stats. cbn [write_stats set_write_stats].
  rewrite fold_collect_one_total, fold_collect_one_algorithms, fold_collect_one_sources. reflexivity.
Qed.

Lemma stats_after_app : forall f l1 l2, stats_after (stats_after f l1) l2 = stats_after f (l1 ++ l2).
Proof.
  intros [[t al] so] l1 l2. unfold stats_after. rewrite !fold_left_app, length_app. f_equal. f_equal. lia.
Qed.

Lemma write_chunks_stats : forall cs d s w,
  writer s = Some w ->
  exists d' s' w', write_chunks d s cs = Ok (d', s') /\ ps_path s' = ps_path s /\
    writer s' = Some w' /\ aw_rows w' = aw_rows w ++ concat cs /\ aw_kv w' = aw_kv w /\
    stats_fields s' = stats_after (stats_fields s) (concat cs).
Proof.
  induction cs as [|c rest IH]; intros d s w Hw; cbn [write_chunks concat].
  - exists d, s, w. rewrite app_nil_r. repeat split; try reflexivity; try exact Hw.
    destruct (stats_fields s) as [[t al] so]. unfold stats_after. cbn. f_equal. f_equal. lia.
  - destruct c as [|r c'].
    + cbn [write_batch obind fst snd app]. apply IH; exact Hw.
    + unfold write_batch at 1, ensure_writer. rewrite collect_stats_writer, Hw. cbn [obind fst snd].
      destruct (IH d (set_writer (collect_stats s (r :: c')) (Some (aw_write w (r :: c'))))
                  (aw_write w (r :: c')) eq_refl) as [d' [s' [w' (H1 & H2 & H3 & H4 & H5 & H6)]]].
      exists d', s', w'. rewrite H1. split; [reflexivity|]. split; [exact H2|]. split; [exact H3|].
      split; [rewrite H4; cbn [aw_rows aw_write]; rewrite <- app_assoc; reflexivity|].
      split; [exact H5|].
      rewrite H6. change (stats_fields (set_writer (collect_stats s (r :: c')) (Some (aw_write w (r :: c')))))
        with (stats_fields (collect_stats s (r :: c'))).
      rewrite collect_stats_fields, stats_after_app. reflexivity.
Qed.










Lemma scan_stats_contents_witness :
  exists pf, prior_disk (ps_path (ParquetStorage_new db_path keys0)) = Some (Some pf) /\
  exists st, scan_stats prior_disk (ParquetStorage_new db_path keys0) 7 = Ok st /\
    total_records st = Z.of_nat (length (all_rows pf)) /\
    NoDup (algorithms st) /\
    (forall a, In a (algorithms st) <-> exists r, In r (all_rows pf) /\ algorithm r = a) /\
    NoDup (stat_sources st) /\
    (forall x, In x (stat_sources st) <-> exists r, In r (all_rows pf) /\ In x (sources r)) /\
    file_size_bytes st = 7.
Proof.
  eexists. assert (Hd : prior_disk (ps_path (ParquetStorage_new db_path keys0)) = Some (Some _)) by reflexivity.
  split; [exact Hd|]. exact (scan_stats_contents prior_disk (ParquetStorage_new db_path keys0) 7 _ Hd).
Defined.

Lemma stats_fallback_scan_witness :
  exists pf, prior_disk (ps_path (ParquetStorage_new db_path keys0)) = Some (Some pf) /\
    lacks_key META_TOTAL_RECORDS pf = true /\
    stats prior_disk (ParquetStorage_new db_path keys0) 7 = scan_stats prior_disk (ParquetStorage_new db_path keys0) 7.
Proof.
  eexists. assert (Hd : prior_disk (ps_path (ParquetStorage_new db_path keys0)) = Some (Some _)) by reflexivity.
  assert (Hk : lacks_key META_TOTAL_RECORDS
                 {| key_value_metadata := None;
                    row_groups := [{| rg_rows := [rec_hello_prior];
                                      rg_hash_statistics := hash_statistics [rec_hello_prior] |}] |} = true)
    by reflexivity.
  split; [exact Hd|]. split; [exact Hk|].
  exact (stats_fallback_scan prior_disk (ParquetStorage_new db_path keys0) 7 _ Hd Hk).
Defined.


Lemma json_escape_char : forall c t,
  json_parse_str (json_escape (String c EmptyString) ++ t) = prepend (String c EmptyString) (json_parse_str t).
Proof.
  intros [[] [] [] [] [] [] [] []] t; reflexivity.
Qed.

Lemma json_escape_cons : forall c s, json_escape (String c s) = (json_escape (String c EmptyString) ++ json_escape s)%string.
Proof.
  intros c s. cbn [json_escape]. rewrite append_assoc_str. reflexivity.
Qed.

Lemma json_parse_str_quote : forall s t,
  json_parse_str (json_escape s ++ String dquote t) = Some (s, t).
Proof.
  induction s as [|c s IH]; intros t; [reflexivity|].
  rewrite json_escape_cons, append_assoc_str, json_escape_char, IH. reflexivity.
Qed.

Lemma json_string_array_cons : forall x rest,
  json_string_array (x :: rest) = ("[" ++ json_quote x ++ array_tail rest)%string.
Proof.
  intros x rest. unfold json_string_array, join. cbn [map]. f_equal. revert x.
  induction rest as [|y rest IH]; intros x; [reflexivity|].
  cbn [map].
  change (String.concat "," (json_quote x :: json_quote y :: map json_quote rest))
    with (json_quote x ++ "," ++ String.concat "," (json_quote y :: map json_quote rest))%string.
  rewrite !append_assoc_str, IH. reflexivity.
Qed.

Lemma array_tail_length : forall rest, (length rest < String.length (array_tail rest))%nat.
Proof.
  induction rest as [|y rest IH]; cbn [array_tail length]; [cbn; lia|].
  cbn [append String.length]. rewrite !length_append_str. lia.
Qed.

Lemma json_quote_app : forall y t, (json_quote y ++ t)%string = String dquote (json_escape y ++ String dquote t).
Proof. intros y t. unfold json_quote. cbn [append]. rewrite append_assoc_str. reflexivity. Qed.

Lemma json_parse_seq_tail : forall rest fuel acc,
  (length rest < fuel)%nat ->
  json_parse_seq fuel false (array_tail rest) acc = Some (fold_left (fun a x => set_insert x a) rest acc, EmptyString).
Proof.
  induction rest as [|y rest IH]; intros fuel acc Hf; (destruct fuel as [|fuel]; [cbn in Hf; lia|]).
  - reflexivity.
  - cbn [array_tail]. cbn [length] in Hf. rewrite json_quote_app. simpl.
    rewrite json_parse_str_quote, IH by lia. reflexivity.
Qed.

Lemma json_from_str_set_array : forall l,
  json_from_str_set (json_string_array l) = Some (fold_left (fun a x => set_insert x a) l []).
Proof.
  intros [|x rest]; [reflexivity|].
  rewrite json_string_array_cons. unfold json_from_str_set. cbn [append skip_ws].
  change (json_is_ws "["%char) with false. change (Nat.eqb (nat_of_ascii "["%char) 91) with true. cbv iota.
  rewrite json_quote_app. remember (String.length _) as n eqn:En.
  cbn [String.length] in En. rewrite length_append_str in En. cbn [String.length] in En.
  pose proof (array_tail_length rest). simpl.
  rewrite json_parse_str_quote, json_parse_seq_tail by lia. reflexivity.
Qed.

Lemma fold_collect_one_source_hashes : forall records ws,
  ws_source_hashes (fold_left collect_one records ws) = ws_source_hashes ws.
Proof. induction records as [|r t IH]; intros ws; [reflexivity|]. cbn [fold_left]. rewrite IH. reflexivity. Qed.

Lemma write_chunks_source_hashes : forall cs d s d' s',
  write_chunks d s cs = Ok (d', s') -> ws_source_hashes (write_stats s') = ws_source_hashes (write_stats s).
Proof.
  induction cs as [|c rest IH]; intros d s d' s' H; cbn [write_chunks] in H.
  - injection H as _ <-. reflexivity.
  - destruct c as [|r c'].
    + cbn [write_batch obind fst snd] in H. apply IH in H. exact H.
    + unfold write_batch, ensure_writer in H.
      destruct (writer (collect_stats s (r :: c'))); cbn [obind fst snd] in H;
        apply IH in H; rewrite H; unfold collect_stats; cbn [write_stats set_writer set_write_stats];
        rewrite fold_collect_one_source_hashes; reflexivity.
Qed.

Lemma sort_and_write_local_file : forall d output keys sh final,
  final <> [] ->
  exists d1 s1 w1, sort_and_write_local d output keys sh final
      = Ok (aw_close d1 output (fold_left append_key_value_metadata (finish_metadata (write_stats s1)) w1)) /\
    aw_kv w1 = [] /\
    ws_source_hashes (write_stats s1) = match sh with Some h => [h] | None => [] end.
Proof.
  intros d output keys sh final Hne. unfold sort_and_write_local. cbv zeta.
  destruct (sort_by hash_cmp final) as [|x l] eqn:Hs.
  { destruct (sort_by_hash_spec final) as [_ [Hp _]]. rewrite Hs in Hp.
    apply Permutation_nil in Hp; congruence. }
  destruct (chunks_first _ BATCH_SIZE x l) as [rest Hc]. rewrite Hc.
  set (s0 := match sh with
             | Some h => add_source_hash (with_expected_capacity output (Z.of_nat (length (x :: l))) keys) h
             | None => with_expected_capacity output (Z.of_nat (length (x :: l))) keys
             end).
  assert (Hs0 : writer s0 = None /\ ps_path s0 = output /\
                ws_source_hashes (write_stats s0) = match sh with Some h => [h] | None => [] end)
    by (subst s0; destruct sh; repeat split; reflexivity).
  destruct Hs0 as (Hw0 & Hp0 & Hh0).
  assert (HB : (0 < BATCH_SIZE)%nat) by (unfold BATCH_SIZE; lia).
  destruct (firstn BATCH_SIZE (x :: l)) as [|y c] eqn:Hf.
  { apply (f_equal (@length _)) in Hf. rewrite length_firstn in Hf. cbn [length] in Hf. lia. }
  cbn [write_chunks]. unfold write_batch at 1, ensure_writer.
  rewrite collect_stats_writer, Hw0, collect_stats_path. cbn [obind fst snd].
  destruct (write_chunks_stats rest (disk_put d (ps_path s0) None)
              (set_writer (collect_stats s0 (y :: c)) (Some (aw_write ArrowWriter_try_new (y :: c))))
              (aw_write ArrowWriter_try_new (y :: c)) eq_refl)
    as [d1 [s1 [w1 (H1 & H2 & H3 & H4 & H5 & H6)]]].
  pose proof (write_chunks_source_hashes _ _ _ _ _ H1) as Hh1.
  rewrite H1. cbn [obind fst snd]. rewrite (finish_open d1 s1 w1 H3). cbn [obind fst].
  exists d1, s1, w1. split; [|split].
  - rewrite H2. cbn [ps_path set_writer]. rewrite collect_stats_path, Hp0. reflexivity.
  - rewrite H5. reflexivity.
  - rewrite Hh1. unfold collect_stats. cbn [write_stats set_writer set_write_stats].
    rewrite fold_collect_one_source_hashes. exact Hh0.
Qed.

Lemma get_source_hashes_written : forall d1 output s1 w1,
  aw_kv w1 = [] ->
  get_source_hashes (aw_close d1 output (fold_left append_key_value_metadata (finish_metadata (write_stats s1)) w1)) output
    = Ok (fold_left (fun a x => set_insert x a) (ws_source_hashes (write_stats s1)) []).
Proof.
  intros d1 output s1 w1 Hkv.
  unfold get_source_hashes. rewrite path_exists_aw_close. cbn [negb].
  unfold open_parquet, aw_close, disk_put. rewrite String.eqb_refl. cbn [obind key_value_metadata].
  rewrite aw_kv_fold, Hkv. cbn [app].
  set (ws := write_stats s1). unfold finish_metadata.
  destruct (ws_source_hashes ws) as [|h hs] eqn:Eh; [reflexivity|].
  simpl. rewrite <- Eh. rewrite json_from_str_set_array. rewrite Eh. reflexivity.
Qed.

(** X13.  A local build of a non-empty record list succeeds, and
    [get_source_hashes] on the written file then returns exactly the source
    content hash the build was given, or nothing when it was given none. *)
Theorem build_records_source_hash : forall d output keys sh final,
  final <> [] ->
  exists d', sort_and_write_local d output keys sh final = Ok d' /\
    get_source_hashes d' output = Ok (match sh with Some h => [h] | None => [] end).
Proof.
  intros d output keys sh final Hne.
  destruct (sort_and_write_local_file d output keys sh final Hne) as [d1 [s1 [w1 (H1 & H2 & H3)]]].
  eexists. split; [exact H1|]. rewrite get_source_hashes_written by exact H2. rewrite H3.
  destruct sh; reflexivity.
Qed.

(** X14.  Once a local build of a non-empty record list has recorded the
    source content hash [h] (whose first 12 bytes end on a character boundary),
    every later run without [--force] for a source with the same content hash
    and at least one hasher returns at once and leaves the store unchanged,
    whatever its words, hashers, name, append flag and filter keys. *)
Theorem rebuild_same_source_noop : forall d output keys h final,
  final <> [] -> is_char_boundary h 12 = true ->
  exists d', sort_and_write_local d output keys (Some h) final = Ok d' /\
    forall words hashers source_name append keys',
      hashers <> [] ->
      run_build d' words hashers source_name (Some h) false append output keys' = Ok d'.
Proof.
  intros d output keys h final Hne Hcb.
  destruct (sort_and_write_local_file d output keys (Some h) final Hne) as [d1 [s1 [w1 (H1 & H2 & H3)]]].
  eexists. split; [exact H1|].
  intros words hashers source_name append keys' Hh.
  unfold run_build. destruct hashers as [|hs0 hs]; [congruence|].
  rewrite path_exists_aw_close. cbn [negb andb].
  rewrite get_source_hashes_written by exact H2. rewrite H3. cbn [obind fold_left].
  unfold set_insert. cbn [existsb app]. rewrite String.eqb_refl. cbn [orb]. rewrite Hcb. reflexivity.
Qed.

Lemma build_records_source_hash_witness :
  [rec_hello] <> [] /\
  exists d', sort_and_write_local empty_disk db_path keys0 (Some content_hash0) [rec_hello] = Ok d' /\
    get_source_hashes d' db_path = Ok [content_hash0].
Proof.
  assert (Hn : [rec_hello] <> []) by discriminate.
  split; [exact Hn|].
  exact (build_records_source_hash empty_disk db_path keys0 (Some content_hash0) [rec_hello] Hn).
Defined.

Lemma rebuild_same_source_noop_witness :
  [rec_hello] <> [] /\ is_char_boundary content_hash0 12 = true /\
  exists d', sort_and_write_local empty_disk db_path keys0 (Some content_hash0) [rec_hello] = Ok d' /\
    run_build d' ["b"; "a"]%string [hasher_plain "id1"] "list" (Some content_hash0) false true db_path keys0 = Ok d'.
Proof.
  assert (Hn : [rec_hello] <> []) by discriminate.
  assert (Hc : is_char_boundary content_hash0 12 = true) by reflexivity.
  split; [exact Hn|]. split; [exact Hc|].
  destruct (rebuild_same_source_noop empty_disk db_path keys0 content_hash0 [rec_hello] Hn Hc) as [d' [H1 H2]].
  exists d'. split; [exact H1|]. apply H2. discriminate.
Defined.

Lemma wrap_i32_small : forall z, 0 <= z <= 2 ^ 31 - 1 -> wrap_i32 z = z.
Proof. intros z Hz. unfold wrap_i32. rewrite Z.mod_small by lia. lia. Qed.

Lemma monotone_cons2 : forall a b t, monotone (a :: b :: t) = (a <=? b) && monotone (b :: t).
Proof. reflexivity. Qed.

Lemma push_offsets_plain : forall records len,
  0 <= len -> len + source_count records <= 2 ^ 31 - 1 ->
  monotone (len :: push_offsets records len) = true /\
  last (len :: push_offsets records len) 0 = len + source_count records.
Proof.
  unfold source_count. induction records as [|r rest IH]; intros len H0 H1.
  - cbn in *. split; [reflexivity | lia].
  - cbn [push_offsets flat_map] in *. rewrite length_app, Nat2Z.inj_add in H1.
    rewrite wrap_i32_small by lia.
    destruct (IH (len + Z.of_nat (length (sources r)))) as [Hm Hl]; [lia | lia |].
    split.
    + rewrite monotone_cons2, Hm, andb_true_r. apply Z.leb_le. lia.
    + change (last (len :: len + Z.of_nat (length (sources r)) :: push_offsets rest (len + Z.of_nat (length (sources r)))) 0)
        with (last (len + Z.of_nat (length (sources r)) :: push_offsets rest (len + Z.of_nat (length (sources r)))) 0).
      rewrite Hl, length_app, Nat2Z.inj_add. lia.
Qed.

Lemma extract_from_offsets : forall records pre i r,
  Z.of_nat (length pre) + source_count records <= 2 ^ 31 - 1 ->
  nth_error records i = Some r ->
  extract_sources (pre ++ flat_map sources records, Z.of_nat (length pre) :: push_offsets records (Z.of_nat (length pre))) i
    = Ok (sources r).
Proof.
  unfold source_count. induction records as [|r0 rest IH]; intros pre i r Hb Hi; [destruct i; discriminate|].
  cbn [flat_map push_offsets] in *. rewrite length_app, Nat2Z.inj_add in Hb.
  destruct i as [|i].
  - cbn in Hi. injection Hi as <-. cbn [extract_sources nth_error].
    rewrite wrap_i32_small by lia. unfold usize_of_i32.
    replace (Z.of_nat (length pre) <? 0) with false by (symmetry; apply Z.ltb_ge; lia).
    replace (Z.of_nat (length pre) + Z.of_nat (length (sources r0)) <? 0) with false by (symmetry; apply Z.ltb_ge; lia).
    destruct (Z.ltb_spec (Z.of_nat (length pre)) (Z.of_nat (length pre) + Z.of_nat (length (sources r0)))).
    + replace (Z.of_nat (length (pre ++ sources r0 ++ flat_map sources rest)) <? Z.of_nat (length pre) + Z.of_nat (length (sources r0)))
        with false by (symmetry; apply Z.ltb_ge; rewrite !length_app; lia).
      f_equal. rewrite Nat2Z.id, skipn_app, skipn_all, Nat.sub_diag, skipn_O. cbn [app].
      replace (Z.to_nat (Z.of_nat (length pre) + Z.of_nat (length (sources r0)) - Z.of_nat (length pre)))
        with (length (sources r0)) by lia.
      rewrite firstn_app, firstn_all, Nat.sub_diag, firstn_O, app_nil_r. reflexivity.
    + destruct (sources r0); [reflexivity | cbn [length] in *; lia].
  - cbn [nth_error] in Hi.
    specialize (IH (pre ++ sources r0) i r).
    rewrite length_app, Nat2Z.inj_add, <- app_assoc in IH.
    rewrite wrap_i32_small by lia.
    specialize (IH ltac:(lia) Hi).
    unfold extract_sources in IH |- *. cbn [nth_error]. exact IH.
Qed.

(** X15.  When a batch's sources fit the [i32] offsets (at most [i32::MAX]
    sources and [i32::MAX] bytes in all), [build_sources_array] succeeds and
    [extract_sources] at each row index returns exactly that row's sources,
    in order. *)
Theorem sources_array_roundtrip : forall records,
  source_count records <= 2 ^ 31 - 1 ->
  total_bytes (flat_map sources records) <= 2 ^ 31 - 1 ->
  exists arr, build_sources_array records = Ok arr /\
    forall i r, nth_error records i = Some r -> extract_sources arr i = Ok (sources r).
Proof.
  intros records Hc Hbytes.
  destruct (push_offsets_plain records 0) as [Hm Hl]; [lia | lia |].
  unfold build_sources_array. cbv zeta.
  replace (2 ^ 31 - 1 <? total_bytes (flat_map sources records)) with false by (symmetry; apply Z.ltb_ge; lia).
  rewrite Hm. cbn [negb]. rewrite Hl.
  replace (Z.of_nat (length (flat_map sources records)) <? 0 + source_count records) with false
    by (symmetry; apply Z.ltb_ge; unfold source_count; lia).
  eexists. split; [reflexivity|].
  intros i r Hi. apply (extract_from_offsets records [] i r); [cbn; lia | exact Hi].
Qed.

Lemma sources_array_roundtrip_witness :
  source_count [rec_hello_prior; rec_long] <= 2 ^ 31 - 1 /\
  total_bytes (flat_map sources [rec_hello_prior; rec_long]) <= 2 ^ 31 - 1 /\
  exists arr, build_sources_array [rec_hello_prior; rec_long] = Ok arr /\
    extract_sources arr 1 = Ok (sources rec_long).
Proof.
  assert (Hc : source_count [rec_hello_prior; rec_long] <= 2 ^ 31 - 1) by (vm_compute; discriminate).
  assert (Hb : total_bytes (flat_map sources [rec_hello_prior; rec_long]) <= 2 ^ 31 - 1) by (vm_compute; discriminate).
  split; [exact Hc|]. split; [exact Hb|].
  destruct (sources_array_roundtrip [rec_hello_prior; rec_long] Hc Hb) as [arr [H1 H2]].
  exists arr. split; [exact H1|]. apply H2. reflexivity.
Defined.

Lemma hex_decode_pairs_bad : forall n s,
  (String.length s <= n)%nat ->
  (exists c, In c (list_ascii_of_string s) /\ hex_val c = None) ->
  hex_decode_pairs s = None.
Proof.
  induction n as [|n IH]; intros s Hl [c [Hc Hv]].
  - destruct s; [destruct Hc | cbn in Hl; lia].
  - destruct s as [|a [|b rest]]; [destruct Hc| reflexivity |].
    cbn [hex_decode_pairs]. cbn [list_ascii_of_string In] in Hc.
    destruct Hc as [<- | [<- | Hc]]; [rewrite Hv; reflexivity | destruct (hex_val a); [rewrite Hv|]; reflexivity|].
    destruct (hex_val a), (hex_val b); try reflexivity.
    rewrite (IH rest); [reflexivity | cbn in Hl; lia | exists c; split; assumption].
Qed.

Lemma nibble_check : forallb (fun n => match hex_val (hex_digit (Z.of_nat n)) with
                                       | Some v => v =? Z.of_nat n | None => false end) (seq 0 16) = true.
Proof. vm_compute. reflexivity. Qed.

Lemma byte_check : forallb (fun n => Z.lor (Z.shiftl (Z.shiftr (Z.of_nat n) 4) 4) (Z.land (Z.of_nat n) 15) =? Z.of_nat n)
                     (seq 0 256) = true.
Proof. vm_compute. reflexivity. Qed.

Lemma hex_val_digit : forall n, 0 <= n < 16 -> hex_val (hex_digit n) = Some n.
Proof.
  intros n Hn. pose proof nibble_check as H. rewrite forallb_forall in H.
  specialize (H (Z.to_nat n)). rewrite Z2Nat.id in H by lia.
  destruct (hex_val (hex_digit n)) as [v|]; [|discriminate H; apply in_seq; lia].
  f_equal. apply Z.eqb_eq, H, in_seq. lia.
Qed.

Lemma byte_nibbles : forall x, 0 <= x <= 255 -> Z.lor (Z.shiftl (Z.shiftr x 4) 4) (Z.land x 15) = x.
Proof.
  intros x Hx. pose proof byte_check as H. rewrite forallb_forall in H.
  specialize (H (Z.to_nat x)). rewrite Z2Nat.id in H by lia. apply Z.eqb_eq, H, in_seq. lia.
Qed.

Lemma hex_decode_encode : forall p, Forall (fun x => 0 <= x <= 255) p -> hex_decode (hex_encode p) = Some p.
Proof.
  intros p Hp. unfold hex_decode.
  assert (Hl : String.length (hex_encode p) = (2 * length p)%nat).
  { clear Hp. induction p as [|x p IH]; [reflexivity|]. cbn [hex_encode fold_right String.length length] in *.
    fold (hex_encode p). rewrite IH. lia. }
  rewrite Hl, Nat.odd_mul. cbn [Nat.odd Nat.even negb andb]. clear Hl.
  induction p as [|x p IH]; [reflexivity|]. inversion Hp as [|? ? Hx Hp']; subst.
  cbn [hex_encode fold_right hex_decode_pairs]. fold (hex_encode p).
  assert (H1 : 0 <= Z.shiftr x 4 < 16).
  { rewrite Z.shiftr_div_pow2 by lia. split; [apply Z.div_pos; lia | apply Z.div_lt_upper_bound; cbn; lia]. }
  assert (H2 : 0 <= Z.land x 15 < 16).
  { rewrite Z.land_ones with (n := 4) by lia. pose proof (Z.mod_pos_bound x (2 ^ 4)). cbn in *; lia. }
  rewrite (hex_val_digit _ H1), (hex_val_digit _ H2), IH, byte_nibbles by assumption. reflexivity.
Qed.

(** X16.  [query::run] rejects a hash argument with an odd number of
    characters or with a character that is not a hex digit, with
    "Invalid hex string: <argument>", before it looks at the database. *)
Theorem query_run_invalid_hex : forall d database keys hash algo limit,
  Nat.odd (String.length hash) = true \/ (exists c, In c (list_ascii_of_string hash) /\ hex_val c = None) ->
  query_run d database keys hash algo limit = Err ("Invalid hex string: " ++ hash).
Proof.
  intros d database keys hash algo limit H. unfold query_run, hex_decode.
  destruct (Nat.odd (String.length hash)) eqn:Eo; [reflexivity|].
  destruct H as [H | H]; [discriminate H|].
  rewrite (hex_decode_pairs_bad (String.length hash) hash (le_n _) H). reflexivity.
Qed.

(** X17.  The lower-case hex that [hex::encode] prints for a byte string is
    accepted back by [query::run]: querying with it is querying with the bytes
    themselves, an empty result being reported as "No matches found". *)
Theorem query_run_hex_encode : forall d database keys p algo limit,
  Forall (fun x => 0 <= x <= 255) p ->
  query_run d database keys (hex_encode p) algo limit =
    (results <- query d (ParquetStorage_new database keys) p algo limit ;;
     match results with [] => Err "No matches found" | _ :: _ => Ok results end).
Proof.
  intros d database keys p algo limit Hp. unfold query_run. rewrite hex_decode_encode by exact Hp. reflexivity.
Qed.

(** X18.  When the database file does not exist, [query::run] with a valid
    hex argument fails with "No matches found", not with a missing-file error. *)
Theorem query_run_missing_database : forall d database keys hash b algo limit,
  path_exists d database = false -> hex_decode hash = Some b ->
  query_run d database keys hash algo limit = Err "No matches found".
Proof.
  intros d database keys hash b algo limit Hd Hh. unfold query_run, query. rewrite Hh.
  cbn [ps_path ParquetStorage_new with_expected_capacity]. rewrite Hd. reflexivity.
Qed.

Lemma query_run_invalid_hex_witness :
  (Nat.odd (String.length "abc") = true \/
     (exists c, In c (list_ascii_of_string "abc") /\ hex_val c = None)) /\
  query_run prior_disk db_path keys0 "abc" None None = Err ("Invalid hex string: " ++ "abc").
Proof.
  assert (H : Nat.odd (String.length "abc") = true \/
                (exists c, In c (list_ascii_of_string "abc") /\ hex_val c = None)) by (left; reflexivity).
  split; [exact H|]. exact (query_run_invalid_hex prior_disk db_path keys0 "abc" None None H).
Defined.

Lemma query_run_hex_encode_witness :
  Forall (fun x => 0 <= x <= 255) [44; 242] /\
  query_run prior_disk db_path keys0 (hex_encode [44; 242]) None None =
    (results <- query prior_disk (ParquetStorage_new db_path keys0) [44; 242] None None ;;
     match results with [] => Err "No matches found" | _ :: _ => Ok results end).
Proof.
  assert (H : Forall (fun x => 0 <= x <= 255) [44; 242]) by (repeat constructor; lia).
  split; [exact H|]. exact (query_run_hex_encode prior_disk db_path keys0 [44; 242] None None H).
Defined.

Lemma query_run_missing_database_witness :
  path_exists empty_disk db_path = false /\ hex_decode "2cf2" = Some [44; 242] /\
  query_run empty_disk db_path keys0 "2cf2" None None = Err "No matches found".
Proof.
  assert (H1 : path_exists empty_disk db_path = false) by reflexivity.
  assert (H2 : hex_decode "2cf2" = Some [44; 242]) by reflexivity.
  split; [exact H1|]. split; [exact H2|].
  exact (query_run_missing_database empty_disk db_path keys0 "2cf2" [44; 242] None None H1 H2).
Defined.

Lemma map_remove_spec : forall k m o m',
  NoDup (map fst m) -> map_remove k m = (o, m') ->
  NoDup (map fst m') /\ (forall e, In e m' <-> In e m /\ fst e <> k).
Proof.
  intros k m. induction m as [|e rest IH]; intros o m' Hnd Hr; cbn [map_remove] in Hr.
  - injection Hr as <- <-. split; [constructor|]. intros e; cbn; tauto.
  - cbn [map] in Hnd. inversion Hnd as [|? ? Hn Hnd']; subst.
    destruct (key_eqb (fst e) k) eqn:Ek.
    + apply key_eqb_spec in Ek. injection Hr as <- <-. split; [exact Hnd'|].
      intros x; split.
      * intros Hx. split; [right; exact Hx|]. intros Hk. apply Hn. rewrite Ek, <- Hk.
        apply in_map, Hx.
      * intros [[<- | Hx] Hk]; [congruence | exact Hx].
    + destruct (map_remove k rest) as [o' r'] eqn:Er. injection Hr as <- <-.
      destruct (IH o' r' Hnd' eq_refl) as [Hnd'' Hin]. split.
      * cbn [map]. constructor; [|exact Hnd''].
        intros Hx. apply in_map_iff in Hx. destruct Hx as [x [Hx Hx']].
        apply Hin in Hx'. apply Hn. rewrite <- Hx. apply in_map, Hx'.
      * intros x; cbn [In]. rewrite Hin. split.
        -- intros [Hx | [Hx Hk]]; [subst x|tauto]. split; [left; reflexivity|].
           intros Hk. rewrite Hk, (proj2 (key_eqb_spec k k) eq_refl) in Ek. discriminate.
        -- intros [[<- | Hx] Hk]; [left; reflexivity | right; tauto].
Qed.

Lemma append_merge_step_keys : forall st r st',
  NoDup (map fst (records_map st)) ->
  append_merge_step st r = Ok st' ->
  map record_key (final_records st') = map record_key (final_records st) ++ [record_key r] /\
  NoDup (map fst (records_map st')) /\
  (forall e, In e (records_map st') <-> In e (records_map st) /\ fst e <> record_key r).
Proof.
  intros st r st' Hnd Hs. unfold append_merge_step in Hs.
  destruct (map_remove (record_key r) (records_map st)) as [found m] eqn:Er.
  destruct (map_remove_spec _ _ _ _ Hnd Er) as [H1 H2].
  destruct found as [nr|].
  - destruct (fold_left push_new_sources (sources nr) (sources r, merged_count st)) as [srcs n].
    injection Hs as <-. cbn [final_records records_map]. split; [|split; assumption].
    rewrite map_app. reflexivity.
  - injection Hs as <-. cbn [final_records records_map]. split; [|split; assumption].
    rewrite map_app. reflexivity.
Qed.

Lemma merge_rows_keys : forall rows st st',
  NoDup (map fst (records_map st)) ->
  for_each_rows rows append_merge_step st = Ok st' ->
  map record_key (final_records st') = map record_key (final_records st) ++ map record_key rows /\
  NoDup (map fst (records_map st')) /\
  (forall e, In e (records_map st') <-> In e (records_map st) /\ ~ In (fst e) (map record_key rows)).
Proof.
  induction rows as [|r rows IH]; intros st st' Hnd Hf; cbn [for_each_rows] in Hf.
  - injection Hf as <-. rewrite app_nil_r. split; [reflexivity|]. split; [exact Hnd|].
    intros e; cbn; tauto.
  - destruct (append_merge_step st r) as [st1| |] eqn:E; cbn [obind] in Hf; try discriminate.
    destruct (append_merge_step_keys _ _ _ Hnd E) as [K1 [N1 I1]].
    destruct (IH _ _ N1 Hf) as [K2 [N2 I2]]. split; [|split; [exact N2|]].
    + rewrite K2, K1, <- app_assoc. reflexivity.
    + intros e. rewrite I2, I1. cbn [map In]. split.
      * intros [[Ha Hb] Hc]. split; [exact Ha|]. intros [Hd | Hd]; [congruence | tauto].
      * intros [Ha Hb]. split; [split; [exact Ha|]|]; intros Hd; apply Hb; [left; congruence | right; exact Hd].
Qed.

(** The keys of [read_words]'s record map. *)
Lemma read_words_map_keys : forall words hashers src,
  NoDup (map fst (new_records_map (read_words words hashers src))) /\
  (forall k r, In (k, r) (new_records_map (read_words words hashers src)) -> k = record_key r).
Proof.
  intros words hashers src.
  assert (Hf : forall ws, read_map_inv hashers src ws (fold_left (read_step hashers src) ws
              {| total_words := 0; unique_words := 0; batch := []; seen := []; new_records_map := [] |})).
  { intros ws. induction ws as [|w ws IH] using rev_ind.
    - unfold read_map_inv; cbn. split; [tauto|]. split; [intros x []|]. split; [constructor|].
      split; [intros k r []| intros x []].
    - rewrite fold_left_app. cbn [fold_left]. apply read_step_map, IH. }
  destruct (Hf words) as (H1 & H2 & H3 & H4 & H5).
  unfold read_words.
  set (st := fold_left (read_step hashers src) words
               {| total_words := 0; unique_words := 0; batch := []; seen := []; new_records_map := [] |})
    in *.
  destruct (batch st) as [|b bs] eqn:Eb; cbn [new_records_map].
  - split; [exact H3|]. intros k r Hin. apply (H4 k r Hin).
  - split; [apply process_new_words_nodup; exact H3|].
    intros k r Hin. refine (proj1 (process_new_words_valid _ hashers src words _ _ H4 k r Hin)).
    intros x Hx; apply H1, H2, Hx.
Qed.

Lemma collect_final_records_unique : forall d output keys append m final,
  NoDup (map fst m) -> (forall k r, In (k, r) m -> k = record_key r) ->
  (forall pf, append = true -> d output = Some (Some pf) -> NoDup (map record_key (all_rows pf))) ->
  collect_final_records d output keys append m = Ok final ->
  NoDup (map record_key final).
Proof.
  intros d output keys append m final Hnd Hv Hp Hc. unfold collect_final_records in Hc.
  assert (Hsnd : forall m', (forall k r, In (k, r) m' -> k = record_key r) ->
            map record_key (map snd m') = map fst m').
  { induction m' as [|[k r] m' IH]; intros Hm'; [reflexivity|]. cbn [map fst snd].
    rewrite (Hm' k r (or_introl eq_refl)), IH; [reflexivity|]. intros k' r' Hi; apply Hm'; right; exact Hi. }
  destruct (append && path_exists d output) eqn:Ea.
  - apply andb_true_iff in Ea. destruct Ea as [Ea Hex].
    unfold for_each_record, open_parquet in Hc. change (ps_path (ParquetStorage_new output keys)) with output in Hc.
    rewrite Hex in Hc. cbn [negb] in Hc.
    destruct (d output) as [[pf|]|] eqn:Ed; cbn [obind] in Hc; try discriminate.
    destruct (for_each_rows (all_rows pf) append_merge_step
                {| existing_count := 0; merged_count := 0; final_records := []; records_map := m |})
      as [st'| |] eqn:Ef; cbn [obind] in Hc; try discriminate.
    injection Hc as <-.
    destruct (merge_rows_keys _ {| existing_count := 0; merged_count := 0; final_records := []; records_map := m |} _ Hnd Ef) as [K [N I]]. cbn [final_records records_map] in K, I.
    assert (Hv' : forall k r, In (k, r) (records_map st') -> k = record_key r).
    { intros k r Hi. apply I in Hi. apply (Hv k r), Hi. }
    rewrite map_app, K, Hsnd by exact Hv'. cbn [app].
    apply NoDup_app; [exact (Hp pf Ea eq_refl) | exact N |].
    intros k Hk Hk'. apply in_map_iff in Hk'. destruct Hk' as [e [<- He]].
    apply I in He. cbn [map] in He. tauto.
  - injection Hc as <-. cbn [final_records records_map app]. rewrite Hsnd by exact Hv. exact Hnd.
Qed.

(** X19.  A local build never writes two records with the same (hash,
    algorithm) key: if it has records to write, it succeeds and the rows of
    the written artifact have pairwise distinct keys, provided, when
    appending, the prior artifact has none. *)
Theorem build_unique_keys : forall d words hashers source_name source_hash append output keys final,
  hashers <> [] ->
  (forall pf, append = true -> d output = Some (Some pf) -> NoDup (map record_key (all_rows pf))) ->
  collect_final_records d output keys append (new_records_map (read_words words hashers source_name))
    = Ok final ->
  final <> [] ->
  exists d' pf,
    run_local d words hashers source_name source_hash append output keys = Ok d' /\
    d' output = Some (Some pf) /\ NoDup (map record_key (all_rows pf)).
Proof.
  intros d words hashers source_name source_hash append output keys final Hh Hp Hc Hne.
  destruct (sort_and_write_local_rows d output keys source_hash final Hne) as [d' [pf [H1 [H2 H3]]]].
  exists d', pf. split; [|split; [exact H2|]].
  - unfold run_local. destruct hashers as [|h t]; [congruence|]. rewrite Hc; cbn [obind]. exact H1.
  - rewrite H3. destruct (sort_by_hash_spec final) as [_ [Hperm _]].
    apply (Permutation_NoDup (Permutation_map record_key (Permutation_sym Hperm))).
    destruct (read_words_map_keys words hashers source_name) as [Hnd Hv].
    exact (collect_final_records_unique _ _ _ _ _ _ Hnd Hv Hp Hc).
Qed.

Lemma build_unique_keys_witness :
  exists final,
  build_hashers <> [] /\
  (forall pf, true = true -> prior_disk db_path = Some (Some pf) -> NoDup (map record_key (all_rows pf))) /\
  collect_final_records prior_disk db_path keys0 true
    (new_records_map (read_words build_words build_hashers "list")) = Ok final /\
  final <> [] /\
  exists d' pf,
    run_local prior_disk build_words build_hashers "list" None true db_path keys0 = Ok d' /\
    d' db_path = Some (Some pf) /\ NoDup (map record_key (all_rows pf)).
Proof.
  destruct (collect_final_records prior_disk db_path keys0 true
              (new_records_map (read_words build_words build_hashers "list"))) as [final| |] eqn:Hc;
    [| vm_compute in Hc; discriminate | vm_compute in Hc; discriminate].
  exists final.
  assert (Hh : build_hashers <> []) by discriminate.
  assert (Hp : forall pf, true = true -> prior_disk db_path = Some (Some pf) ->
                 NoDup (map record_key (all_rows pf))).
  { intros pf _ Hd. vm_compute in Hd. injection Hd as <-. vm_compute.
    repeat constructor; cbn; intuition discriminate. }
  assert (Hne : final <> []) by (vm_compute in Hc; injection Hc as <-; discriminate).
  split; [exact Hh|]. split; [exact Hp|]. split; [reflexivity|]. split; [exact Hne|].
  exact (build_unique_keys prior_disk build_words build_hashers "list" None true db_path keys0
           final Hh Hp Hc Hne).
Defined.
